(** * Provo Music Museum: artist extraction, entity resolution and
      co-occurrence graph maintenance

    A shallow embedding of the Python sources
    - [tools/llm_parser.py]               (rule-based extraction),
    - [tools/data_model.py]               (the [DataStore] resolver),
    - [tools/admin_server.py]             (the [merge_artists] endpoint),
    - [scripts/parse_artists_network.py]  (graph builder),
    - [scripts/update_network_from_edits.py], [scripts/fix_w_artists.py]
                                          (graph maintenance),
    - the show and artist endpoints of [tools/admin_server.py], the link
      loop of [tools/migrate_data.py] and the cache of [BatchParser],
    together with the properties of the specification checked against it.

    Conventions of the embedding.
    - A Python [str] is a [string]; its characters are the code points
      0..255, so ["»"] (U+00BB) is the single character 187.
    - A [dict] used as a map is a [gmap]; a [dict] whose iteration order is
      observed ([DataStore._artists]) is a list in insertion order.
    - Mutable objects held by the store are modelled by the store's value;
      every operation returns the new store.
    - File input/output ([save], [_load]) and logging are left out. *)

From Stdlib Require Import Ascii String ZArith.
From Stdlib Require QArith.
From stdpp Require Import gmap strings list fin_maps sorting.

Local Open Scope Z_scope.
Local Open Scope nat_scope.
Set Warnings "-clear-no-such-hyp".

(** ** Python string primitives *)

Module Py.

Definition code (c : ascii) : nat := nat_of_ascii c.

(** [str.isspace] on one code point below 256, which is also the class
    [\s] of [re] for [str] patterns. *)
Definition is_space (c : ascii) : bool :=
  let n := code c in
  ((9 <=? n) && (n <=? 13)) || ((28 <=? n) && (n <=? 32))
  || (n =? 133) || (n =? 160).

(** The class [\d]. *)
Definition is_digit (c : ascii) : bool :=
  let n := code c in (48 <=? n) && (n <=? 57).

Definition is_ascii_upper (c : ascii) : bool :=
  let n := code c in (65 <=? n) && (n <=? 90).

Definition is_ascii_lower (c : ascii) : bool :=
  let n := code c in (97 <=? n) && (n <=? 122).

(** The class [\w]: alphanumeric code points and the underscore. *)
Definition is_word (c : ascii) : bool :=
  let n := code c in
  is_digit c || is_ascii_upper c || is_ascii_lower c || (n =? 95)
  || (n =? 170) || (n =? 178) || (n =? 179) || (n =? 181) || (n =? 185)
  || (n =? 186) || ((188 <=? n) && (n <=? 190))
  || ((192 <=? n) && (n <=? 214)) || ((216 <=? n) && (n <=? 246))
  || (248 <=? n).

(** [str.lower] on one code point. *)
Definition lower_char (c : ascii) : ascii :=
  let n := code c in
  if is_ascii_upper c
     || ((192 <=? n) && (n <=? 214)) || ((216 <=? n) && (n <=? 222))
  then ascii_of_nat (n + 32) else c.

Fixpoint lower (s : string) : string :=
  match s with
  | EmptyString => EmptyString
  | String c s' => String (lower_char c) (lower s')
  end.

Fixpoint mem_char (c : ascii) (chars : string) : bool :=
  match chars with
  | EmptyString => false
  | String d chars' => Ascii.eqb c d || mem_char c chars'
  end.

(** [s.lstrip(chars)], [s.rstrip(chars)] and [s.strip(chars)] for a
    predicate on characters. *)
Fixpoint lstrip_with (p : ascii → bool) (s : string) : string :=
  match s with
  | EmptyString => EmptyString
  | String c s' => if p c then lstrip_with p s' else s
  end.

Fixpoint rstrip_with (p : ascii → bool) (s : string) : string :=
  match s with
  | EmptyString => EmptyString
  | String c s' =>
      match rstrip_with p s' with
      | EmptyString => if p c then EmptyString else String c EmptyString
      | r => String c r
      end
  end.

Definition strip_with (p : ascii → bool) (s : string) : string :=
  rstrip_with p (lstrip_with p s).

Definition strip (s : string) : string := strip_with is_space s.
Definition strip_chars (chars s : string) : string :=
  strip_with (fun c => mem_char c chars) s.
Definition rstrip_chars (chars s : string) : string :=
  rstrip_with (fun c => mem_char c chars) s.

Fixpoint startswith (pre s : string) : bool :=
  match pre, s with
  | EmptyString, _ => true
  | String a pre', String b s' => Ascii.eqb a b && startswith pre' s'
  | String _ _, EmptyString => false
  end.

(** [sub in s] for strings. *)
Fixpoint contains (sub s : string) : bool :=
  startswith sub s ||
  match s with
  | EmptyString => false
  | String _ s' => contains sub s'
  end.

Fixpoint drop (n : nat) (s : string) : string :=
  match n, s with
  | O, _ => s
  | S n', String _ s' => drop n' s'
  | S _, EmptyString => EmptyString
  end.

Fixpoint take (n : nat) (s : string) : string :=
  match n, s with
  | S n', String c s' => String c (take n' s')
  | _, _ => EmptyString
  end.

(** [all(p(c) for c in s)]. *)
Fixpoint all_chars (p : ascii → bool) (s : string) : bool :=
  match s with
  | EmptyString => true
  | String c s' => p c && all_chars p s'
  end.

(** [s'] is what remains of [s] after some prefix. *)
Definition suffix_of (s' s : string) : Prop := ∃ pre, s = pre +:+ s'.

(** [x in xs] for a list of strings. *)
Definition in_list (x : string) (xs : list string) : bool :=
  existsb (String.eqb x) xs.

(** Truth value of a [str]. *)
Definition truthy (s : string) : bool :=
  match s with EmptyString => false | _ => true end.

Definition cons_head (c : ascii) (ps : list string) : list string :=
  match ps with
  | [] => [String c EmptyString]
  | p :: ps' => String c p :: ps'
  end.

(** [s.split()]: the maximal runs of non-space characters.
    [words_aux s] is the run starting [s] and the later runs. *)
Fixpoint words_aux (s : string) : string * list string :=
  match s with
  | EmptyString => (EmptyString, [])
  | String c s' =>
      let '(w, ws) := words_aux s' in
      if is_space c then (EmptyString, if truthy w then w :: ws else ws)
      else (String c w, ws)
  end.

Definition split_ws (s : string) : list string :=
  let '(w, ws) := words_aux s in if truthy w then w :: ws else ws.

(** [sep.join(xs)]. *)
Fixpoint join (sep : string) (xs : list string) : string :=
  match xs with
  | [] => EmptyString
  | [x] => x
  | x :: xs' => x +:+ sep +:+ join sep xs'
  end.

(** [s.split(sep, 1)] for a non-empty separator. *)
Fixpoint split_once (sep s : string) : list string :=
  if startswith sep s then [EmptyString; drop (String.length sep) s]
  else
    match s with
    | EmptyString => [EmptyString]
    | String c s' => cons_head c (split_once sep s')
    end.

(** [s.split(sep)] for a non-empty separator; [skip] counts the
    characters of the separator still to be passed over. *)
Fixpoint split_str_from (sep s : string) (skip : nat) : list string :=
  match s with
  | EmptyString => [EmptyString]
  | String c s' =>
      match skip with
      | S n => split_str_from sep s' n
      | O =>
          if startswith sep s
          then EmptyString :: split_str_from sep s' (String.length sep - 1)
          else cons_head c (split_str_from sep s' 0)
      end
  end.

Definition split_str (sep s : string) : list string :=
  split_str_from sep s 0.

(** [s.split(sep)] for a one-character separator. *)
Fixpoint split_char (sep : ascii) (s : string) : list string :=
  match s with
  | EmptyString => [EmptyString]
  | String c s' =>
      if Ascii.eqb c sep then EmptyString :: split_char sep s'
      else cons_head c (split_char sep s')
  end.

(** A name of one word: not empty, and without white space, slash or
    comma. *)
Definition one_word (s : string) : bool :=
  truthy s
  && all_chars (fun c => negb (is_space c || mem_char c "/,")) s.

End Py.

(** ** Regular expressions with the semantics of Python's [re]

    A backtracking matcher in continuation-passing style: alternatives are
    tried in order, [*] is greedy, and the first way of matching that lets
    the continuation succeed is the match [re] reports. The matcher carries
    the character before the current position, for [^] and [\b]. *)

Module Re.

Inductive regex : Type :=
| Eps
| Chr (p : ascii → bool)
| Seq (r1 r2 : regex)
| Alt (r1 r2 : regex)
| Star (r : regex)
| Bol
| Eol
| WordB.

Definition head (s : string) : option ascii :=
  match s with EmptyString => None | String c _ => Some c end.

Definition is_word_opt (c : option ascii) : bool :=
  match c with None => false | Some c => Py.is_word c end.

(** [$] matches at the end and before a final newline. *)
Definition at_end (s : string) : bool :=
  match s with
  | EmptyString => true
  | String c EmptyString => Ascii.eqb c "010"
  | _ => false
  end.

(** The loop of a greedy [r*]: one more round of [body] first, the
    continuation otherwise. A round must consume a character; [fuel]
    bounds the number of rounds by the length of the input. *)
Definition star_loop {A : Type}
    (body : option ascii → string → (option ascii → string → option A)
            → option A)
    (k : option ascii → string → option A)
  : nat → option ascii → string → option A :=
  fix loop (fuel : nat) (prev : option ascii) (s : string) : option A :=
    match fuel with
    | O => k prev s
    | S fuel' =>
        match
          body prev s
            (fun p' s' =>
               if String.length s' <? String.length s
               then loop fuel' p' s' else None)
        with
        | Some x => Some x
        | None => k prev s
        end
    end.

Fixpoint run {A : Type} (r : regex) (prev : option ascii) (s : string)
    (k : option ascii → string → option A) {struct r} : option A :=
  match r with
  | Eps => k prev s
  | Chr p =>
      match s with
      | String c s' => if p c then k (Some c) s' else None
      | EmptyString => None
      end
  | Seq r1 r2 => run r1 prev s (fun p' s' => run r2 p' s' k)
  | Alt r1 r2 =>
      match run r1 prev s k with
      | Some x => Some x
      | None => run r2 prev s k
      end
  | Star r1 =>
      star_loop (fun prev s k' => run r1 prev s k') k (String.length s) prev s
  | Bol => match prev with None => k prev s | Some _ => None end
  | Eol => if at_end s then k prev s else None
  | WordB =>
      if xorb (is_word_opt prev) (is_word_opt (head s))
      then k prev s else None
  end.

(** A matcher that runs its continuation only on what remains of the
    input. *)
Definition runs_on_suffix {A : Type}
    (body : option ascii → string → (option ascii → string → option A)
            → option A) : Prop :=
  ∀ prev s k x,
    body prev s k = Some x →
    ∃ p' s', Py.suffix_of s' s ∧ k p' s' = Some x.

(** Number of characters of the match that starts at the current
    position, if there is one. *)
Definition match_end (r : regex) (prev : option ascii) (s : string)
  : option nat :=
  run r prev s (fun _ s' => Some (String.length s - String.length s')).

(** [re.match(r, s)]: the length of the match at the start of [s]. *)
Definition re_match (r : regex) (s : string) : option nat :=
  match_end r None s.

Definition matches (r : regex) (s : string) : bool :=
  match re_match r s with Some _ => true | None => false end.

(** [re.search(r, s)]: start and length of the leftmost match. *)
Fixpoint search_from (r : regex) (prev : option ascii) (s : string)
    (pos : nat) : option (nat * nat) :=
  match match_end r prev s with
  | Some n => Some (pos, n)
  | None =>
      match s with
      | EmptyString => None
      | String c s' => search_from r (Some c) s' (S pos)
      end
  end.

Definition re_search (r : regex) (s : string) : option (nat * nat) :=
  search_from r None s 0.

Definition group0 (s : string) (m : nat * nat) : string :=
  Py.take (snd m) (Py.drop (fst m) s).

(** [re.sub(r, repl, s)] for a pattern that matches no empty string
    (all patterns of this development consume a character): the
    leftmost non-overlapping matches are replaced. [skip] counts the
    characters of the current match still to be passed over. *)
Fixpoint sub_from (r : regex) (repl : string) (prev : option ascii)
    (s : string) (skip : nat) {struct s} : string :=
  match s with
  | EmptyString => EmptyString
  | String c s' =>
      match skip with
      | S n => sub_from r repl (Some c) s' n
      | O =>
          match match_end r prev s with
          | Some (S n) => repl +:+ sub_from r repl (Some c) s' n
          | _ => String c (sub_from r repl (Some c) s' 0)
          end
      end
  end.

Definition re_sub (r : regex) (repl s : string) : string :=
  sub_from r repl None s 0.

(** [re.split(r, s)] for a pattern without groups that matches no empty
    string. The head of the result is the piece being read. *)
Fixpoint split_from (r : regex) (prev : option ascii) (s : string)
    (skip : nat) {struct s} : list string :=
  match s with
  | EmptyString => [EmptyString]
  | String c s' =>
      match skip with
      | S n => split_from r (Some c) s' n
      | O =>
          match match_end r prev s with
          | Some (S n) => EmptyString :: split_from r (Some c) s' n
          | _ => Py.cons_head c (split_from r (Some c) s' 0)
          end
      end
  end.

Definition re_split (r : regex) (s : string) : list string :=
  split_from r None s 0.

(** *** Pattern syntax *)

Definition chr (c : ascii) : regex := Chr (Ascii.eqb c).
(** A literal character under [re.IGNORECASE]. *)
Definition ichr (c : ascii) : regex :=
  Chr (fun d => Ascii.eqb (Py.lower_char d) (Py.lower_char c)).

Fixpoint lit (s : string) : regex :=
  match s with
  | EmptyString => Eps
  | String c EmptyString => chr c
  | String c s' => Seq (chr c) (lit s')
  end.

Fixpoint ilit (s : string) : regex :=
  match s with
  | EmptyString => Eps
  | String c EmptyString => ichr c
  | String c s' => Seq (ichr c) (ilit s')
  end.

(** [[chars]] and [[^chars]]; [space] adds [\s] to the class. *)
Definition cls (chars : string) : regex :=
  Chr (fun c => Py.mem_char c chars).
Definition ncls (chars : string) : regex :=
  Chr (fun c => negb (Py.mem_char c chars)).
Definition ws : regex := Chr Py.is_space.
Definition digit : regex := Chr Py.is_digit.
(** [.] matches everything but a newline. *)
Definition dot : regex := Chr (fun c => negb (Ascii.eqb c "010")).

Definition plus (r : regex) : regex := Seq r (Star r).
Definition opt (r : regex) : regex := Alt r Eps.

Fixpoint seqs (rs : list regex) : regex :=
  match rs with
  | [] => Eps
  | [r] => r
  | r :: rs' => Seq r (seqs rs')
  end.

Fixpoint alts (rs : list regex) : regex :=
  match rs with
  | [] => Chr (fun _ => false)
  | [r] => r
  | r :: rs' => Alt r (alts rs')
  end.

End Re.

(** ** [tools/llm_parser.py]: the extraction strategy *)

Module LlmParser.
Import Re.

Abbreviation Q := QArith_base.Q.

(** The float literals of the source, as rationals. *)
Definition conf_1_0 : Q := QArith_base.Qmake 1 1.
Definition conf_0_9 : Q := QArith_base.Qmake 9 10.
Definition conf_0_7 : Q := QArith_base.Qmake 7 10.

Record ParsedArtist : Type := {
  name : string;
  is_headliner : bool;
  notes : option string;
  artist_confidence : Q
}.

Record ParseResult : Type := {
  artists : list ParsedArtist;
  is_music_event : bool;
  event_type : string;
  genre : option string;
  ticket_price : option string;
  sold_out : bool;
  confidence : Q;
  needs_review : bool;
  review_reason : option string
}.

(** The decoded JSON reply of the delegated strategy, or the exception
    raised while obtaining it. The request itself is external. *)
Record LlmJson : Type := {
  j_artists : list (string * bool * option string);
  j_genre : option string;
  j_ticket_price : option string;
  j_sold_out : bool;
  j_confidence : Q;
  j_needs_review : bool;
  j_review_reason : option string
}.

Inductive LlmReply : Type :=
| Reply (j : LlmJson)
| Raised (msg : string).

(** The fields of an [ArtistParser] object read by [parse]. *)
Record ArtistParser : Type := {
  use_llm : bool;
  _client : option (string → string → string → LlmReply)
}.

Definition closed_keywords : list string :=
  ["closed for"; "renovation"; "private event"; "flea market";
   "journal jam"; "adult prom"; "fashion show"].

Definition _is_closed_event (text : string) : bool :=
  existsb (fun kw => Py.contains kw text) closed_keywords.

Definition _is_open_mic (text : string) : bool :=
  Py.contains "open-mic" text || Py.contains "open mic" text.

Definition _is_improv (text : string) : bool :=
  Py.contains "thrillionaires" text || Py.contains "improv theater" text.

(** The patterns of [_parse_rules_based] and [_clean_text]. *)
Definition genre_re : regex :=
  seqs [chr "("; plus (ncls ")");
        alts [ilit "rock"; ilit "pop"; ilit "indie"; ilit "folk";
              ilit "punk"; ilit "emo"; ilit "ska"; ilit "blues";
              ilit "acoustic"; ilit "electronic"];
        Star (ncls ")"); chr ")"].

Definition price_re : regex :=
  seqs [chr "$"; plus digit;
        opt (seqs [cls "/-"; opt (chr "$"); plus digit])].

Definition time_prefix_re : regex :=
  seqs [Bol; Star digit; Star ws; digit; opt digit; lit "pm";
        opt (chr "187"); Star ws].

Definition genre_prefix_re : regex :=
  seqs [Bol; chr "("; plus (ncls ")"); chr ")"; Star ws].

Definition price_token_re : regex :=
  seqs [price_re; opt (chr "!"); Star ws].

Definition sold_out_re : regex :=
  seqs [WordB; ilit "SOLD"; Star ws; ilit "OUT"; opt (chr "!"); WordB].

Definition release_re : regex :=
  seqs [WordB; alts [lit "CD"; lit "EP"]; Star ws; cls "Rr"; lit "elease";
        opt (chr "!"); WordB].

Definition touring_re : regex :=
  seqs [chr "("; Star (ncls ")");
        alts [ilit "touring"; ilit "from"; ilit "CA"; ilit "AK"; ilit "NV";
              ilit "SLC"; ilit "ID"; ilit "WA"; ilit "NM"; ilit "NYC"];
        Star (ncls ")"); chr ")"].

Definition formerly_re : regex :=
  seqs [chr "("; ilit "formerly"; plus (ncls ")"); chr ")"].

Definition acoustic_re : regex :=
  seqs [chr "("; ilit "acoustic"; chr ")"].

Definition _clean_text (text : string) : string :=
  let text := re_sub time_prefix_re EmptyString text in
  let text := re_sub genre_prefix_re EmptyString text in
  let text := re_sub price_token_re EmptyString text in
  let text := re_sub sold_out_re EmptyString text in
  let text := re_sub release_re EmptyString text in
  let text := re_sub touring_re EmptyString text in
  let text := re_sub formerly_re EmptyString text in
  let text := re_sub acoustic_re EmptyString text in
  Py.strip text.

(** The separators of [_split_artists]. *)
Definition with_re : regex := seqs [plus ws; ichr "w"; chr "/"; Star ws].
Definition comma_re : regex := seqs [chr ","; Star ws].
Definition and_re : regex := seqs [plus ws; ilit "and"; plus ws].

(** The body of the inner loop of [_split_artists]. *)
Definition split_subpart (subpart : string) : list string :=
  if Py.contains " and " (Py.lower subpart)
     && negb (Py.contains "& the" (Py.lower subpart))
  then re_split and_re subpart
  else [subpart].

Definition _split_artists (text : string) : list string :=
  let parts := re_split with_re text in
  let all_artists :=
    concat (map (fun part =>
                   concat (map split_subpart (re_split comma_re part)))
              parts) in
  map Py.strip (List.filter (fun a => Py.truthy (Py.strip a)) all_artists).

Definition leading_number_re : regex := seqs [Bol; plus digit; Star ws].

Definition quote_chars : string := String "034" (String "039" EmptyString).

Definition _clean_artist_name (name : string) : string :=
  let name := re_sub leading_number_re EmptyString name in
  let name := Py.rstrip_chars ".,;:!" name in
  let name := Py.strip_chars quote_chars name in
  let name := Py.join " " (Py.split_ws name) in
  Py.strip name.

Definition noise_terms : list string :=
  ["etc"; "art"; "old"; "by"; "if"; "er"; "rts"; "sdr"; "ned"; "apt";
   "ben"; "dan"; "reno"; "velour"; "cabaret"; "showcase"; "night";
   "music"; "featuring"; "poetry"; "open-mic"; "acoustic night"].

Definition _is_noise (name : string) : bool :=
  Py.in_list (Py.lower name) noise_terms || (String.length name <? 2).

Definition candidate (i : nat) (raw : string) : option ParsedArtist :=
  let name := _clean_artist_name raw in
  if Py.truthy name && (1 <? String.length name) && negb (_is_noise name)
  then Some {| name := name; is_headliner := (i =? 0); notes := None;
               artist_confidence := conf_0_7 |}
  else None.

(** [for i, name in enumerate(raw_artists)] from index [i]. *)
Fixpoint candidates (i : nat) (raw_artists : list string)
  : list ParsedArtist :=
  match raw_artists with
  | [] => []
  | raw :: rest =>
      match candidate i raw with
      | Some a => a :: candidates (S i) rest
      | None => candidates (S i) rest
      end
  end.

Definition group1 (text : string) (m : nat * nat) : string :=
  Py.take (snd m - 2) (Py.drop (S (fst m)) text).

Definition _parse_rules_based (title description : string) : ParseResult :=
  let text :=
    if Py.truthy description && negb (String.eqb description title)
    then title +:+ " " +:+ description else title in
  let genre := group1 text <$> re_search genre_re text in
  let ticket_price := group0 text <$> re_search price_re text in
  let sold_out := Py.contains "sold out" (Py.lower text) in
  let cleaned := _clean_text text in
  let raw_artists := _split_artists cleaned in
  let artists := candidates 0 raw_artists in
  let '(needs_review, review_reason) :=
    if existsb (fun a => Py.contains "&" (name a)) artists
    then (true, Some "Contains '&' - verify if band name or separator")
    else (false, None) in
  let '(needs_review, review_reason) :=
    if (length artists =? 0) && negb (_is_closed_event (Py.lower text))
    then (true, Some "No artists extracted from apparent music event")
    else (needs_review, review_reason) in
  {| artists := artists; is_music_event := true; event_type := "concert";
     genre := genre; ticket_price := ticket_price; sold_out := sold_out;
     confidence := conf_0_7; needs_review := needs_review;
     review_reason := review_reason |}.

Definition _parse_with_llm (client : string → string → string → LlmReply)
    (title description date : string) : ParseResult :=
  match client title description date with
  | Reply j =>
      {| artists :=
           map (fun '(n, h, nt) =>
                  {| name := n; is_headliner := h; notes := nt;
                     artist_confidence := j_confidence j |})
               (j_artists j);
         is_music_event := true; event_type := "concert";
         genre := j_genre j; ticket_price := j_ticket_price j;
         sold_out := j_sold_out j; confidence := j_confidence j;
         needs_review := j_needs_review j;
         review_reason := j_review_reason j |}
  | Raised msg =>
      let result := _parse_rules_based title description in
      {| artists := artists result;
         is_music_event := is_music_event result;
         event_type := event_type result; genre := genre result;
         ticket_price := ticket_price result; sold_out := sold_out result;
         confidence := confidence result; needs_review := true;
         review_reason := Some ("LLM parsing failed: " +:+ msg) |}
  end.

(** A [ParseResult] built with the defaults of the dataclass. *)
Definition short_circuit (music : bool) (type : string) (conf : Q)
  : ParseResult :=
  {| artists := []; is_music_event := music; event_type := type;
     genre := None; ticket_price := None; sold_out := false;
     confidence := conf; needs_review := false; review_reason := None |}.

(** [f"{title} {description}".lower()]. *)
Definition text_lower (title description : string) : string :=
  Py.lower (title +:+ " " +:+ description).

Definition parse (self : ArtistParser) (title description date : string)
  : ParseResult :=
  let text_lower := text_lower title description in
  if _is_closed_event text_lower then short_circuit false "closed" conf_1_0
  else if _is_open_mic text_lower then short_circuit true "open_mic" conf_1_0
  else if _is_improv text_lower then short_circuit true "improv" conf_0_9
  else
    match use_llm self, _client self with
    | true, Some client => _parse_with_llm client title description date
    | _, _ => _parse_rules_based title description
    end.

(** [ArtistParser(use_llm=False)]. *)
Definition rule_based : ArtistParser :=
  {| use_llm := false; _client := None |}.

(** The keywords that [parse] tests, in the order of its three tests. *)
Definition parse_keywords : list string :=
  closed_keywords ++ ["open-mic"; "open mic"]
  ++ ["thrillionaires"; "improv theater"].

End LlmParser.

(** ** [tools/data_model.py]: entities, shows and the [DataStore]

    The records keep the fields the resolver and the merge read or write;
    the remaining payload (links, notes, media, timestamps) is carried
    along unchanged by every operation and is left out. An [Artist]'s [id]
    is the [uuid4] string drawn when the object is built; operations that
    build an artist take it as the argument [fresh]. *)

Module DataModel.

Record Artist : Type := {
  a_id : string;
  a_name : string;
  a_aliases : list string
}.

Record ShowArtist : Type := {
  artist_id : string;
  billing_order : Z;
  is_headliner : bool;
  set_notes : option string
}.

Record Show : Type := {
  s_id : string;
  s_date : option string;
  s_title : string;
  s_artists : list ShowArtist
}.

(** [dict[str, Artist]] in insertion order, keyed by the artist's id. *)
Fixpoint artists_set (a : Artist) (d : list Artist) : list Artist :=
  match d with
  | [] => [a]
  | b :: d' =>
      if String.eqb (a_id b) (a_id a) then a :: d'
      else b :: artists_set a d'
  end.

Definition artists_get (i : string) (d : list Artist) : option Artist :=
  List.find (fun b => String.eqb (a_id b) i) d.

(** [del d[i]]; [None] stands for the [KeyError]. *)
Definition artists_del (i : string) (d : list Artist)
  : option (list Artist) :=
  match artists_get i d with
  | Some _ => Some (List.filter (fun b => negb (String.eqb (a_id b) i)) d)
  | None => None
  end.

Fixpoint shows_set (sh : Show) (d : list Show) : list Show :=
  match d with
  | [] => [sh]
  | b :: d' =>
      if String.eqb (s_id b) (s_id sh) then sh :: d'
      else b :: shows_set sh d'
  end.

Record DataStore : Type := {
  _artists : list Artist;
  _shows : list Show;
  _artist_index : gmap string string
}.

Definition empty_store : DataStore :=
  {| _artists := []; _shows := []; _artist_index := ∅ |}.

Definition _normalize_name (name : string) : string :=
  Py.strip (Py.lower name).

(** The normalization keys of an entity: of its name and of each alias. *)
Definition artist_keys (artist : Artist) : list string :=
  _normalize_name (a_name artist) :: map _normalize_name (a_aliases artist).

(** The index entries written for one artist: the name, then each alias. *)
Definition index_artist (idx : gmap string string) (artist : Artist)
  : gmap string string :=
  foldl (fun idx alias => <[_normalize_name alias := a_id artist]> idx)
        (<[_normalize_name (a_name artist) := a_id artist]> idx)
        (a_aliases artist).

Definition rebuild (artists : list Artist) : gmap string string :=
  foldl index_artist ∅ artists.

Definition _rebuild_index (self : DataStore) : DataStore :=
  {| _artists := _artists self; _shows := _shows self;
     _artist_index := rebuild (_artists self) |}.

Definition add_artist (self : DataStore) (artist : Artist) : DataStore :=
  {| _artists := artists_set artist (_artists self);
     _shows := _shows self;
     _artist_index := index_artist (_artist_index self) artist |}.

Definition get_artist (self : DataStore) (artist_id : string)
  : option Artist :=
  artists_get artist_id (_artists self).

Definition find_artist_by_name (self : DataStore) (name : string)
  : option Artist :=
  match _artist_index self !! _normalize_name name with
  | Some artist_id =>
      if Py.truthy artist_id then artists_get artist_id (_artists self)
      else None
  | None => None
  end.

(** The first alias, in order, that [find_artist_by_name] resolves. *)
Fixpoint first_alias_hit (self : DataStore) (aliases : list string)
  : option Artist :=
  match aliases with
  | [] => None
  | alias :: rest =>
      match find_artist_by_name self alias with
      | Some artist => Some artist
      | None => first_alias_hit self rest
      end
  end.

Definition get_or_create_artist (self : DataStore) (name : string)
    (aliases : option (list string)) (fresh : string)
  : Artist * DataStore :=
  match find_artist_by_name self name with
  | Some artist => (artist, self)
  | None =>
      match first_alias_hit self (default [] aliases) with
      | Some artist =>
          if negb (Py.in_list name (a_aliases artist))
             && negb (String.eqb name (a_name artist))
          then
            let artist' :=
              {| a_id := a_id artist; a_name := a_name artist;
                 a_aliases := a_aliases artist ++ [name] |} in
            (artist',
             {| _artists := artists_set artist' (_artists self);
                _shows := _shows self;
                _artist_index :=
                  <[_normalize_name name := a_id artist]>
                    (_artist_index self) |})
          else (artist, self)
      | None =>
          let artist :=
            {| a_id := fresh; a_name := name;
               a_aliases := default [] aliases |} in
          (artist, add_artist self artist)
      end
  end.

Definition update_artist (self : DataStore) (artist : Artist) : DataStore :=
  {| _artists := artists_set artist (_artists self);
     _shows := _shows self;
     _artist_index := rebuild (artists_set artist (_artists self)) |}.

Definition update_show (self : DataStore) (show : Show) : DataStore :=
  {| _artists := _artists self;
     _shows := shows_set show (_shows self);
     _artist_index := _artist_index self |}.

(** *** Classification utilities *)

Definition NON_MUSIC_KEYWORDS : list string :=
  ["closed"; "renovation"; "private event"; "flea market";
   "journal jam"; "adult prom"; "fashion show"].

Definition OPEN_MIC_KEYWORDS : list string :=
  ["open-mic"; "open mic"; "acoustic night"].

Definition IMPROV_KEYWORDS : list string :=
  ["thrillionaires"; "improv theater"; "improv"].

Definition any_keyword (keywords : list string) (text : string) : bool :=
  existsb (fun keyword => Py.contains keyword text) keywords.

Definition classify_event_type (title description : string)
  : bool * string :=
  let text := Py.lower (title +:+ " " +:+ description) in
  if any_keyword NON_MUSIC_KEYWORDS text
  then (false, if Py.contains "closed" text then "closed" else "other")
  else if any_keyword OPEN_MIC_KEYWORDS text then (true, "open_mic")
  else if any_keyword IMPROV_KEYWORDS text then (true, "improv")
  else (true, "concert").

(** *** Show operations and artist connections *)

Definition add_show (self : DataStore) (show : Show) : DataStore :=
  {| _artists := _artists self;
     _shows := shows_set show (_shows self);
     _artist_index := _artist_index self |}.

Definition get_show (self : DataStore) (show_id : string) : option Show :=
  List.find (fun b => String.eqb (s_id b) show_id) (_shows self).

Definition find_shows_by_date (self : DataStore) (date_str : string)
  : list Show :=
  List.filter (fun s => bool_decide (s_date s = Some date_str)) (_shows self).

(** [[a.artist_id for a in show.artists]]. *)
Definition artist_ids (show : Show) : list string :=
  map artist_id (s_artists show).

(** The inner loop of [get_artist_connections] over the ids of one show. *)
Definition count_others (i : string) (connections : gmap string Z)
    (ids : list string) : gmap string Z :=
  foldl (fun connections other_id =>
           if negb (String.eqb other_id i)
           then <[other_id := (default 0 (connections !! other_id) + 1)%Z]>
                  connections
           else connections)
        connections ids.

Definition get_artist_connections (self : DataStore) (i : string)
  : gmap string Z :=
  foldl (fun connections show =>
           if Py.in_list i (artist_ids show)
           then count_others i connections (artist_ids show)
           else connections)
        ∅ (_shows self).

Definition plays (i : string) (show : Show) : bool :=
  existsb (fun a => String.eqb (artist_id a) i) (s_artists show).

Definition get_artist_show_count (self : DataStore) (i : string) : nat :=
  length (List.filter (plays i) (_shows self)).

End DataModel.

(** ** [tools/admin_server.py]: the merge endpoint *)

Module AdminServer.
Import DataModel.

(** What the request handler answers. [KeyError] is the exception that
    [del store._artists[artist.id]] raises for an id already deleted. *)
Inductive Response : Type :=
| BadRequest
| PrimaryNotFound
| ArtistNotFound (artist_id : string)
| Success (updated_shows merged_count : nat) (primary : Artist)
| KeyError (artist_id : string).

(** The order of [str]: lexicographic on code points. *)
Definition str_le (a b : string) : Prop := String.leb a b = true.

#[local] Instance str_le_dec : RelDecision str_le.
Proof. intros a b. unfold str_le. apply _. Defined.

(** [sorted(list(s))] for a set of strings. *)
Definition sorted_set (s : gset string) : list string :=
  merge_sort str_le (elements s).

(** The loop that fetches the artists to merge; the first unknown id
    aborts it. *)
Fixpoint lookup_all (store : DataStore) (merge_ids : list string)
  : string + list Artist :=
  match merge_ids with
  | [] => inr []
  | artist_id :: rest =>
      match get_artist store artist_id with
      | None => inl artist_id
      | Some artist =>
          match lookup_all store rest with
          | inl missing => inl missing
          | inr found => inr (artist :: found)
          end
      end
  end.

Definition collect_aliases (primary : Artist) (merge_artists : list Artist)
  : gset string :=
  let all_aliases :=
    foldl (fun acc artist =>
             (acc ∪ {[a_name artist]}) ∪ list_to_set (a_aliases artist))
          (list_to_set (a_aliases primary)) merge_artists in
  all_aliases ∖ {[a_name primary]}.

Definition repoint (primary_id : string) (merge_ids : list string)
    (sa : ShowArtist) : ShowArtist :=
  if Py.in_list (artist_id sa) merge_ids
  then {| artist_id := primary_id; billing_order := billing_order sa;
          is_headliner := is_headliner sa; set_notes := set_notes sa |}
  else sa.

Definition show_touched (merge_ids : list string) (show : Show) : bool :=
  existsb (fun sa => Py.in_list (artist_id sa) merge_ids) (s_artists show).

Definition repoint_show (primary_id : string) (merge_ids : list string)
    (show : Show) : Show :=
  {| s_id := s_id show; s_date := s_date show; s_title := s_title show;
     s_artists := map (repoint primary_id merge_ids) (s_artists show) |}.

(** The loop over [store.all_shows()]. Each show is rewritten on its own,
    so the date order in which the source visits them is not observable. *)
Definition repoint_shows (store : DataStore) (primary_id : string)
    (merge_ids : list string) : DataStore * nat :=
  foldl (fun '(st, updated_count) show =>
           if show_touched merge_ids show
           then (update_show st (repoint_show primary_id merge_ids show),
                 S updated_count)
           else (st, updated_count))
        (store, 0) (_shows store).

(** [for artist in merge_artists: del store._artists[artist.id]]. *)
Fixpoint delete_all (artists : list Artist) (merge_artists : list Artist)
  : list Artist * option string :=
  match merge_artists with
  | [] => (artists, None)
  | artist :: rest =>
      match artists_del (a_id artist) artists with
      | None => (artists, Some (a_id artist))
      | Some artists' => delete_all artists' rest
      end
  end.

Definition merge_artists (store : DataStore) (primary_id : option string)
    (merge_ids : list string) : Response * DataStore :=
  match primary_id, merge_ids with
  | None, _ | _, [] => (BadRequest, store)
  | Some primary_id, _ :: _ =>
      if negb (Py.truthy primary_id) then (BadRequest, store) else
      match get_artist store primary_id with
      | None => (PrimaryNotFound, store)
      | Some primary =>
          match lookup_all store merge_ids with
          | inl missing => (ArtistNotFound missing, store)
          | inr merge_artists =>
              let primary :=
                {| a_id := a_id primary; a_name := a_name primary;
                   a_aliases :=
                     sorted_set (collect_aliases primary merge_artists) |} in
              let store :=
                {| _artists := artists_set primary (_artists store);
                   _shows := _shows store;
                   _artist_index := _artist_index store |} in
              let '(store, updated_count) :=
                repoint_shows store primary_id merge_ids in
              let store := update_artist store primary in
              match delete_all (_artists store) merge_artists with
              | (artists, Some gone) =>
                  (KeyError gone,
                   {| _artists := artists; _shows := _shows store;
                      _artist_index := _artist_index store |})
              | (artists, None) =>
                  let store :=
                    _rebuild_index
                      {| _artists := artists; _shows := _shows store;
                         _artist_index := _artist_index store |} in
                  (Success updated_count (length merge_artists) primary,
                   store)
              end
          end
      end
  end.

(** The answers that reject the request. *)
Definition rejected (r : Response) : Prop :=
  match r with
  | BadRequest | PrimaryNotFound | ArtistNotFound _ => True
  | Success _ _ _ | KeyError _ => False
  end.

End AdminServer.

(** ** Histories of the resolver

    The mutations of the name index: [add_artist], [get_or_create_artist],
    [update_artist] and the merge endpoint. [add_artist] and
    [update_artist] check nothing; a history is called guarded when they
    are only given an artist none of whose keys belongs to another live
    entity, [add_artist] under a new id, and when every id is a non-empty
    string, as the [uuid4] strings are. *)

Module Resolver.
Import DataModel AdminServer.

(** No two live entities share a normalization key. *)
Definition keys_distinct (artists : list Artist) : Prop :=
  ∀ a b k,
    a ∈ artists → b ∈ artists →
    k ∈ artist_keys a → k ∈ artist_keys b → a_id a = a_id b.

(** Some key of [artist] belongs to a live entity with another id. *)
Definition owned_elsewhere (self : DataStore) (artist : Artist) : Prop :=
  ∃ b k, b ∈ _artists self ∧ a_id b ≠ a_id artist
         ∧ k ∈ artist_keys artist ∧ k ∈ artist_keys b.

Inductive step : DataStore → DataStore → Prop :=
| step_add self artist :
    Py.truthy (a_id artist) = true →
    get_artist self (a_id artist) = None →
    ¬ owned_elsewhere self artist →
    step self (add_artist self artist)
| step_get_or_create self name aliases fresh :
    Py.truthy fresh = true →
    get_artist self fresh = None →
    step self (snd (get_or_create_artist self name aliases fresh))
| step_update self artist :
    Py.truthy (a_id artist) = true →
    ¬ owned_elsewhere self artist →
    step self (update_artist self artist)
| step_merge self primary_id merge_ids response self' :
    merge_artists self primary_id merge_ids = (response, self') →
    (∀ i, response ≠ KeyError i) →
    step self self'.

Inductive reachable : DataStore → Prop :=
| reachable_empty : reachable empty_store
| reachable_step self self' :
    reachable self → step self self' → reachable self'.

(** The invariant carried along a guarded history. *)
Definition consistent (self : DataStore) : Prop :=
  NoDup (map a_id (_artists self))
  ∧ (∀ a, a ∈ _artists self → Py.truthy (a_id a) = true)
  ∧ keys_distinct (_artists self)
  ∧ _artist_index self = rebuild (_artists self).

End Resolver.

(** ** [scripts/parse_artists_network.py]: the co-occurrence graph builder *)

Module Network.
Import Re.

(** A show record of the exported JSON, with the keys the builder reads;
    [None] is a missing or null key. The values are strings: an ['artists']
    key holding a JSON list, which the source would read through [str()],
    is outside the model. *)
Record RawShow : Type := {
  date : option string;
  title : option string;
  artists : option string;
  description : option string
}.

Definition get (field : option string) : string := default EmptyString field.

Definition any_in (words : list string) (text : string) : bool :=
  existsb (fun w => Py.contains w text) words.

Definition list_sep_re : regex :=
  alts [seqs [chr ","; Star ws];
        seqs [plus ws; lit "and"; plus ws];
        seqs [plus ws; chr "&"; plus ws]].

Definition parse_part (part : string) : list string :=
  let part := Py.strip part in
  if Py.truthy part then
    if Py.contains " & " part && negb (Py.contains "," part)
    then List.filter Py.truthy (map Py.strip (Py.split_str " & " part))
    else [part]
  else [].

Definition _parse_artist_string (artist_string : string) : list string :=
  if negb (Py.truthy artist_string)
     || Py.in_list (Py.lower artist_string) ["none"; "null"; EmptyString]
  then []
  else concat (map parse_part (re_split list_sep_re artist_string)).

Definition paren_re (word : string) : regex :=
  seqs [Star ws; chr "("; Star (ncls ")"); ilit word; Star (ncls ")");
        chr ")"].

Definition any_paren_re : regex :=
  seqs [Star ws; chr "("; Star (ncls ")"); chr ")"].

(** [_clean_artist_name] up to its rejection tests. *)
Definition tidy_artist_name (name : string) : string :=
  let name := Py.strip name in
  let name := re_sub (paren_re "formerly") EmptyString name in
  let name := re_sub (paren_re "from") EmptyString name in
  let name := re_sub (paren_re "cd release") EmptyString name in
  let name := re_sub any_paren_re EmptyString name in
  let name :=
    Py.strip (Py.strip_chars (String "039" EmptyString)
                (Py.strip_chars (String "034" EmptyString) name)) in
  let name := Py.rstrip_chars ".,;:" name in
  Py.strip (re_sub (plus ws) " " name).

Definition metadata_names : list string :=
  ["none"; "null"; "tba"; "tbd"; "art"; "poetry"; "music"; "featuring"].

Definition generic_terms : list string :=
  ["cabaret"; "velour"; "showcase"; "night"; "release"; "cd"; "ep"].

Definition _clean_artist_name (name : string) : string :=
  if negb (Py.truthy name) then EmptyString else
  let name := tidy_artist_name name in
  if String.length name <? 2 then EmptyString
  else if Py.in_list (Py.lower name) metadata_names then EmptyString
  else if any_in generic_terms (Py.lower name) then EmptyString
  else name.

Definition all_digits_re : regex := seqs [Bol; plus digit; Eol].
Definition weekday_re : regex :=
  seqs [Bol;
        alts [ilit "Mon"; ilit "Tue"; ilit "Wed"; ilit "Thu"; ilit "Fri";
              ilit "Sat"; ilit "Sun"];
        Eol].
Definition genre_prefix_re : regex :=
  seqs [Bol; chr "("; plus (ncls ")"); chr ")"; Star ws].
Definition pm_prefix_re : regex :=
  seqs [Bol; plus digit; lit "pm";
        Star (Chr (fun c => Ascii.eqb c "187" || Py.is_space c))].

(** The branch shared by the title and the description: a headliner
    before [" w/ "] and a list after it. *)
Definition headliner_and_openers (text : string) : list string :=
  match Py.split_once " w/ " text with
  | head :: rest =>
      let headliner := _clean_artist_name (Py.strip head) in
      (if Py.truthy headliner then [headliner] else [])
      ++ match rest with
         | tail :: _ => _parse_artist_string tail
         | [] => []
         end
  | [] => []
  end.

Definition from_title (title_field : string) : list string :=
  if matches all_digits_re (Py.strip title_field)
     || matches weekday_re (Py.strip title_field)
  then []
  else
    let title_clean := re_sub genre_prefix_re EmptyString title_field in
    let title_clean := re_sub pm_prefix_re EmptyString title_clean in
    let title_clean :=
      Py.strip (Py.strip_chars (String "034" EmptyString) title_clean) in
    if any_in ["cabaret"; "showcase"; "acoustic showcase"]
         (Py.lower title_clean)
    then []
    else if negb (Py.contains " w/ " title_clean)
            && Py.contains "," title_clean
    then _parse_artist_string title_clean
    else if Py.contains " w/ " title_clean
    then headliner_and_openers title_clean
    else [].

Definition from_description (desc : string) : list string :=
  let desc_clean := re_sub genre_prefix_re EmptyString desc in
  let desc_clean := re_sub pm_prefix_re EmptyString desc_clean in
  if Py.contains " w/ " desc_clean then headliner_and_openers desc_clean
  else if Py.contains "," desc_clean then _parse_artist_string desc_clean
  else [].

(** The builder's state: the four dictionaries of [ArtistParser]. *)
Record State : Type := {
  unique_artists : gset string;
  artist_shows : gmap string (list RawShow);
  artist_connections : gmap (string * string) Z;
  normalized_artists : gmap string string
}.

Definition initial : State :=
  {| unique_artists := ∅; artist_shows := ∅; artist_connections := ∅;
     normalized_artists := ∅ |}.

Definition normalize (name : string) : string := Py.strip (Py.lower name).

Definition normalize_artist_name (self : State) (name : string)
  : string * State :=
  let normalized := normalize name in
  (normalized,
   match normalized_artists self !! normalized with
   | Some _ => self
   | None =>
       {| unique_artists := unique_artists self;
          artist_shows := artist_shows self;
          artist_connections := artist_connections self;
          normalized_artists :=
            <[normalized := name]> (normalized_artists self) |}
   end).

(** [tuple(sorted([norm1, norm2]))]. *)
Definition sorted_pair (norm1 norm2 : string) : string * string :=
  if String.ltb norm2 norm1 then (norm2, norm1) else (norm1, norm2).

(** The pairs visited by
    [for i, artist1 in enumerate(artists): for artist2 in artists[i+1:]]. *)
Fixpoint later_pairs (artists : list string) : list (string * string) :=
  match artists with
  | [] => []
  | artist1 :: rest => map (pair artist1) rest ++ later_pairs rest
  end.

Definition track (show : RawShow) (self : State) (artist : string) : State :=
  let '(normalized, self) := normalize_artist_name self artist in
  {| unique_artists := unique_artists self ∪ {[normalized]};
     artist_shows :=
       <[normalized := default [] (artist_shows self !! normalized) ++ [show]]>
         (artist_shows self);
     artist_connections := artist_connections self;
     normalized_artists := normalized_artists self |}.

Definition connect (self : State) (p : string * string) : State :=
  let '(norm1, self) := normalize_artist_name self (fst p) in
  let '(norm2, self) := normalize_artist_name self (snd p) in
  let pair := sorted_pair norm1 norm2 in
  {| unique_artists := unique_artists self;
     artist_shows := artist_shows self;
     artist_connections :=
       <[pair := (default 0 (artist_connections self !! pair) + 1)%Z]>
         (artist_connections self);
     normalized_artists := normalized_artists self |}.

Section Builder.

(** The order in which [list(set(xs))] lists the distinct elements of
    [xs]; Python leaves it unspecified. *)
Variable set_order : list string → list string.

Definition extract_artists_from_show (show : RawShow) : list string :=
  if negb (Py.truthy (get (date show))) || negb (Py.truthy (get (title show)))
  then []
  else if any_in ["open-mic"; "open mic"; "prom"; "dance"; "festival"]
            (Py.lower (get (title show)))
  then []
  else
    let artists :=
      (if Py.truthy (get (artists show))
       then _parse_artist_string (get (artists show)) else [])
      ++ from_title (get (title show)) in
    let artists :=
      match artists with
      | [] =>
          if Py.truthy (get (description show))
          then from_description (get (description show)) else []
      | _ => artists
      end in
    let cleaned_artists :=
      List.filter (fun cleaned => Py.truthy cleaned
                                  && (1 <? String.length cleaned))
        (map _clean_artist_name artists) in
    set_order cleaned_artists.

Definition process_show (self : State) (show : RawShow) : State :=
  let artists := extract_artists_from_show show in
  match artists with
  | [] => self
  | _ =>
      let self := foldl (track show) self artists in
      if 1 <? length artists
      then foldl connect self (later_pairs artists)
      else self
  end.

Definition process_all_shows (all_shows : list RawShow) : State :=
  foldl process_show initial all_shows.

End Builder.

(** Every key of [artist_connections] is in sorted order. *)
Definition keys_sorted (st : State) : Prop :=
  ∀ k, is_Some (artist_connections st !! k) →
       String.ltb (snd k) (fst k) = false.

(** What the four dictionaries satisfy together: a connection joins two
    known artists and was counted at least once; a display name is stored
    under its own normalization; a known artist has a display name and at
    least one show. *)
Definition well_formed (st : State) : Prop :=
  (∀ k, is_Some (artist_connections st !! k) →
        fst k ∈ unique_artists st ∧ snd k ∈ unique_artists st)
  ∧ (∀ k n, artist_connections st !! k = Some n → (1 ≤ n)%Z)
  ∧ (∀ n display, normalized_artists st !! n = Some display →
                  normalize display = n)
  ∧ (∀ n, n ∈ unique_artists st →
          is_Some (normalized_artists st !! n)
          ∧ ∃ shows, artist_shows st !! n = Some shows ∧ shows ≠ []).

(** An edge record of [create_network_data]. *)
Record Edge : Type := {
  source : string;
  target : string;
  weight : Z;
  shows_together : Z
}.

(** The edges of [create_network_data], one for each pair the map counts.
    The source appends them in the order the pairs were first counted; the
    list here follows the order of the map's keys, so it is a permutation
    of the source's list, with the same edges. *)
Definition edges_of (self : State) : list Edge :=
  map (fun '((artist1, artist2), count) =>
         {| source := artist1; target := artist2; weight := count;
            shows_together := count |})
      (map_to_list (artist_connections self)).

End Network.

(** ** [scripts/update_network_from_edits.py]: re-pointing the graph after
       edits and merges *)

Module NetworkEdits.

(** A show attached to an edge by [enhance_network_with_shows.py]. *)
Record ShowRef : Type := {
  sr_date : string;
  sr_title : string;
  sr_genre : string;
  sr_description : string
}.

(** An edge of the network JSON. The keys ['shows'] and ['total_shows']
    exist only in the enhanced network. *)
Record Edge : Type := {
  source : string;
  target : string;
  weight : Z;
  shows_together : Z;
  shows : option (list ShowRef);
  total_shows : option Z
}.

Record Node : Type := {
  id : string;
  label : string;
  size : Z;
  node_shows : Z
}.

(** A row of the edited artists CSV, with the columns that are read. *)
Record ArtistRow : Type := {
  artist_name : string;
  row_total_shows : Z
}.

(** An entry of the changes log, by its ['type']. *)
Inductive Change : Type :=
| Edit (original_normalized updated_normalized : string)
| Merge (source_normalized target_normalized : string)
| OtherChange.

Definition add_mapping (name_mapping : gmap string string) (change : Change)
  : gmap string string :=
  match change with
  | Edit old_normalized new_normalized =>
      if negb (String.eqb old_normalized new_normalized)
      then <[old_normalized := new_normalized]> name_mapping
      else name_mapping
  | Merge source_normalized target_normalized =>
      <[source_normalized := target_normalized]> name_mapping
  | OtherChange => name_mapping
  end.

Definition build_mapping (changes : list Change) : gmap string string :=
  foldl add_mapping ∅ changes.

Definition update_node (artists_map : gmap string ArtistRow) (node : Node)
  : Node :=
  match artists_map !! id node with
  | Some artist =>
      {| id := id node; label := artist_name artist;
         size := row_total_shows artist;
         node_shows := row_total_shows artist |}
  | None => node
  end.

(** The node loop: the updated nodes and [nodes_to_remove]. *)
Definition update_nodes (name_mapping : gmap string string)
    (artists_map : gmap string ArtistRow) (nodes : list Node)
  : list Node * gset string :=
  foldl (fun '(updated_nodes, nodes_to_remove) node =>
           match name_mapping !! id node with
           | Some _ => (updated_nodes, nodes_to_remove ∪ {[id node]})
           | None =>
               (updated_nodes ++ [update_node artists_map node],
                nodes_to_remove)
           end)
        ([], ∅) nodes.

Definition rename (name_mapping : gmap string string) (n : string) : string :=
  default n (name_mapping !! n).

Definition set_ends (edge : Edge) (s t : string) : Edge :=
  {| source := s; target := t; weight := weight edge;
     shows_together := shows_together edge; shows := shows edge;
     total_shows := total_shows edge |}.

(** The edge loop: re-point both ends, drop self-loops and edges that
    still touch a removed node. *)
Definition update_edges (name_mapping : gmap string string)
    (nodes_to_remove : gset string) (edges : list Edge) : list Edge :=
  foldl (fun updated_edges edge =>
           let s := rename name_mapping (source edge) in
           let t := rename name_mapping (target edge) in
           if String.eqb s t then updated_edges
           else if bool_decide (s ∈ nodes_to_remove)
                   || bool_decide (t ∈ nodes_to_remove)
           then updated_edges
           else updated_edges ++ [set_ends edge s t])
        [] edges.

(** [tuple(sorted([edge['source'], edge['target']]))]. *)
Definition edge_key (edge : Edge) : string * string :=
  Network.sorted_pair (source edge) (target edge).

(** The [else] branch of the duplicate loop, on the edge already kept. *)
Definition combine (existing edge : Edge) : Edge :=
  match shows edge, shows existing with
  | Some more, Some kept =>
      let n := Z.of_nat (length (kept ++ more)) in
      {| source := source existing; target := target existing;
         weight := n; shows_together := n;
         shows := Some (kept ++ more); total_shows := Some n |}
  | _, _ => existing
  end.

(** [existing = next(e for e in final_edges if key(e) == edge_key)],
    updated in place. *)
Fixpoint merge_into (edge : Edge) (final_edges : list Edge) : list Edge :=
  match final_edges with
  | [] => []
  | e :: rest =>
      if bool_decide (edge_key e = edge_key edge)
      then combine e edge :: rest
      else e :: merge_into edge rest
  end.

Definition dedup_step (st : gset (string * string) * list Edge) (edge : Edge)
  : gset (string * string) * list Edge :=
  let '(seen_edges, final_edges) := st in
  if bool_decide (edge_key edge ∈ seen_edges)
  then (seen_edges, merge_into edge final_edges)
  else (seen_edges ∪ {[edge_key edge]}, final_edges ++ [edge]).

Definition remove_duplicate_edges (updated_edges : list Edge) : list Edge :=
  snd (foldl dedup_step (∅, []) updated_edges).

(** The edges of [es] with the key [k], and the shows attached to them,
    in the order of [es]. *)
Definition same_key (k : string * string) (es : list Edge) : list Edge :=
  filter (fun e => edge_key e = k) es.

Definition shows_for (k : string * string) (es : list Edge) : list ShowRef :=
  concat (map (fun e => default [] (shows e)) (same_key k es)).

(** What the duplicate loop has built after the edges [es], when all of
    them carry a show list. *)
Definition dedup_inv (es : list Edge)
    (st : gset (string * string) * list Edge) : Prop :=
  (∀ k, k ∈ st.1 ↔ k ∈ map edge_key st.2)
  ∧ NoDup (map edge_key st.2)
  ∧ (∀ e, e ∈ es → edge_key e ∈ map edge_key st.2)
  ∧ (∀ e', e' ∈ st.2 → ∃ e, e ∈ es ∧ edge_key e = edge_key e')
  ∧ (∀ e', e' ∈ st.2 →
       shows e' = Some (shows_for (edge_key e') es)
       ∧ (2 ≤ length (same_key (edge_key e') es) →
          weight e' = Z.of_nat (length (shows_for (edge_key e') es)))).

Record NetworkData : Type := {
  nodes : list Node;
  edges : list Edge
}.

Definition update_network_data (network_data : NetworkData)
    (artists_map : gmap string ArtistRow) (changes : list Change)
  : NetworkData :=
  let name_mapping := build_mapping changes in
  let '(updated_nodes, nodes_to_remove) :=
    update_nodes name_mapping artists_map (nodes network_data) in
  let updated_edges :=
    update_edges name_mapping nodes_to_remove (edges network_data) in
  {| nodes := updated_nodes;
     edges := remove_duplicate_edges updated_edges |}.

End NetworkEdits.

(** ** [scripts/fix_w_artists.py]: splitting names that contain ["w/"] *)

Module FixW.
Import Re.

Definition junk_chars : string :=
  String "034" (String "039" ",$*!()").

Definition junk : regex :=
  Chr (fun c => Py.mem_char c junk_chars || Py.is_space c).

Definition quote : regex :=
  Chr (fun c => Py.mem_char c (String "034" (String "039" EmptyString))).

Definition leading_with_re : regex :=
  seqs [Bol; Star ws; ichr "w"; chr "/"; Star ws].

Definition with_re : regex :=
  alts [seqs [plus ws; ichr "w"; chr "/"; plus ws];
        seqs [plus ws; ichr "w"; chr "/"];
        seqs [ichr "w"; chr "/"; plus ws];
        seqs [ichr "w"; chr "/"]].

Definition edge_junk_re : regex :=
  alts [seqs [Bol; plus junk]; seqs [plus junk; Eol]].

Definition metadata_re : regex :=
  alts [seqs [chr "$"; plus digit]; ilit "SOLD OUT"; ilit "sold out"].

Definition price_tail_re : regex :=
  seqs [Star ws; chr "$"; plus digit; Star dot; Eol].

Definition sold_out_tail_re : regex :=
  seqs [Star ws; opt (chr "*"); Star ws; ilit "SOLD OUT"; Star dot; Eol].

Definition edge_quotes_re : regex :=
  alts [seqs [Bol; plus quote]; seqs [plus quote; Eol]].

Definition double_quotes_re : regex :=
  seqs [chr "034"; plus (chr "034")].

Definition no_alnum_re : regex :=
  seqs [Bol;
        plus (Chr (fun c => negb (Py.is_ascii_lower c || Py.is_ascii_upper c
                                  || Py.is_digit c)));
        Eol].

(** The body of the loop over the parts; [None] when the part is dropped. *)
Definition clean_part (part : string) : option string :=
  let part := Py.strip part in
  let part := re_sub edge_junk_re EmptyString part in
  let part := Py.strip (re_sub (plus ws) " " part) in
  let part :=
    match re_search metadata_re part with
    | Some _ =>
        Py.strip (re_sub sold_out_tail_re EmptyString
                    (re_sub price_tail_re EmptyString part))
    | None => part
    end in
  let part := re_sub edge_quotes_re EmptyString part in
  let part := re_sub double_quotes_re " " part in
  let part := Py.strip (re_sub (plus ws) " " part) in
  if Py.truthy part && (1 <? String.length part)
     && negb (matches no_alnum_re part)
  then Some part else None.

Definition split_artist_name (name : string) : option (list string) :=
  if matches leading_with_re name then None
  else
    let parts := re_split with_re name in
    if 1 <? length parts then
      let cleaned_parts := omap clean_part parts in
      if 1 <? length cleaned_parts then Some cleaned_parts else None
    else None.

Definition normalize_name (name : string) : string :=
  Py.strip (Py.lower name).

(** The edge part of [update_network_file]: edges touching a removed node
    are dropped, the others re-pointed, and of the edges with one key the
    first is kept. *)
Definition repoint_edges (name_mapping : gmap string string)
    (nodes_to_remove : gset string) (edges : list NetworkEdits.Edge)
  : list NetworkEdits.Edge :=
  foldl (fun updated_edges edge =>
           if bool_decide (NetworkEdits.source edge ∈ nodes_to_remove)
              || bool_decide (NetworkEdits.target edge ∈ nodes_to_remove)
           then updated_edges
           else
             updated_edges ++
             [NetworkEdits.set_ends edge
                (NetworkEdits.rename name_mapping (NetworkEdits.source edge))
                (NetworkEdits.rename name_mapping (NetworkEdits.target edge))])
        [] edges.

Definition keep_first (st : gset (string * string) * list NetworkEdits.Edge)
    (edge : NetworkEdits.Edge)
  : gset (string * string) * list NetworkEdits.Edge :=
  let '(seen_edges, final_edges) := st in
  if bool_decide (NetworkEdits.edge_key edge ∈ seen_edges)
  then (seen_edges, final_edges)
  else (seen_edges ∪ {[NetworkEdits.edge_key edge]}, final_edges ++ [edge]).

Definition remove_duplicate_edges (updated_edges : list NetworkEdits.Edge)
  : list NetworkEdits.Edge :=
  snd (foldl keep_first (∅, []) updated_edges).

(** [nodes_to_remove]: the ids of the nodes that [name_mapping] renames. *)
Definition removed_nodes (name_mapping : gmap string string)
    (nodes : list NetworkEdits.Node) : gset string :=
  list_to_set
    (List.filter (fun i => bool_decide (is_Some (name_mapping !! i)))
       (map NetworkEdits.id nodes)).

Definition update_network_edges (name_mapping : gmap string string)
    (network_data : NetworkEdits.NetworkData) : list NetworkEdits.Edge :=
  remove_duplicate_edges
    (repoint_edges name_mapping
       (removed_nodes name_mapping (NetworkEdits.nodes network_data))
       (NetworkEdits.edges network_data)).

End FixW.

(** ** [tools/admin_server.py]: the show and artist endpoints *)

Module AdminApi.
Import DataModel.

(** An entry of the ['artists'] list of a [PUT] request; [None] is a
    missing key. *)
Record ArtistData : Type := {
  ad_name : option string;
  ad_is_headliner : option bool
}.

(** The loop [for i, artist_data in enumerate(data['artists'])] from the
    index [i]. [fresh i] is the [uuid4] string drawn if the entry [i] makes
    [get_or_create_artist] build an artist. *)
Fixpoint link_artists (store : DataStore) (fresh : nat → string) (i : nat)
    (data : list ArtistData) : list ShowArtist * DataStore :=
  match data with
  | [] => ([], store)
  | artist_data :: rest =>
      let name := Py.strip (default EmptyString (ad_name artist_data)) in
      if negb (Py.truthy name) then link_artists store fresh (S i) rest
      else
        let '(artist, store) :=
          get_or_create_artist store name None (fresh i) in
        let '(new_artists, store) := link_artists store fresh (S i) rest in
        ({| artist_id := a_id artist; billing_order := Z.of_nat i;
            is_headliner := default false (ad_is_headliner artist_data);
            set_notes := None |} :: new_artists,
         store)
  end.

Inductive PutResponse : Type :=
| ShowNotFound
| ShowUpdated.

(** [PUT /api/shows/<show_id>]; [artists] is [None] when the request has
    no ['artists'] key. *)
Definition update_show (store : DataStore) (fresh : nat → string)
    (show_id : string) (artists : option (list ArtistData))
  : PutResponse * DataStore :=
  match get_show store show_id with
  | None => (ShowNotFound, store)
  | Some show =>
      match artists with
      | Some data =>
          let '(new_artists, store) := link_artists store fresh 0 data in
          (ShowUpdated,
           DataModel.update_show store
             {| s_id := s_id show; s_date := s_date show;
                s_title := s_title show; s_artists := new_artists |})
      | None => (ShowUpdated, DataModel.update_show store show)
      end
  end.

Inductive PostResponse : Type :=
| NameRequired
| AlreadyExists (name : string)
| Created (artist_id : string).

(** [POST /api/artists]; [fresh] is the id of the [Artist] it builds. *)
Definition create_artist (store : DataStore) (name : option string)
    (aliases : option (list string)) (fresh : string)
  : PostResponse * DataStore :=
  let name := Py.strip (default EmptyString name) in
  if negb (Py.truthy name) then (NameRequired, store)
  else
    match find_artist_by_name store name with
    | Some _ => (AlreadyExists name, store)
    | None =>
        let artist :=
          {| a_id := fresh; a_name := name;
             a_aliases := default [] aliases |} in
        (Created (a_id artist), add_artist store artist)
    end.

End AdminApi.

(** ** [tools/migrate_data.py]: linking the parsed artists of a show *)

Module Migrate.
Import DataModel.

(** The loop [for parsed_artist in result.artists] of [process_show]: the
    links appended to [show.artists] so far, the store and the number of
    artists visited. *)
Definition link_step (fresh : nat → string)
    (st : list ShowArtist * DataStore * nat)
    (parsed_artist : LlmParser.ParsedArtist)
  : list ShowArtist * DataStore * nat :=
  let '(linked, store, n) := st in
  let '(artist, store) :=
    get_or_create_artist store (LlmParser.name parsed_artist) None
      (fresh n) in
  (linked ++
   [{| artist_id := a_id artist;
       billing_order :=
         if LlmParser.is_headliner parsed_artist then 0%Z
         else (Z.of_nat (length linked) + 1)%Z;
       is_headliner := LlmParser.is_headliner parsed_artist;
       set_notes := LlmParser.notes parsed_artist |}],
   store, S n).

Definition link_artists (store : DataStore) (fresh : nat → string)
    (parsed : list LlmParser.ParsedArtist) : list ShowArtist * DataStore :=
  fst (foldl (link_step fresh) ([], store, 0) parsed).

(** A row of the raw CSV, with the columns [process_show] reads into the
    fields of the model; a missing column reads as the empty string. *)
Record RawRow : Type := {
  r_title : string;
  r_description : string;
  r_date : string
}.

(** [process_show]; [show_id] is the id drawn for the [Show] it builds. *)
Definition process_show (raw : RawRow) (parser : LlmParser.ArtistParser)
    (store : DataStore) (show_id : string) (fresh : nat → string)
  : Show * DataStore :=
  let result :=
    LlmParser.parse parser (r_title raw) (r_description raw) (r_date raw) in
  let '(linked, store) :=
    link_artists store fresh (LlmParser.artists result) in
  ({| s_id := show_id;
      s_date := if Py.truthy (r_date raw) then Some (r_date raw) else None;
      s_title := r_title raw;
      s_artists := linked |},
   store).

End Migrate.

(** ** [tools/llm_parser.py]: the cache of [BatchParser]

    A cache entry is the dict written by [_result_to_dict] or read from the
    cache file. Each key is an [option]: [None] is an absent key. The values
    have the types [_result_to_dict] writes; the key ["name"] of an artist
    entry is read with [a["name"]] and is always present. *)

Module Batch.
Import LlmParser.

Record ArtistDict : Type := {
  d_name : string;
  d_is_headliner : option bool;
  d_notes : option (option string);
  d_confidence : option Q
}.

Record ResultDict : Type := {
  d_artists : option (list ArtistDict);
  d_is_music_event : option bool;
  d_event_type : option string;
  d_genre : option (option string);
  d_ticket_price : option (option string);
  d_sold_out : option bool;
  d_result_confidence : option Q;
  d_needs_review : option bool;
  d_review_reason : option (option string)
}.

Definition _result_to_dict (result : ParseResult) : ResultDict :=
  {| d_artists :=
       Some (map (fun a =>
                    {| d_name := name a;
                       d_is_headliner := Some (is_headliner a);
                       d_notes := Some (notes a);
                       d_confidence := Some (artist_confidence a) |})
               (artists result));
     d_is_music_event := Some (is_music_event result);
     d_event_type := Some (event_type result);
     d_genre := Some (genre result);
     d_ticket_price := Some (ticket_price result);
     d_sold_out := Some (sold_out result);
     d_result_confidence := Some (confidence result);
     d_needs_review := Some (needs_review result);
     d_review_reason := Some (review_reason result) |}.

Definition _dict_to_result (data : ResultDict) : ParseResult :=
  {| artists :=
       map (fun a =>
              {| name := d_name a;
                 is_headliner := default false (d_is_headliner a);
                 notes := default None (d_notes a);
                 artist_confidence := default conf_0_9 (d_confidence a) |})
           (default [] (d_artists data));
     is_music_event := default true (d_is_music_event data);
     event_type := default "concert" (d_event_type data);
     genre := default None (d_genre data);
     ticket_price := default None (d_ticket_price data);
     sold_out := default false (d_sold_out data);
     confidence := default conf_0_9 (d_result_confidence data);
     needs_review := default false (d_needs_review data);
     review_reason := default None (d_review_reason data) |}.

Record BatchParser : Type := {
  parser : ArtistParser;
  _cache : gmap string ResultDict
}.

(** [f"{show_id}:{title}:{description}"]. *)
Definition cache_key (show_id title description : string) : string :=
  show_id +:+ ":" +:+ title +:+ ":" +:+ description.

Definition parse_show (self : BatchParser)
    (show_id title description date : string) (use_cache : bool)
  : ParseResult * BatchParser :=
  let cache_key := cache_key show_id title description in
  match (if use_cache then _cache self !! cache_key else None) with
  | Some data => (_dict_to_result data, self)
  | None =>
      let result := parse (parser self) title description date in
      (result,
       {| parser := parser self;
          _cache := <[cache_key := _result_to_dict result]> (_cache self) |})
  end.

End Batch.

(** ** Example data *)

Module Examples.
Import DataModel.

Definition neon_trees : Artist :=
  {| a_id := "id-neon-trees"; a_name := "Neon Trees";
     a_aliases := ["The Neon Trees"] |}.

Definition band_x : Artist :=
  {| a_id := "id-band-x"; a_name := "Band X"; a_aliases := [] |}.

Definition link (i : string) (order : Z) : ShowArtist :=
  {| artist_id := i; billing_order := order;
     is_headliner := (order =? 0)%Z; set_notes := None |}.

Definition show_2006 : Show :=
  {| s_id := "show-1"; s_date := Some "2006-02-11";
     s_title := "Neon Trees w/ Band X";
     s_artists := [link "id-neon-trees" 0; link "id-band-x" 1] |}.

(** A store with two entities and one show that links both. *)
Definition two_artists : DataStore :=
  update_show (add_artist (add_artist empty_store neon_trees) band_x)
    show_2006.

(** Two entities whose names differ in case only, and a second version of
    the first under its id. *)
Definition trees_upper : Artist :=
  {| a_id := "id-1"; a_name := "Neon Trees"; a_aliases := [] |}.
Definition trees_lower : Artist :=
  {| a_id := "id-2"; a_name := "neon trees"; a_aliases := [] |}.
Definition trees_renamed : Artist :=
  {| a_id := "id-1"; a_name := "Neon Forest"; a_aliases := [] |}.

(** A history of three calls: two creations and a merge. *)
Definition after_two_creations : DataStore :=
  snd (get_or_create_artist
         (snd (get_or_create_artist empty_store "Neon Trees" None "uuid-1"))
         "Neon Tree" (Some ["neon tree"]) "uuid-2").

Definition after_merge : DataStore :=
  snd (AdminServer.merge_artists after_two_creations (Some "uuid-1")
         ["uuid-2"]).

(** A bill that lists one band under two spellings. *)
Definition two_spellings : Network.RawShow :=
  {| Network.date := Some "2006-01-13";
     Network.title := Some "Band, BAND";
     Network.artists := None;
     Network.description := None |}.

(** A network in which "neon tree" and "neon trees" both share bills with
    "band x", before the first is merged into the second. *)
Definition attached (d t : string) : NetworkEdits.ShowRef :=
  {| NetworkEdits.sr_date := d; NetworkEdits.sr_title := t;
     NetworkEdits.sr_genre := EmptyString;
     NetworkEdits.sr_description := EmptyString |}.

Definition show_a : NetworkEdits.ShowRef :=
  attached "2006-02-11" "Neon Trees w/ Band X".
Definition show_b : NetworkEdits.ShowRef :=
  attached "2006-05-20" "Band X, Neon Trees".
Definition show_c : NetworkEdits.ShowRef :=
  attached "2007-01-06" "Neon Tree w/ Band X".

Definition edge (t : string) (w : Z)
    (attached_shows : option (list NetworkEdits.ShowRef))
  : NetworkEdits.Edge :=
  {| NetworkEdits.source := "band x"; NetworkEdits.target := t;
     NetworkEdits.weight := w; NetworkEdits.shows_together := w;
     NetworkEdits.shows := attached_shows;
     NetworkEdits.total_shows :=
       (fun l => Z.of_nat (length l)) <$> attached_shows |}.

Definition node (i : string) (n : Z) : NetworkEdits.Node :=
  {| NetworkEdits.id := i; NetworkEdits.label := i;
     NetworkEdits.size := n; NetworkEdits.node_shows := n |}.

Definition three_nodes : list NetworkEdits.Node :=
  [node "band x" 3; node "neon trees" 2; node "neon tree" 1].

Definition merge_typo : list NetworkEdits.Change :=
  [NetworkEdits.Merge "neon tree" "neon trees"].

(** Each weight is the number of shows attached. *)
Definition network_counted : NetworkEdits.NetworkData :=
  {| NetworkEdits.nodes := three_nodes;
     NetworkEdits.edges :=
       [edge "neon trees" 2 (Some [show_a; show_b]);
        edge "neon tree" 1 (Some [show_c])] |}.

(** The weights count two shows and one, but one and the same show is
    attached to both edges. *)
Definition network_shared : NetworkEdits.NetworkData :=
  {| NetworkEdits.nodes := three_nodes;
     NetworkEdits.edges :=
       [edge "neon trees" 2 (Some [show_a]);
        edge "neon tree" 1 (Some [show_a])] |}.

(** The network of [network_counted] whose node "neon tree" is missing,
    and the mapping that renames that id. *)
Definition network_dangling : NetworkEdits.NetworkData :=
  {| NetworkEdits.nodes := [node "band x" 3; node "neon trees" 2];
     NetworkEdits.edges :=
       [edge "neon trees" 2 (Some [show_a; show_b]);
        edge "neon tree" 1 (Some [show_c])] |}.

Definition typo_mapping : gmap string string :=
  {["neon tree" := "neon trees"]}.

(** A supply of distinct non-empty ids: ["u"], ["xu"], ["xxu"], ... *)
Fixpoint uuid (n : nat) : string :=
  match n with
  | O => "u"
  | S n' => String "x" (uuid n')
  end.

(** A store with one show and no artist, and an edit of its bill. *)
Definition one_show : DataStore :=
  DataModel.update_show empty_store
    {| s_id := "show-1"; s_date := Some "2006-02-11";
       s_title := "Neon Trees w/ Band X"; s_artists := [] |}.

Definition posted_bill : list AdminApi.ArtistData :=
  [{| AdminApi.ad_name := Some "Neon Trees";
      AdminApi.ad_is_headliner := Some true |};
   {| AdminApi.ad_name := Some "  "; AdminApi.ad_is_headliner := None |};
   {| AdminApi.ad_name := Some "Band X"; AdminApi.ad_is_headliner := None |}].

End Examples.

(** * Properties *)

(** ** Event classification and the short-circuit of [parse] *)

Section Classification.
Import LlmParser.

Variable self : ArtistParser.
Variables title description date : string.

Lemma parse_closed :
  _is_closed_event (text_lower title description) = true →
  parse self title description date = short_circuit false "closed" conf_1_0.
Proof. unfold parse. intros ->. reflexivity. Qed.

Lemma parse_open_mic :
  _is_closed_event (text_lower title description) = false →
  _is_open_mic (text_lower title description) = true →
  parse self title description date = short_circuit true "open_mic" conf_1_0.
Proof. unfold parse. intros -> ->. reflexivity. Qed.

Lemma parse_improv :
  _is_closed_event (text_lower title description) = false →
  _is_open_mic (text_lower title description) = false →
  _is_improv (text_lower title description) = true →
  parse self title description date = short_circuit true "improv" conf_0_9.
Proof. unfold parse. intros -> -> ->. reflexivity. Qed.

(** Whatever the class, a short-circuited result has no candidates. *)
Lemma parse_classified_empty :
  let text := text_lower title description in
  _is_closed_event text || _is_open_mic text || _is_improv text = true →
  artists (parse self title description date) = [].
Proof.
  unfold parse.
  destruct (_is_closed_event (text_lower title description)); [reflexivity|].
  destruct (_is_open_mic (text_lower title description)); [reflexivity|].
  destruct (_is_improv (text_lower title description)); [reflexivity|].
  discriminate.
Qed.

(** C6, as amended. A listing classified closed/private or open-mic is
    answered with no candidates, confidence exactly 1.0 and
    [needs_review = false]; a listing classified improv is answered with
    no candidates and [needs_review = false] too, but with the fixed
    confidence 0.9. *)
Theorem parse_non_performance :
  let text := text_lower title description in
  let r := parse self title description date in
  (_is_closed_event text = true
   ∨ (_is_closed_event text = false ∧ _is_open_mic text = true) →
   artists r = [] ∧ confidence r = conf_1_0 ∧ needs_review r = false)
  ∧
  (_is_closed_event text = false →
   _is_open_mic text = false →
   _is_improv text = true →
   artists r = [] ∧ confidence r = conf_0_9 ∧ needs_review r = false).
Proof.
  cbv zeta. split.
  - intros [H | [H1 H2]].
    + rewrite (parse_closed H). done.
    + rewrite (parse_open_mic H1 H2). done.
  - intros H1 H2 H3. rewrite (parse_improv H1 H2 H3). done.
Qed.

Lemma keyword_classified (kw : string) :
  let text := text_lower title description in
  In kw parse_keywords →
  Py.contains kw text = true →
  _is_closed_event text || _is_open_mic text || _is_improv text = true.
Proof.
  intros text Hin Hc. unfold parse_keywords in Hin.
  apply in_app_or in Hin as [Hin | Hin].
  - assert (_is_closed_event text = true) as ->; [|reflexivity].
    unfold _is_closed_event. apply existsb_exists. eauto.
  - unfold _is_open_mic, _is_improv. simpl in Hin.
    destruct Hin as [<- | [<- | [<- | [<- | []]]]]; rewrite Hc;
      rewrite ?orb_true_r; reflexivity.
Qed.

(** C10. Each test of [parse] is a substring test on the lower-cased
    ["title description"]; so a listing whose text contains any keyword of
    [parse] anywhere gets an empty candidate list, whatever else the text
    holds. *)
Theorem parse_keyword_anywhere (kw : string) :
  In kw parse_keywords →
  Py.contains kw (text_lower title description) = true →
  artists (parse self title description date) = [].
Proof.
  intros Hin Hc. apply parse_classified_empty.
  by apply (keyword_classified kw).
Qed.

(** [classify_event_type] of [data_model] tests by substring as well, on
    lists of its own, which [parse] does not consult. *)
Lemma classify_event_type_keyword (kw : string) :
  In kw (DataModel.NON_MUSIC_KEYWORDS ++ DataModel.OPEN_MIC_KEYWORDS
         ++ DataModel.IMPROV_KEYWORDS) →
  Py.contains kw (Py.lower (title +:+ " " +:+ description)) = true →
  snd (DataModel.classify_event_type title description) ≠ "concert".
Proof.
  intros Hin Hc. unfold DataModel.classify_event_type.
  set (text := Py.lower (title +:+ " " +:+ description)) in *.
  assert (∀ kws, In kw kws → DataModel.any_keyword kws text = true) as Hany.
  { intros kws Hkw. unfold DataModel.any_keyword. apply existsb_exists.
    eauto. }
  destruct (DataModel.any_keyword DataModel.NON_MUSIC_KEYWORDS text) eqn:E1.
  { cbn [snd]. by destruct (Py.contains "closed" text). }
  destruct (DataModel.any_keyword DataModel.OPEN_MIC_KEYWORDS text) eqn:E2;
    [done|].
  destruct (DataModel.any_keyword DataModel.IMPROV_KEYWORDS text) eqn:E3;
    [done|].
  apply in_app_or in Hin as [Hin | Hin]; [by rewrite Hany in E1|].
  apply in_app_or in Hin as [Hin | Hin];
    [by rewrite Hany in E2 | by rewrite Hany in E3].
Qed.

End Classification.

Section ClassificationExamples.
Import LlmParser.

(** C6, witness: an open-mic listing and an improv listing. *)
Lemma parse_non_performance_witness :
  (let r := parse rule_based "Open-Mic Acoustic Night" EmptyString
              EmptyString in
   artists r = [] ∧ confidence r = conf_1_0 ∧ needs_review r = false)
  ∧
  (let r := parse rule_based "The Thrillionaires (Improv Theater)"
              EmptyString EmptyString in
   artists r = [] ∧ confidence r = conf_0_9 ∧ needs_review r = false).
Proof.
  split.
  - apply (proj1 (parse_non_performance rule_based
                    "Open-Mic Acoustic Night" EmptyString EmptyString)).
    right. split; vm_compute; reflexivity.
  - apply (proj2 (parse_non_performance rule_based
                    "The Thrillionaires (Improv Theater)"
                    EmptyString EmptyString)); vm_compute; reflexivity.
Defined.

(** C6, counterexample: a listing classified improv is not answered with
    confidence 1.0. *)
Lemma parse_improv_confidence :
  let r := parse rule_based "The Thrillionaires (Improv Theater)"
             EmptyString EmptyString in
  event_type r = "improv" ∧
  ¬ (artists r = [] ∧ QArith_base.Qeq (confidence r) conf_1_0
     ∧ needs_review r = false).
Proof.
  split; [vm_compute; reflexivity|].
  intros (_ & H & _). vm_compute in H. discriminate H.
Qed.

(** C10, witness: a flea market listed together with two band names. *)
Lemma parse_keyword_anywhere_witness :
  artists (parse rule_based "Neon Trees w/ Band X" "at the Flea Market"
             EmptyString) = [].
Proof.
  apply (parse_keyword_anywhere rule_based "Neon Trees w/ Band X"
           "at the Flea Market" EmptyString "flea market").
  - vm_compute. tauto.
  - vm_compute. reflexivity.
Defined.

(** A title that holds "closed" but not "closed for": [classify_event_type]
    calls it closed, [parse] reads two candidates from it. *)
Example closed_casket :
  DataModel.classify_event_type "Closed Casket w/ Band X" EmptyString
  = (false, "closed")
  ∧ map name (artists (parse rule_based "Closed Casket w/ Band X"
                         EmptyString EmptyString))
    = ["Closed Casket"; "Band X"].
Proof. split; vm_compute; reflexivity. Qed.

(** Without the keyword the same title yields its two candidates. *)
Example parse_without_keyword :
  map name (artists (parse rule_based "Neon Trees w/ Band X" EmptyString
                       EmptyString))
  = ["Neon Trees"; "Band X"].
Proof. vm_compute. reflexivity. Qed.

End ClassificationExamples.

(** ** The resolver: lookups after updates *)

Section Resolver.
Import DataModel.

Implicit Types (d : list Artist) (a : Artist) (i k : string).
Implicit Types (idx : gmap string string) (s : DataStore).

Lemma artists_get_id d i a : artists_get i d = Some a → a_id a = i.
Proof.
  unfold artists_get. intros H. apply find_some in H as [_ H].
  by apply String.eqb_eq in H.
Qed.

Lemma artists_get_In d i a : artists_get i d = Some a → In a d.
Proof. unfold artists_get. intros H. by apply find_some in H as [H _]. Qed.

Lemma artists_get_set_eq d a : artists_get (a_id a) (artists_set a d) = Some a.
Proof.
  unfold artists_get. induction d as [|b d IH]; simpl.
  - by rewrite String.eqb_refl.
  - destruct (String.eqb (a_id b) (a_id a)) eqn:E; simpl.
    + by rewrite String.eqb_refl.
    + by rewrite E.
Qed.

Lemma artists_get_set_ne d a i :
  a_id a ≠ i → artists_get i (artists_set a d) = artists_get i d.
Proof.
  intros Hne. unfold artists_get. induction d as [|b d IH]; simpl.
  - by apply String.eqb_neq in Hne as ->.
  - destruct (String.eqb (a_id b) (a_id a)) eqn:E; simpl.
    + apply String.eqb_eq in E. rewrite E.
      by apply String.eqb_neq in Hne as ->.
    + by rewrite IH.
Qed.

(** The entries written by the alias loop of [add_artist]. *)
Lemma alias_loop_lookup (aliases : list string) idx i k :
  foldl (fun idx alias => <[_normalize_name alias := i]> idx) idx aliases !! k
  = if decide (k ∈ map _normalize_name aliases) then Some i else idx !! k.
Proof.
  revert idx. induction aliases as [|al als IH]; intros idx; cbn [foldl map].
  - case_decide; [set_solver|done].
  - rewrite IH. repeat case_decide; try done.
    + set_solver.
    + destruct (decide (k = _normalize_name al)) as [->|Hne].
      * by rewrite lookup_insert_eq.
      * set_solver.
    + rewrite lookup_insert_ne; [done|set_solver].
Qed.

Lemma index_artist_lookup idx a k :
  index_artist idx a !! k
  = if decide (k ∈ artist_keys a) then Some (a_id a) else idx !! k.
Proof.
  unfold index_artist, artist_keys. rewrite alias_loop_lookup.
  repeat case_decide; try done.
  - set_solver.
  - destruct (decide (k = _normalize_name (a_name a))) as [->|Hne].
    + by rewrite lookup_insert_eq.
    + set_solver.
  - rewrite lookup_insert_ne; [done|set_solver].
Qed.

Lemma find_artist_by_name_Some s name a :
  find_artist_by_name s name = Some a →
  _artist_index s !! _normalize_name name = Some (a_id a)
  ∧ Py.truthy (a_id a) = true
  ∧ artists_get (a_id a) (_artists s) = Some a.
Proof.
  unfold find_artist_by_name.
  destruct (_artist_index s !! _normalize_name name) as [i|]; [|done].
  destruct (Py.truthy i) eqn:Ht; [|done].
  intros H. pose proof (artists_get_id _ _ _ H) as <-. done.
Qed.

Lemma first_alias_hit_Some s aliases a :
  first_alias_hit s aliases = Some a →
  ∃ alias, In alias aliases ∧ find_artist_by_name s alias = Some a.
Proof.
  induction aliases as [|al als IH]; simpl; [done|].
  destruct (find_artist_by_name s al) eqn:E.
  - intros [= ->]. eauto.
  - intros H. destruct (IH H) as (alias & ? & ?). eauto.
Qed.

Lemma find_after_add s a :
  Py.truthy (a_id a) = true →
  find_artist_by_name (add_artist s a) (a_name a) = Some a.
Proof.
  intros Ht. unfold find_artist_by_name, add_artist. simpl.
  rewrite index_artist_lookup.
  rewrite decide_True by (unfold artist_keys; set_solver).
  rewrite Ht. apply artists_get_set_eq.
Qed.

(** C5. Provided the identifier drawn for a new entity is a non-empty
    string, as every [uuid4] string is, calling [get_or_create_artist]
    twice in succession with the same name (and the same aliases, if any)
    returns the same entity, hence the same id, both times, and the second
    call leaves the store as the first call left it: no entity is
    created. *)
Theorem get_or_create_idempotent s name aliases fresh fresh' :
  Py.truthy fresh = true →
  let r1 := get_or_create_artist s name aliases fresh in
  let r2 := get_or_create_artist (snd r1) name aliases fresh' in
  a_id (fst r2) = a_id (fst r1) ∧ snd r2 = snd r1.
Proof.
  intros Hfresh. cbv zeta.
  destruct (get_or_create_artist s name aliases fresh) as [a1 s1] eqn:E1.
  cbn [fst snd]. unfold get_or_create_artist in E1.
  destruct (find_artist_by_name s name) as [a|] eqn:Hfind.
  { injection E1 as <- <-. unfold get_or_create_artist. by rewrite Hfind. }
  destruct (first_alias_hit s (default [] aliases)) as [a|] eqn:Hhit.
  - destruct (negb (Py.in_list name (a_aliases a))
              && negb (String.eqb name (a_name a))) eqn:Hnew;
      injection E1 as <- <-.
    + destruct (first_alias_hit_Some _ _ _ Hhit) as (alias & _ & Ha).
      apply find_artist_by_name_Some in Ha as (_ & Ht & _).
      unfold get_or_create_artist.
      match goal with |- context [find_artist_by_name ?s' name] =>
        assert (find_artist_by_name s' name
                = Some {| a_id := a_id a; a_name := a_name a;
                          a_aliases := a_aliases a ++ [name] |}) as ->
      end; [|done].
      unfold find_artist_by_name. cbn [_artist_index _artists].
      rewrite lookup_insert_eq, Ht.
      apply (artists_get_set_eq _
               {| a_id := a_id a; a_name := a_name a;
                  a_aliases := a_aliases a ++ [name] |}).
    + unfold get_or_create_artist. by rewrite Hfind, Hhit, Hnew.
  - injection E1 as <- <-. unfold get_or_create_artist.
    pose proof (find_after_add s {| a_id := fresh; a_name := name;
                                    a_aliases := default [] aliases |} Hfresh)
      as Hf.
    cbn [a_name] in Hf. by rewrite Hf.
Qed.

End Resolver.

Section ResolverExamples.
Import DataModel.

(** C5, witness: the first call creates the entity, the second finds it. *)
Lemma get_or_create_idempotent_witness :
  let r1 := get_or_create_artist empty_store "Neon Trees" None "uuid-1" in
  let r2 := get_or_create_artist (snd r1) "Neon Trees" None "uuid-2" in
  a_id (fst r2) = a_id (fst r1) ∧ snd r2 = snd r1.
Proof.
  apply (get_or_create_idempotent empty_store "Neon Trees" None
           "uuid-1" "uuid-2").
  reflexivity.
Defined.

End ResolverExamples.

(** ** The merge endpoint *)

Section Merge.
Import DataModel AdminServer.

Implicit Types (store : DataStore) (ids : list string).

Lemma lookup_all_unknown store ids i :
  In i ids → get_artist store i = None →
  ∃ missing, lookup_all store ids = inl missing.
Proof.
  induction ids as [|j ids IH]; simpl; [done|].
  intros [->|Hin] Hi.
  - rewrite Hi. eauto.
  - destruct (get_artist store j); [|eauto].
    destruct (IH Hin Hi) as [m ->]. eauto.
Qed.

(** A merge that names an unknown primary or an unknown entity to merge is
    answered with an error and changes nothing in the store. *)
Lemma merge_unknown_rejected store primary_id ids :
  get_artist store primary_id = None
  ∨ (∃ i, In i ids ∧ get_artist store i = None) →
  rejected (fst (merge_artists store (Some primary_id) ids))
  ∧ snd (merge_artists store (Some primary_id) ids) = store.
Proof.
  intros H. unfold merge_artists.
  destruct ids as [|j ids]; [done|].
  destruct (negb (Py.truthy primary_id)); [done|].
  destruct (get_artist store primary_id) as [primary|] eqn:Hp; [|done].
  destruct H as [H | (i & Hin & Hi)]; [done|].
  destruct (lookup_all_unknown store (j :: ids) i Hin Hi) as [m ->]. done.
Qed.

(** C2, the failing input: the primary is also listed in [merge_ids].
    The request succeeds, the primary itself is deleted from the entity
    set, its names leave the index, and the show keeps a link to the
    deleted id. *)
Theorem merge_self_deletes_primary :
  let store := Examples.two_artists in
  let r := merge_artists store (Some "id-neon-trees") ["id-neon-trees"] in
  fst r = Success 1 1 Examples.neon_trees
  ∧ get_artist store "id-neon-trees" = Some Examples.neon_trees
  ∧ get_artist (snd r) "id-neon-trees" = None
  ∧ _artists (snd r) = [Examples.band_x]
  ∧ find_artist_by_name (snd r) "Neon Trees" = None
  ∧ _shows (snd r) = [Examples.show_2006].
Proof. vm_compute. repeat split. Qed.

End Merge.

(** ** The co-occurrence graph builder *)

Section Graph.
Import Network.

(** C3, the failing input: a bill whose title lists ["Band"] and ["BAND"].
    The duplicates of a bill are removed on the cleaned display names,
    before normalization, so both spellings survive, normalize to the same
    key and are paired: the graph gets the edge [("band", "band")] with
    weight 1, a self-loop. This holds in whatever order the set of names is
    listed. *)
Theorem case_variants_make_self_loop (set_order : list string → list string) :
  (∀ l, set_order l ≡ₚ remove_dups l) →
  artist_connections (process_all_shows set_order [Examples.two_spellings])
    !! ("band", "band") = Some 1%Z.
Proof.
  intros Hperm.
  assert (extract_artists_from_show set_order Examples.two_spellings
          = set_order ["Band"; "BAND"]) as Hx by (vm_compute; reflexivity).
  unfold process_all_shows. cbn [foldl]. unfold process_show. rewrite Hx.
  pose proof (Hperm ["Band"; "BAND"]) as Hp.
  assert (remove_dups ["Band"; "BAND"] = ["Band"; "BAND"]) as Hr
      by (vm_compute; reflexivity).
  rewrite Hr in Hp. symmetry in Hp.
  apply Permutation_length_2_inv in Hp as [-> | ->];
    vm_compute; reflexivity.
Qed.

(** C3, witness: the order that keeps first occurrences. *)
Lemma case_variants_make_self_loop_witness :
  artist_connections (process_all_shows remove_dups [Examples.two_spellings])
    !! ("band", "band") = Some 1%Z.
Proof.
  apply (case_variants_make_self_loop remove_dups). intros l. reflexivity.
Defined.

(** *** What the builder does guarantee: sorted keys, no parallel edges *)

Lemma ltb_asym (a b : string) : String.ltb a b = true → String.ltb b a = false.
Proof.
  unfold String.ltb. rewrite (String.compare_antisym a b).
  by destruct (String.compare b a).
Qed.

Lemma ltb_total (a b : string) :
  String.ltb a b = false → String.ltb b a = false → a = b.
Proof.
  unfold String.ltb. rewrite (String.compare_antisym a b).
  destruct (String.compare b a) eqn:E; try done.
  intros _ _. symmetry. by apply String.compare_eq_iff.
Qed.

Lemma sorted_pair_sorted (n1 n2 : string) :
  String.ltb (snd (sorted_pair n1 n2)) (fst (sorted_pair n1 n2)) = false.
Proof.
  unfold sorted_pair. destruct (String.ltb n2 n1) eqn:E; simpl; [|done].
  by apply ltb_asym.
Qed.

Lemma normalize_artist_name_connections st n :
  artist_connections (snd (normalize_artist_name st n))
  = artist_connections st.
Proof.
  unfold normalize_artist_name. simpl.
  by destruct (normalized_artists st !! normalize n).
Qed.

Lemma track_keys_sorted show st a :
  keys_sorted st → keys_sorted (track show st a).
Proof.
  unfold keys_sorted, track.
  destruct (normalize_artist_name st a) as [n st'] eqn:E. simpl.
  pose proof (normalize_artist_name_connections st a) as H.
  rewrite E in H. simpl in H. by rewrite H.
Qed.

Lemma connect_keys_sorted st p : keys_sorted st → keys_sorted (connect st p).
Proof.
  unfold keys_sorted, connect. intros Hs k.
  destruct (normalize_artist_name st p.1) as [n1 st1] eqn:E1.
  destruct (normalize_artist_name st1 p.2) as [n2 st2] eqn:E2. simpl.
  pose proof (normalize_artist_name_connections st p.1) as H1.
  pose proof (normalize_artist_name_connections st1 p.2) as H2.
  rewrite E1 in H1. rewrite E2 in H2. simpl in H1, H2.
  destruct (decide (k = sorted_pair n1 n2)) as [->|Hne].
  - intros _. apply sorted_pair_sorted.
  - rewrite lookup_insert_ne by done. rewrite H2, H1. apply Hs.
Qed.

Lemma foldl_keys_sorted {A} (f : State → A → State) (l : list A) st :
  (∀ st x, keys_sorted st → keys_sorted (f st x)) →
  keys_sorted st → keys_sorted (foldl f st l).
Proof.
  intros Hf. revert st. induction l as [|x l IH]; simpl; auto.
Qed.

Lemma process_all_shows_keys_sorted set_order all_shows :
  keys_sorted (process_all_shows set_order all_shows).
Proof.
  unfold process_all_shows. apply foldl_keys_sorted.
  - intros st show Hs. unfold process_show.
    destruct (extract_artists_from_show set_order show) as [|a l]; [done|].
    set (st' := foldl (track show) st (a :: l)).
    assert (keys_sorted st') as Hs'.
    { apply foldl_keys_sorted; [|done]. intros. by apply track_keys_sorted. }
    destruct (1 <? length (a :: l)); [|done].
    apply foldl_keys_sorted; [|done]. intros. by apply connect_keys_sorted.
  - intros k. unfold initial. simpl. rewrite lookup_empty.
    by intros [? ?].
Qed.

(** For every show set the edge list holds at most one record for each
    unordered pair of keys. *)
Lemma no_parallel_edges set_order all_shows (e1 e2 : Edge) :
  let graph := edges_of (process_all_shows set_order all_shows) in
  e1 ∈ graph → e2 ∈ graph →
  (source e1 = source e2 ∧ target e1 = target e2)
  ∨ (source e1 = target e2 ∧ target e1 = source e2) →
  e1 = e2.
Proof.
  intros graph H1 H2 Hpair. unfold graph, edges_of in H1, H2.
  apply list_elem_of_fmap in H1 as ([[a1 b1] w1] & -> & H1).
  apply list_elem_of_fmap in H2 as ([[a2 b2] w2] & -> & H2).
  apply elem_of_map_to_list in H1, H2. simpl in Hpair.
  pose proof (process_all_shows_keys_sorted set_order all_shows) as Hs.
  assert ((a1, b1) = (a2, b2)) as Heq.
  { destruct Hpair as [[-> ->] | [-> ->]]; [done|].
    pose proof (Hs (b2, a2) (mk_is_Some _ _ H1)) as Ha.
    pose proof (Hs (a2, b2) (mk_is_Some _ _ H2)) as Hb.
    simpl in Ha, Hb. by rewrite (ltb_total _ _ Ha Hb). }
  injection Heq as -> ->. rewrite H1 in H2. by injection H2 as ->.
Qed.

End Graph.

(** ** The noise filters *)

Section Noise.

Lemma in_list_In (x : string) (xs : list string) :
  Py.in_list x xs = true ↔ In x xs.
Proof.
  unfold Py.in_list. rewrite existsb_exists. split.
  - intros (y & Hy & E). apply String.eqb_eq in E. by subst.
  - intros H. exists x. split; [done|]. apply String.eqb_refl.
Qed.

Lemma truthy_length (s : string) :
  Py.truthy s = false → String.length s = 0.
Proof. by destruct s. Qed.

(** C9, as amended. The rule-based path of [llm_parser] drops a token
    exactly when its cleaned name is shorter than 2 characters or is,
    whatever its case, a term of [noise_terms]; a name that only contains
    such a term is kept. [parse_artists_network._clean_artist_name] is
    wider: it rejects (returns the empty string) exactly when the cleaned
    name is shorter than 2 characters, is a term of its metadata list, or
    contains one of its generic terms as a substring. *)
Theorem clean_rejects_exactly :
  (∀ (i : nat) (raw : string),
     let cleaned := LlmParser._clean_artist_name raw in
     LlmParser.candidate i raw = None ↔
     String.length cleaned < 2 ∨ In (Py.lower cleaned) LlmParser.noise_terms)
  ∧
  (∀ name : string,
     let cleaned := Network.tidy_artist_name name in
     Network._clean_artist_name name = EmptyString ↔
     String.length cleaned < 2
     ∨ In (Py.lower cleaned) Network.metadata_names
     ∨ ∃ term, In term Network.generic_terms
               ∧ Py.contains term (Py.lower cleaned) = true).
Proof.
  split.
  - intros i raw cleaned. unfold LlmParser.candidate. fold cleaned.
    unfold LlmParser._is_noise. rewrite <- in_list_In.
    set (noise := Py.in_list (Py.lower cleaned) LlmParser.noise_terms).
    clearbody noise.
    destruct (Py.truthy cleaned) eqn:Ht; cbn [andb].
    + destruct (1 <? String.length cleaned) eqn:Hl; cbn [andb].
      * apply Nat.ltb_lt in Hl.
        assert ((String.length cleaned <? 2) = false) as ->
            by (apply Nat.ltb_ge; lia).
        rewrite orb_false_r. destruct noise; cbn [negb].
        -- split; [intros _; by right | done].
        -- split; [done | intros [? | ?]; [lia | done]].
      * apply Nat.ltb_ge in Hl. split; [intros _; left; lia | done].
    + apply truthy_length in Ht. split; [intros _; left; lia | done].
  - intros name cleaned. unfold Network._clean_artist_name.
    destruct (Py.truthy name) eqn:Ht; cbn [negb].
    + fold cleaned. rewrite <- in_list_In.
      set (meta := Py.in_list (Py.lower cleaned) Network.metadata_names).
      clearbody meta.
      destruct (String.length cleaned <? 2) eqn:Hl.
      { apply Nat.ltb_lt in Hl. tauto. }
      apply Nat.ltb_ge in Hl.
      destruct meta; [tauto|].
      destruct (Network.any_in Network.generic_terms (Py.lower cleaned))
        eqn:Hg.
      { unfold Network.any_in in Hg. apply existsb_exists in Hg. tauto. }
      split.
      * intros E. rewrite E in Hl. cbn [String.length] in Hl. lia.
      * intros [? | [? | (term & Hin & Hc)]]; [lia | done |].
        assert (Network.any_in Network.generic_terms (Py.lower cleaned)
                = true) as E; [|congruence].
        unfold Network.any_in. apply existsb_exists. eauto.
    + destruct name; [|done]. split; [|done].
      intros _. left. vm_compute. lia.
Qed.

(** C9, witness: the venue's name is dropped by the first filter, and a
    band whose name contains ["night"] by the second. *)
Lemma clean_rejects_exactly_witness :
  LlmParser.candidate 0 "Velour" = None
  ∧ Network._clean_artist_name "Nightmare" = EmptyString.
Proof.
  split.
  - apply (proj1 clean_rejects_exactly 0 "Velour").
    right. vm_compute. tauto.
  - apply (proj2 clean_rejects_exactly "Nightmare").
    right. right. exists "night". split; [vm_compute; tauto | reflexivity].
Defined.

(** C9, counterexample: the cleaned name ["Nightmare"] is long enough and
    is no term of either list of the builder, yet [_clean_artist_name]
    rejects it, for containing ["night"]. *)
Lemma substring_rejected :
  Network._clean_artist_name "Nightmare" = EmptyString
  ∧ Network.tidy_artist_name "Nightmare" = "Nightmare"
  ∧ ¬ (String.length "Nightmare" < 2
       ∨ In (Py.lower "Nightmare")
            (Network.metadata_names ++ Network.generic_terms)).
Proof.
  split; [vm_compute; reflexivity|]. split; [vm_compute; reflexivity|].
  intros [Hl | Hin].
  - vm_compute in Hl. lia.
  - vm_compute in Hin. repeat destruct Hin as [Hin | Hin]; done.
Qed.

(** The first filter keeps such names. *)
Example llm_keeps_nightmare :
  LlmParser.candidate 1 "Nightmare"
  = Some {| LlmParser.name := "Nightmare"; LlmParser.is_headliner := false;
            LlmParser.notes := None;
            LlmParser.artist_confidence := LlmParser.conf_0_7 |}.
Proof. vm_compute. reflexivity. Qed.

Example builder_rejects_abcd : Network._clean_artist_name "Abcd" = EmptyString.
Proof. vm_compute. reflexivity. Qed.

End Noise.

(** ** The matcher: totality of loops and where continuations run *)

Section Matcher.
Import Re.

Context {A : Type}.
Implicit Types (k : option ascii → string → option A).
Implicit Types (prev : option ascii) (s : string) (r : regex).

Lemma run_Star r prev s k :
  run (Star r) prev s k
  = star_loop (fun prev s k' => run r prev s k') k (String.length s) prev s.
Proof. reflexivity. Qed.

Lemma star_loop_S body k n prev s :
  star_loop body k (S n) prev s
  = match
      body prev s
        (fun p' s' =>
           if String.length s' <? String.length s
           then star_loop body k n p' s' else None)
    with
    | Some x => Some x
    | None => k prev s
    end.
Proof. reflexivity. Qed.

Lemma run_Chr_cons (p : ascii → bool) prev c s k :
  run (Chr p) prev (String c s) k = if p c then k (Some c) s else None.
Proof. reflexivity. Qed.

(** A loop succeeds whenever its continuation always does. *)
Lemma star_loop_total body k n prev s :
  (∀ p' s', is_Some (k p' s')) → is_Some (star_loop body k n prev s).
Proof.
  intros Hk. destruct n as [|n]; simpl; [apply Hk|].
  match goal with |- is_Some (match ?m with _ => _ end) => destruct m end;
    [by eexists | apply Hk].
Qed.

(** A loop over a character class gets past a prefix of that class if the
    continuation accepts what follows. *)
Lemma star_loop_skip (p : ascii → bool) (pre : string) :
  ∀ n prev rest k,
    Py.all_chars p pre = true →
    String.length pre ≤ n →
    (∀ p', is_Some (k p' rest)) →
    is_Some (star_loop (fun prev s k' => run (Chr p) prev s k') k n prev
               (pre +:+ rest)).
Proof.
  induction pre as [|c pre IH]; intros n prev rest k Hall Hn Hk.
  - simpl. destruct n as [|n]; simpl; [apply Hk|].
    match goal with |- is_Some (match ?m with _ => _ end) => destruct m end;
      [by eexists | apply Hk].
  - simpl in Hall. apply andb_true_iff in Hall as [Hc Hall].
    destruct n as [|n]; [simpl in Hn; lia|].
    change (String c pre +:+ rest) with (String c (pre +:+ rest)).
    rewrite star_loop_S. cbn beta. rewrite run_Chr_cons, Hc.
    assert ((String.length (pre +:+ rest)
             <? String.length (String c (pre +:+ rest))) = true) as ->
        by (apply Nat.ltb_lt; simpl; lia).
    simpl in Hn.
    destruct (IH n (Some c) rest k Hall ltac:(lia) Hk) as [x ->].
    by eexists.
Qed.

Lemma suffix_of_refl s : Py.suffix_of s s.
Proof. by exists EmptyString. Qed.

Lemma suffix_of_cons c s : Py.suffix_of s (String c s).
Proof. by exists (String c EmptyString). Qed.

Lemma append_cons (x : ascii) (a b : string) :
  String x a +:+ b = String x (a +:+ b).
Proof. reflexivity. Qed.

Lemma append_assoc (a b c : string) : (a +:+ b) +:+ c = a +:+ (b +:+ c).
Proof.
  induction a as [|x a IH]; [done|]. by rewrite !append_cons, IH.
Qed.

Lemma suffix_of_trans s1 s2 s3 :
  Py.suffix_of s1 s2 → Py.suffix_of s2 s3 → Py.suffix_of s1 s3.
Proof.
  intros [p1 ->] [p2 ->]. exists (p2 +:+ p1). by rewrite append_assoc.
Qed.

Lemma star_loop_runs_on_suffix body n :
  runs_on_suffix body →
  ∀ prev s k x,
    star_loop body k n prev s = Some x →
    ∃ p' s', Py.suffix_of s' s ∧ k p' s' = Some x.
Proof.
  intros Hbody. induction n as [|n IH]; intros prev s k x H.
  - simpl in H. eauto using suffix_of_refl.
  - rewrite star_loop_S in H.
    match type of H with
    | match ?m with _ => _ end = _ => destruct m as [y|] eqn:E
    end.
    + injection H as ->. apply Hbody in E as (p1 & s1 & Hs1 & E).
      destruct (String.length s1 <? String.length s); [|done].
      apply IH in E as (p2 & s2 & Hs2 & E).
      eauto using suffix_of_trans.
    + eauto using suffix_of_refl.
Qed.

Lemma run_on_suffix r : runs_on_suffix (fun prev s k => run r prev s k).
Proof.
  induction r as [|p|r1 IH1 r2 IH2|r1 IH1 r2 IH2|r IH| | |];
    intros prev s k x H; cbn [run] in H.
  - eauto using suffix_of_refl.
  - destruct s as [|c s]; [done|]. destruct (p c); [|done].
    eauto using suffix_of_cons.
  - apply IH1 in H as (p1 & s1 & Hs1 & H).
    apply IH2 in H as (p2 & s2 & Hs2 & H).
    eauto using suffix_of_trans.
  - destruct (run r1 prev s k) as [y|] eqn:E.
    + injection H as ->. by apply IH1 in E.
    + by apply IH2 in H.
  - by apply (star_loop_runs_on_suffix _ _ IH) in H.
  - destruct prev; [done|]. eauto using suffix_of_refl.
  - destruct (at_end s); [|done]. eauto using suffix_of_refl.
  - destruct (xorb _ _); [|done]. eauto using suffix_of_refl.
Qed.

(** So a pattern whose continuation fails on every remainder fails. *)
Lemma run_None r prev s k :
  (∀ p' s', Py.suffix_of s' s → k p' s' = None) → run r prev s k = None.
Proof.
  intros Hk. destruct (run r prev s k) as [x|] eqn:E; [|done].
  apply (run_on_suffix r) in E as (p' & s' & Hs & E).
  by rewrite Hk in E.
Qed.

End Matcher.

(** ** The with-marker at the start of a name *)

Section LeadingWith.
Import Re.

Lemma append_length (a b : string) :
  String.length (a +:+ b) = String.length a + String.length b.
Proof. induction a as [|c a IH]; simpl; [done|]. by rewrite IH. Qed.

Lemma leading_with_matches (pre rest : string) (w : ascii) :
  Py.all_chars Py.is_space pre = true →
  w = "w"%char ∨ w = "W"%char →
  matches FixW.leading_with_re (pre +:+ String w (String "/" rest)) = true.
Proof.
  intros Hpre Hw. unfold matches, re_match, match_end.
  set (k0 := fun (_ : option ascii) (s' : string) =>
               Some (String.length (pre +:+ String w (String "/" rest))
                     - String.length s')).
  assert (is_Some (run FixW.leading_with_re None
                     (pre +:+ String w (String "/" rest)) k0)) as [n ->];
    [|done].
  unfold FixW.leading_with_re. cbn [seqs]. cbn [run].
  apply star_loop_skip; [done | rewrite append_length; lia |].
  intros p'. cbn [run ichr chr].
  assert (Ascii.eqb (Py.lower_char w) (Py.lower_char "w") = true) as ->
      by (destruct Hw as [-> | ->]; reflexivity).
  rewrite Ascii.eqb_refl.
  apply star_loop_total. intros. by eexists.
Qed.

(** C8, as amended. The guard against a missing headliner lives in
    [fix_w_artists.split_artist_name]: a name that begins, after optional
    white space, with the marker [w/] (in either case) is not split at all;
    no candidate is returned. *)
Theorem split_artist_name_leading_with (pre rest : string) (w : ascii) :
  Py.all_chars Py.is_space pre = true →
  w = "w"%char ∨ w = "W"%char →
  FixW.split_artist_name (pre +:+ String w (String "/" rest)) = None.
Proof.
  intros Hpre Hw. unfold FixW.split_artist_name.
  by rewrite leading_with_matches.
Qed.

(** C8, witness. *)
Lemma split_artist_name_leading_with_witness :
  FixW.split_artist_name "w/ Band X, Band Y" = None.
Proof.
  apply (split_artist_name_leading_with EmptyString " Band X, Band Y" "w").
  - reflexivity.
  - by left.
Defined.

(** C8, counterexample: the tokenizer of [llm_parser] splits on the marker
    only after white space, so a listing that begins with the marker is
    kept whole, marker included, and goes on to become a candidate. *)
Lemma split_artists_leading_with :
  LlmParser._split_artists "w/ Band X" = ["w/ Band X"]
  ∧ map LlmParser.name
      (LlmParser.artists
         (LlmParser.parse LlmParser.rule_based "w/ Band X" EmptyString
            EmptyString))
    = ["w/ Band X"].
Proof. split; vm_compute; reflexivity. Qed.

End LeadingWith.

(** ** The tokenizer of [llm_parser] *)

Section Tokenizer.
Import Re LlmParser.

Lemma mem_char_suffix (c : ascii) (s' s : string) :
  Py.suffix_of s' s → Py.mem_char c s = false → Py.mem_char c s' = false.
Proof.
  intros [pre ->]. induction pre as [|x pre IH]; [done|].
  rewrite append_cons. cbn [Py.mem_char]. intros H.
  apply orb_false_iff in H as [_ H]. auto.
Qed.

(** Without a pattern match anywhere, [re.split] returns the whole
    string. *)
Lemma split_from_no_match (r : regex) (c : ascii) (s : string) :
  (∀ prev s', Py.mem_char c s' = false → match_end r prev s' = None) →
  ∀ prev, Py.mem_char c s = false → split_from r prev s 0 = [s].
Proof.
  intros Hr. induction s as [|x s IH]; intros prev Hc; [done|].
  cbn [split_from]. rewrite (Hr prev _ Hc).
  cbn [Py.mem_char] in Hc. apply orb_false_iff in Hc as [_ Hc].
  by rewrite (IH _ Hc).
Qed.

(** The with-marker pattern needs a slash. *)
Lemma with_re_needs_slash prev (s : string) :
  Py.mem_char "/" s = false → match_end with_re prev s = None.
Proof.
  intros Hs. unfold match_end, with_re. cbn [seqs]. cbn [run].
  apply (run_None (plus ws)). intros p' s' Hsuf.
  pose proof (mem_char_suffix _ _ _ Hsuf Hs) as Hs'.
  destruct s' as [|x [|y s']]; cbn [run ichr chr]; [done| |].
  - by destruct (Ascii.eqb _ _).
  - destruct (Ascii.eqb (Py.lower_char x) _); [|done].
    cbn [Py.mem_char] in Hs'. apply orb_false_iff in Hs' as [_ Hs'].
    apply orb_false_iff in Hs' as [Hy _]. by rewrite Hy.
Qed.

(** The comma pattern needs a comma. *)
Lemma comma_re_needs_comma prev (s : string) :
  Py.mem_char "," s = false → match_end comma_re prev s = None.
Proof.
  intros Hs. unfold match_end, comma_re. cbn [seqs run chr].
  destruct s as [|x s]; [done|].
  cbn [Py.mem_char] in Hs. apply orb_false_iff in Hs as [Hx _].
  by rewrite Hx.
Qed.

(** *** Names of one word, and stepping the matcher over them *)

Lemma append_nil_r (s : string) : s +:+ EmptyString = s.
Proof. induction s as [|c s IH]; [done|]. by rewrite append_cons, IH. Qed.

Lemma all_chars_app p (a b : string) :
  Py.all_chars p (a +:+ b) = Py.all_chars p a && Py.all_chars p b.
Proof.
  induction a as [|c a IH]; [done|]. rewrite append_cons.
  cbn [Py.all_chars]. by rewrite IH, andb_assoc.
Qed.

Lemma mem_char_app c (a b : string) :
  Py.mem_char c (a +:+ b) = Py.mem_char c a || Py.mem_char c b.
Proof.
  induction a as [|x a IH]; [done|]. rewrite append_cons.
  cbn [Py.mem_char]. by rewrite IH, orb_assoc.
Qed.

Lemma lower_app (a b : string) :
  Py.lower (a +:+ b) = Py.lower a +:+ Py.lower b.
Proof.
  induction a as [|x a IH]; [done|]. rewrite append_cons.
  cbn [Py.lower]. by rewrite IH, append_cons.
Qed.

Lemma lower_length (s : string) :
  String.length (Py.lower s) = String.length s.
Proof. induction s as [|x s IH]; [done|]. cbn. by rewrite IH. Qed.

Lemma lower_char_space c : Py.is_space (Py.lower_char c) = Py.is_space c.
Proof. by destruct c as [[] [] [] [] [] [] [] []]. Qed.

Lemma lower_no_space (s : string) :
  Py.all_chars (fun c => negb (Py.is_space c)) s = true →
  Py.all_chars (fun c => negb (Py.is_space c)) (Py.lower s) = true.
Proof.
  induction s as [|x s IH]; [done|]. cbn [Py.all_chars Py.lower].
  intros [Hx Hs]%andb_true_iff. by rewrite lower_char_space, Hx, IH.
Qed.

Lemma no_space_mem (s : string) :
  Py.all_chars (fun c => negb (Py.is_space c)) s = true →
  Py.mem_char " " s = false.
Proof.
  induction s as [|x s IH]; [done|]. cbn [Py.all_chars Py.mem_char].
  intros [Hx Hs]%andb_true_iff. rewrite (IH Hs), orb_false_r.
  destruct (Ascii.eqb_spec " " x) as [<-|]; [done | done].
Qed.

Lemma one_word_chars (s : string) :
  Py.one_word s = true →
  Py.truthy s = true
  ∧ Py.all_chars (fun c => negb (Py.is_space c)) s = true
  ∧ Py.mem_char "/" s = false ∧ Py.mem_char "," s = false.
Proof.
  unfold Py.one_word. intros [Ht Hall]%andb_true_iff. split; [done|].
  clear Ht. induction s as [|x s IH]; [done|].
  cbn [Py.all_chars Py.mem_char] in *.
  apply andb_true_iff in Hall as [Hx Hs].
  destruct (IH Hs) as (H1 & H2 & H3).
  apply negb_true_iff, orb_false_iff in Hx as [Hsp Hx].
  apply orb_false_iff in Hx as [Hsl Hx].
  apply orb_false_iff in Hx as [Hco _].
  rewrite Hsp, H1, H2, H3, (Ascii.eqb_sym "/" x), (Ascii.eqb_sym "," x),
    Hsl, Hco. done.
Qed.

(** A substring occurs only in strings that have all its characters. *)
Lemma startswith_mem c (sub t : string) :
  Py.startswith sub t = true → Py.mem_char c sub = true →
  Py.mem_char c t = true.
Proof.
  revert t. induction sub as [|x sub IH]; intros t; [done|].
  destruct t as [|y t]; cbn [Py.startswith Py.mem_char]; [done|].
  intros [Hxy Hs]%andb_true_iff. apply Ascii.eqb_eq in Hxy as <-.
  intros [-> | H]%orb_true_iff; [done|].
  by rewrite (IH _ Hs H), orb_true_r.
Qed.

Lemma contains_mem c (sub t : string) :
  Py.contains sub t = true → Py.mem_char c sub = true →
  Py.mem_char c t = true.
Proof.
  induction t as [|y t IH]; cbn [Py.contains].
  - rewrite orb_false_r. apply startswith_mem.
  - intros [H | H]%orb_true_iff Hc; [by apply (startswith_mem c sub)|].
    cbn [Py.mem_char]. by rewrite (IH H Hc), orb_true_r.
Qed.

Lemma contains_spaced (sub t : string) :
  Py.mem_char " " sub = true →
  Py.all_chars (fun c => negb (Py.is_space c)) t = true →
  Py.contains sub t = false ∧ Py.startswith sub t = false.
Proof.
  intros Hsub Ht%no_space_mem. split.
  - destruct (Py.contains sub t) eqn:E; [|done].
    by rewrite (contains_mem " " _ _ E Hsub) in Ht.
  - destruct (Py.startswith sub t) eqn:E; [|done].
    by rewrite (startswith_mem " " _ _ E Hsub) in Ht.
Qed.

Lemma contains_app_r (sub t1 rest : string) :
  Py.contains sub rest = true → Py.contains sub (t1 +:+ rest) = true.
Proof.
  intros H. induction t1 as [|c t1 IH]; [done|]. rewrite append_cons.
  cbn [Py.contains]. by rewrite IH, orb_true_r.
Qed.

(** A substring that begins with a space does not begin inside a word. *)
Lemma contains_after_word (sub' t1 rest : string) :
  Py.all_chars (fun c => negb (Py.is_space c)) t1 = true →
  Py.contains (String " " sub') (t1 +:+ rest)
  = Py.contains (String " " sub') rest.
Proof.
  induction t1 as [|c t1 IH]; [done|]. rewrite append_cons.
  cbn [Py.all_chars]. intros [Hc Ht]%andb_true_iff.
  cbn [Py.contains Py.startswith]. rewrite (IH Ht).
  destruct (Ascii.eqb_spec " " c) as [<-|]; [done | done].
Qed.

(** Nor does one whose second character is a space, unless the word ends
    there. *)
Lemma contains_after_word_2 x (sub' t1 rest : string) :
  Py.all_chars (fun c => negb (Py.is_space c)) t1 = true →
  Py.startswith (String " " sub') rest = false →
  Py.contains (String x (String " " sub')) (t1 +:+ rest)
  = Py.contains (String x (String " " sub')) rest.
Proof.
  intros Ht Hrest. induction t1 as [|c t1 IH]; [done|].
  rewrite append_cons. cbn [Py.all_chars] in Ht.
  apply andb_true_iff in Ht as [Hc Ht]. rewrite <- (IH Ht).
  change (Py.contains (String x (String " " sub'))
            (String c (t1 +:+ rest)))
    with (Py.startswith (String x (String " " sub'))
            (String c (t1 +:+ rest))
          || Py.contains (String x (String " " sub')) (t1 +:+ rest)).
  change (Py.startswith (String x (String " " sub'))
            (String c (t1 +:+ rest)))
    with (Ascii.eqb x c && Py.startswith (String " " sub') (t1 +:+ rest)).
  assert (Py.startswith (String " " sub') (t1 +:+ rest) = false) as ->;
    [|by rewrite andb_false_r].
  destruct t1 as [|d t1]; [done|]. rewrite append_cons.
  cbn [Py.startswith]. cbn [Py.all_chars] in Ht.
  apply andb_true_iff in Ht as [Hd _].
  destruct (Ascii.eqb_spec " " d) as [<-|]; [done | done].
Qed.

(** [strip] leaves a text that begins and ends with a word as it is. *)
Lemma rstrip_word (b : string) :
  Py.truthy b = true →
  Py.all_chars (fun c => negb (Py.is_space c)) b = true →
  Py.rstrip_with Py.is_space b = b.
Proof.
  induction b as [|c b IH]; [done|]. intros _.
  cbn [Py.all_chars]. intros [Hc Hb]%andb_true_iff.
  apply negb_true_iff in Hc. cbn [Py.rstrip_with].
  destruct b as [|d b]; [by cbn; rewrite Hc|].
  by rewrite (IH eq_refl Hb).
Qed.

Lemma rstrip_before_word (x b : string) :
  Py.truthy b = true →
  Py.all_chars (fun c => negb (Py.is_space c)) b = true →
  Py.rstrip_with Py.is_space (x +:+ b) = x +:+ b.
Proof.
  intros Ht Hb. induction x as [|c x IH]; [by apply rstrip_word|].
  rewrite append_cons. cbn [Py.rstrip_with]. rewrite IH.
  destruct (x +:+ b) eqn:E; [|done].
  destruct x; [|by rewrite append_cons in E].
  change (b = EmptyString) in E. subst b. discriminate Ht.
Qed.

Lemma strip_between_words (a x b : string) :
  Py.one_word a = true → Py.one_word b = true →
  Py.strip (a +:+ x +:+ b) = a +:+ x +:+ b.
Proof.
  intros (Hta & Ha & _)%one_word_chars (Htb & Hb & _)%one_word_chars.
  unfold Py.strip, Py.strip_with.
  assert (Py.lstrip_with Py.is_space (a +:+ x +:+ b) = a +:+ x +:+ b) as ->.
  { destruct a as [|c a]; [done|]. rewrite append_cons.
    cbn [Py.all_chars] in Ha. apply andb_true_iff in Ha as [Hc _].
    apply negb_true_iff in Hc. cbn [Py.lstrip_with]. by rewrite Hc. }
  rewrite <- append_assoc. by apply rstrip_before_word.
Qed.

Lemma strip_word (a : string) : Py.one_word a = true → Py.strip a = a.
Proof.
  intros (Hta & Ha & _)%one_word_chars. unfold Py.strip, Py.strip_with.
  assert (Py.lstrip_with Py.is_space a = a) as ->.
  { destruct a as [|c a]; [done|].
    cbn [Py.all_chars] in Ha. apply andb_true_iff in Ha as [Hc _].
    apply negb_true_iff in Hc. cbn [Py.lstrip_with]. by rewrite Hc. }
  by apply rstrip_word.
Qed.

(** *** Stepping the matcher *)

Lemma run_Seq {A} r1 r2 prev s (k : option ascii → string → option A) :
  run (Seq r1 r2) prev s k = run r1 prev s (fun p' s' => run r2 p' s' k).
Proof. done. Qed.

Lemma run_Alt {A} r1 r2 prev s (k : option ascii → string → option A) :
  run (Alt r1 r2) prev s k
  = match run r1 prev s k with
    | Some x => Some x
    | None => run r2 prev s k
    end.
Proof. done. Qed.

(** A greedy run of white space stops before a character that is not
    white space, and at the end. *)
Lemma star_ws_stops {A} prev (s : string)
    (k : option ascii → string → option A) :
  match s with
  | EmptyString => True
  | String c _ => Py.is_space c = false
  end →
  run (Star ws) prev s k = k prev s.
Proof.
  destruct s as [|c s]; intros Hc; [done|].
  rewrite run_Star. cbn [String.length]. rewrite star_loop_S.
  unfold ws at 1. rewrite run_Chr_cons, Hc. done.
Qed.

Lemma plus_ws_one {A} prev w (s : string)
    (k : option ascii → string → option A) :
  Py.is_space w = true →
  match s with
  | EmptyString => True
  | String c _ => Py.is_space c = false
  end →
  run (plus ws) prev (String w s) k = k (Some w) s.
Proof.
  intros Hw Hs. unfold plus. rewrite run_Seq. unfold ws at 1.
  rewrite run_Chr_cons, Hw. by apply star_ws_stops.
Qed.

Lemma plus_ws_needs_space {A} prev c (s : string)
    (k : option ascii → string → option A) :
  Py.is_space c = false → run (plus ws) prev (String c s) k = None.
Proof.
  intros Hc. unfold plus. rewrite run_Seq. unfold ws at 1.
  by rewrite run_Chr_cons, Hc.
Qed.

(** [re.split] passes over a word at which the pattern cannot begin. *)
Lemma split_from_word (r : regex) (p : ascii → bool) (a rest : string) :
  (∀ prev c s, p c = true → match_end r prev (String c s) = None) →
  Py.all_chars p a = true →
  ∀ prev, ∃ prev' x l,
    split_from r prev' rest 0 = x :: l
    ∧ split_from r prev (a +:+ rest) 0 = (a +:+ x) :: l.
Proof.
  intros Hr. induction a as [|c a IH]; intros Ha prev.
  - exists prev. change (EmptyString +:+ rest) with rest.
    destruct rest as [|y rest]; [by exists EmptyString, []|].
    cbn [split_from].
    destruct (match_end r prev (String y rest)) as [[|n]|].
    + destruct (split_from r (Some y) rest 0); eexists _, _; by cbn.
    + by eexists _, _.
    + destruct (split_from r (Some y) rest 0); eexists _, _; by cbn.
  - cbn [Py.all_chars] in Ha. apply andb_true_iff in Ha as [Hc Ha].
    destruct (IH Ha (Some c)) as (prev' & x & l & Hx & Hsplit).
    exists prev', x, l. split; [done|]. rewrite append_cons.
    cbn [split_from]. rewrite (Hr prev c _ Hc), Hsplit. by cbn.
Qed.

Lemma split_from_one_word (r : regex) (p : ascii → bool) (b : string) :
  (∀ prev c s, p c = true → match_end r prev (String c s) = None) →
  Py.all_chars p b = true →
  ∀ prev, split_from r prev b 0 = [b].
Proof.
  intros Hr Hb prev.
  destruct (split_from_word r p b EmptyString Hr Hb prev)
    as (prev' & x & l & Hx & Hsplit).
  cbn in Hx. injection Hx as <- <-.
  by rewrite !append_nil_r in Hsplit.
Qed.

(** The pattern of the word "and" begins with white space, and matches
    one space, the three letters in any case and one space before a
    word. *)
Lemma and_re_needs_space prev c (s : string) :
  Py.is_space c = false → match_end and_re prev (String c s) = None.
Proof.
  intros Hc. unfold match_end, and_re. cbn [seqs]. rewrite run_Seq.
  by apply plus_ws_needs_space.
Qed.

Lemma and_re_at_word prev c1 c2 c3 (b : string) :
  Py.lower_char c1 = "a"%char → Py.lower_char c2 = "n"%char →
  Py.lower_char c3 = "d"%char →
  match b with
  | EmptyString => True
  | String c _ => Py.is_space c = false
  end →
  match_end and_re prev
    (String " " (String c1 (String c2 (String c3 (String " " b)))))
  = Some 5.
Proof.
  intros H1 H2 H3 Hb. unfold match_end, and_re. cbn [seqs ilit].
  rewrite run_Seq, plus_ws_one; [|done|].
  2:{ by rewrite <- lower_char_space, H1. }
  rewrite !run_Seq. unfold ichr.
  rewrite run_Chr_cons, H1. cbn [Ascii.eqb Bool.eqb andb].
  rewrite run_Seq, run_Chr_cons, H2.
  rewrite run_Chr_cons, H3.
  change (run (plus ws) (Some c3) (String " " b)
            (fun (_ : option ascii) (s' : string) =>
               Some (String.length
                       (String " "
                          (String c1 (String c2 (String c3 (String " " b)))))
                     - String.length s'))
          = Some 5).
  rewrite plus_ws_one; [|done|done]. cbn [String.length].
  apply (f_equal Some). lia.
Qed.

Lemma letter_plain c x :
  Py.lower_char c = x → Py.is_ascii_lower x = true →
  Py.is_space c = false ∧ Ascii.eqb "/" c = false
  ∧ Ascii.eqb "," c = false.
Proof.
  intros <-.
  destruct c as [[] [] [] [] [] [] [] []]; vm_compute; intros H;
    first [discriminate H | done].
Qed.

Lemma one_word_sep_free (s : string) :
  Py.one_word s = true →
  Py.all_chars (fun c => negb (Py.is_space c) && negb (Ascii.eqb "," c)) s
  = true.
Proof.
  intros (_ & Hs & _ & Hc)%one_word_chars.
  induction s as [|x s IH]; [done|].
  cbn [Py.all_chars Py.mem_char] in *.
  apply andb_true_iff in Hs as [Hx Hs].
  apply orb_false_iff in Hc as [Hcx Hc].
  by rewrite Hx, Hcx, (IH Hs Hc).
Qed.

Lemma word_stops (b : string) :
  Py.one_word b = true →
  match b with
  | EmptyString => True
  | String c _ => Py.is_space c = false
  end.
Proof.
  intros (_ & Hb & _)%one_word_chars. destruct b as [|c b]; [done|].
  cbn [Py.all_chars] in Hb. apply andb_true_iff in Hb as [Hc _].
  by apply negb_true_iff.
Qed.

(** The separator pattern of the graph builder begins with a comma or
    with white space, and matches an ampersand between two spaces. *)
Lemma list_sep_needs_start prev c (s : string) :
  negb (Py.is_space c) && negb (Ascii.eqb "," c) = true →
  match_end Network.list_sep_re prev (String c s) = None.
Proof.
  intros [Hsp Hco]%andb_true_iff. apply negb_true_iff in Hsp, Hco.
  unfold match_end, Network.list_sep_re. cbn [alts seqs].
  rewrite !run_Alt, !run_Seq. unfold chr at 1.
  rewrite run_Chr_cons, Hco. by rewrite !plus_ws_needs_space.
Qed.

Lemma list_sep_at_amp prev (b : string) :
  match b with
  | EmptyString => True
  | String c _ => Py.is_space c = false
  end →
  match_end Network.list_sep_re prev
    (String " " (String "&" (String " " b)))
  = Some 3.
Proof.
  intros Hb. unfold match_end, Network.list_sep_re. cbn [alts seqs lit].
  rewrite !run_Alt, !run_Seq. unfold chr.
  rewrite run_Chr_cons. cbn [Ascii.eqb Bool.eqb andb].
  rewrite !plus_ws_one; [|done..].
  rewrite !run_Seq, !run_Chr_cons. cbn [Ascii.eqb Bool.eqb andb].
  rewrite plus_ws_one; [|done|done]. cbn [String.length].
  apply (f_equal Some). lia.
Qed.

Lemma list_sep_at_and prev (b : string) :
  match b with
  | EmptyString => True
  | String c _ => Py.is_space c = false
  end →
  match_end Network.list_sep_re prev
    (String " " (String "a" (String "n" (String "d" (String " " b)))))
  = Some 5.
Proof.
  intros Hb. unfold match_end, Network.list_sep_re. cbn [alts seqs lit].
  rewrite !run_Alt, !run_Seq. unfold chr.
  rewrite run_Chr_cons. cbn [Ascii.eqb Bool.eqb andb].
  rewrite plus_ws_one; [|done|done].
  rewrite !run_Seq, !run_Chr_cons. cbn [Ascii.eqb Bool.eqb andb].
  rewrite !run_Seq, !run_Chr_cons. cbn [Ascii.eqb Bool.eqb andb].
  rewrite plus_ws_one; [|done|done]. cbn [String.length].
  apply (f_equal Some). lia.
Qed.

(** The graph builder keeps a name of one word as it is. *)
Lemma parse_part_word (w : string) :
  Py.one_word w = true → Network.parse_part w = [w].
Proof.
  intros Hw. unfold Network.parse_part. rewrite strip_word by done.
  pose proof (one_word_chars w Hw) as (Htw & Hsw & _).
  destruct (contains_spaced " & " w eq_refl Hsw) as [-> _].
  by rewrite Htw.
Qed.

(** A text of two words around a separator is not one of the null
    values of the graph builder. *)
Lemma parse_artist_string_guard (a sep b : string) :
  Py.one_word a = true → Py.one_word b = true →
  3 ≤ String.length sep →
  negb (Py.truthy (a +:+ sep +:+ b))
  || Py.in_list (Py.lower (a +:+ sep +:+ b))
       ["none"; "null"; EmptyString]
  = false.
Proof.
  intros Ha Hb Hsep.
  assert (Py.truthy (a +:+ sep +:+ b) = true) as ->.
  { destruct a as [|c a]; [done|]. by rewrite append_cons. }
  assert (5 ≤ String.length (Py.lower (a +:+ sep +:+ b))) as Hlen.
  { rewrite lower_length, !append_length.
    destruct a; [done|]. destruct b; [done|]. cbn [String.length]. lia. }
  unfold Py.in_list. cbn [existsb negb orb].
  repeat match goal with
         | |- context [String.eqb ?x ?y] =>
             destruct (String.eqb_spec x y) as [Heq|_];
             [rewrite Heq in Hlen; cbn in Hlen; lia|]
         end.
  done.
Qed.

Lemma contains_cons (sub : string) c (s : string) :
  Py.contains sub (String c s)
  = Py.startswith sub (String c s) || Py.contains sub s.
Proof. done. Qed.

Lemma startswith_cons x (sub : string) y (s : string) :
  Py.startswith (String x sub) (String y s)
  = Ascii.eqb x y && Py.startswith sub s.
Proof. done. Qed.

Lemma concat_pieces {B C D} (f : C → list D) (g : B → list C)
    (parts : list B) :
  concat (map (fun part => concat (map f (g part))) parts)
  = concat (map f (concat (map g parts))).
Proof.
  induction parts as [|part parts IH]; [done|].
  cbn [map concat]. by rewrite IH, map_app, concat_app.
Qed.

(** C7, as amended. [llm_parser._split_artists] splits the text on the
    with-marker and then on commas; a piece whose lower-cased form contains
    [" and "] and does not contain ["& the"] is split with the pattern of
    the word "and", and every other piece is kept whole. A text without
    marker or comma is therefore kept whole when it has no [" and "] or has
    ["& the"]; two names of one word joined by the word "and", in any case,
    are separated; two joined by ["&"] are not, as in "A & B and C". The
    title "Lady Venus & The Vixens w/ Band X" yields exactly
    "Lady Venus & The Vixens" and "Band X".
    [parse_artists_network._parse_artist_string] has no rule for "the": it
    separates two names of one word joined by ["&"] or by the lower-case
    word "and", and "Lady Venus & The Vixens" gives "Lady Venus" and
    "The Vixens". *)
Theorem split_artists_ampersand :
  (∀ text : string,
     _split_artists text
     = map Py.strip
         (List.filter (fun a => Py.truthy (Py.strip a))
            (concat
               (map (fun piece =>
                       if Py.contains " and " (Py.lower piece)
                          && negb (Py.contains "& the" (Py.lower piece))
                       then re_split and_re piece
                       else [piece])
                  (concat (map (re_split comma_re)
                             (re_split with_re text)))))))
  ∧
  (∀ text : string,
     Py.mem_char "/" text = false →
     Py.mem_char "," text = false →
     Py.contains " and " (Py.lower text) = false
     ∨ Py.contains "& the" (Py.lower text) = true →
     _split_artists text
     = if Py.truthy (Py.strip text) then [Py.strip text] else [])
  ∧
  (∀ (a b : string) (c1 c2 c3 : ascii),
     Py.one_word a = true → Py.one_word b = true →
     Py.lower_char c1 = "a"%char → Py.lower_char c2 = "n"%char →
     Py.lower_char c3 = "d"%char →
     _split_artists
       (a +:+ " " +:+ String c1 (String c2 (String c3 EmptyString))
          +:+ " " +:+ b)
     = [a; b])
  ∧
  (∀ a b : string,
     Py.one_word a = true → Py.one_word b = true →
     _split_artists (a +:+ " & " +:+ b) = [a +:+ " & " +:+ b])
  ∧
  (∀ a b : string,
     Py.one_word a = true → Py.one_word b = true →
     Network._parse_artist_string (a +:+ " & " +:+ b) = [a; b]
     ∧ Network._parse_artist_string (a +:+ " and " +:+ b) = [a; b])
  ∧ _split_artists "A & B and C" = ["A & B"; "C"]
  ∧ _split_artists "Lady Venus & The Vixens w/ Band X"
    = ["Lady Venus & The Vixens"; "Band X"]
  ∧ Network._parse_artist_string "Lady Venus & The Vixens"
    = ["Lady Venus"; "The Vixens"].
Proof.
  assert (∀ text : string,
            Py.mem_char "/" text = false →
            Py.mem_char "," text = false →
            _split_artists text
            = map Py.strip
                (List.filter (fun a => Py.truthy (Py.strip a))
                   (split_subpart text))) as Hone.
  { intros text Hslash Hcomma. unfold _split_artists, re_split.
    rewrite (split_from_no_match with_re "/" text with_re_needs_slash None
               Hslash).
    cbn [map concat].
    rewrite (split_from_no_match comma_re "," text comma_re_needs_comma
               None Hcomma).
    cbn [map concat]. by rewrite !app_nil_r. }
  split_and!; try (vm_compute; reflexivity).
  - intros text. unfold _split_artists.
    by rewrite (concat_pieces split_subpart (re_split comma_re)).
  - intros text Hslash Hcomma Hand. rewrite (Hone text Hslash Hcomma).
    assert (split_subpart text = [text]) as ->.
    { unfold split_subpart. destruct Hand as [-> | ->]; [done|].
      by rewrite andb_false_r. }
    cbn [List.filter]. by destruct (Py.truthy (Py.strip text)).
  - intros a b c1 c2 c3 Ha Hb H1 H2 H3.
    change (a +:+ " " +:+ String c1 (String c2 (String c3 EmptyString))
              +:+ " " +:+ b)
      with (a +:+ String " "
                    (String c1 (String c2 (String c3 (String " " b))))).
    pose proof (one_word_chars a Ha) as (Hta & Hsa & Hla & Hca).
    pose proof (one_word_chars b Hb) as (Htb & Hsb & Hlb & Hcb).
    destruct (letter_plain c1 _ H1 eq_refl) as (Hs1 & Hl1 & Hk1).
    destruct (letter_plain c2 _ H2 eq_refl) as (Hs2 & Hl2 & Hk2).
    destruct (letter_plain c3 _ H3 eq_refl) as (Hs3 & Hl3 & Hk3).
    rewrite Hone.
    2:{ rewrite mem_char_app, Hla. cbn [Py.mem_char orb].
        by rewrite Hl1, Hl2, Hl3, Hlb. }
    2:{ rewrite mem_char_app, Hca. cbn [Py.mem_char orb].
        by rewrite Hk1, Hk2, Hk3, Hcb. }
    unfold split_subpart. rewrite lower_app. cbn [Py.lower].
    rewrite H1, H2, H3.
    change (Py.lower_char " ") with " "%char.
    assert (Py.contains " and "
              (Py.lower a +:+ String " " (String "a" (String "n"
                 (String "d" (String " " (Py.lower b))))))
            = true) as ->.
    { by apply contains_app_r. }
    assert (Py.contains "& the"
              (Py.lower a +:+ String " " (String "a" (String "n"
                 (String "d" (String " " (Py.lower b))))))
            = false) as ->.
    { rewrite contains_after_word_2; [|by apply lower_no_space | done].
      destruct (contains_spaced "& the" (Py.lower b) eq_refl
                  (lower_no_space b Hsb)) as [Hc _].
      cbn [Py.contains Py.startswith Ascii.eqb Bool.eqb andb orb].
      exact Hc. }
    cbn [andb negb]. unfold re_split.
    destruct (split_from_word and_re (fun c => negb (Py.is_space c)) a
                (String " "
                   (String c1 (String c2 (String c3 (String " " b)))))
                (fun prev c s Hc =>
                   and_re_needs_space prev c s
                     (proj1 (negb_true_iff _) Hc))
                Hsa None) as (prev' & x & l & Hx & ->).
    cbn [split_from] in Hx.
    rewrite (and_re_at_word prev' c1 c2 c3 b H1 H2 H3 (word_stops b Hb))
      in Hx.
    rewrite (split_from_one_word and_re (fun c => negb (Py.is_space c)) b
               (fun prev c s Hc =>
                  and_re_needs_space prev c s
                    (proj1 (negb_true_iff _) Hc))
               Hsb) in Hx.
    injection Hx as <- <-. rewrite append_nil_r.
    cbn [List.filter]. rewrite !strip_word by done. rewrite Hta, Htb.
    cbn [map]. by rewrite !strip_word.
  - intros a b Ha Hb.
    pose proof (one_word_chars a Ha) as (Hta & Hsa & Hla & Hca).
    pose proof (one_word_chars b Hb) as (Htb & Hsb & Hlb & Hcb).
    rewrite Hone.
    2:{ by rewrite !mem_char_app, Hla, Hlb. }
    2:{ by rewrite !mem_char_app, Hca, Hcb. }
    unfold split_subpart. rewrite !lower_app.
    assert (Py.contains " and " (Py.lower a +:+ Py.lower " & " +:+ Py.lower b)
            = false) as ->.
    { rewrite contains_after_word by by apply lower_no_space.
      destruct (contains_spaced " and " (Py.lower b) eq_refl
                  (lower_no_space b Hsb)) as [Hc _].
      destruct (contains_spaced "and " (Py.lower b) eq_refl
                  (lower_no_space b Hsb)) as [_ Hs].
      change (Py.lower " & " +:+ Py.lower b)
        with (String " " (String "&" (String " " (Py.lower b)))).
      rewrite !contains_cons, !startswith_cons.
      cbn [Ascii.eqb Bool.eqb andb orb]. by rewrite Hs, Hc. }
    cbn [andb List.filter].
    rewrite (strip_between_words a " & " b Ha Hb).
    assert (Py.truthy (a +:+ " & " +:+ b) = true) as ->.
    { destruct a as [|c a]; [done|]. by rewrite append_cons. }
    cbn [map]. by rewrite (strip_between_words a " & " b Ha Hb).
  - intros a b Ha Hb. split.
    + unfold Network._parse_artist_string.
      rewrite (parse_artist_string_guard a " & " b Ha Hb) by (cbn; lia).
      unfold re_split.
      change (" & " +:+ b) with (String " " (String "&" (String " " b))).
      destruct (split_from_word Network.list_sep_re
                  (fun c => negb (Py.is_space c) && negb (Ascii.eqb "," c))
                  a (String " " (String "&" (String " " b)))
                  list_sep_needs_start (one_word_sep_free a Ha) None)
        as (prev' & x & l & Hx & ->).
      cbn [split_from] in Hx.
      rewrite (list_sep_at_amp prev' b (word_stops b Hb)) in Hx.
      rewrite (split_from_one_word Network.list_sep_re
                 (fun c => negb (Py.is_space c) && negb (Ascii.eqb "," c))
                 b list_sep_needs_start (one_word_sep_free b Hb)) in Hx.
      injection Hx as <- <-. rewrite append_nil_r. cbn [map concat].
      by rewrite !parse_part_word.
    + unfold Network._parse_artist_string.
      rewrite (parse_artist_string_guard a " and " b Ha Hb) by (cbn; lia).
      unfold re_split.
      change (" and " +:+ b)
        with (String " "
                (String "a" (String "n" (String "d" (String " " b))))).
      destruct (split_from_word Network.list_sep_re
                  (fun c => negb (Py.is_space c) && negb (Ascii.eqb "," c))
                  a (String " "
                       (String "a" (String "n" (String "d" (String " " b)))))
                  list_sep_needs_start (one_word_sep_free a Ha) None)
        as (prev' & x & l & Hx & ->).
      cbn [split_from] in Hx.
      rewrite (list_sep_at_and prev' b (word_stops b Hb)) in Hx.
      rewrite (split_from_one_word Network.list_sep_re
                 (fun c => negb (Py.is_space c) && negb (Ascii.eqb "," c))
                 b list_sep_needs_start (one_word_sep_free b Hb)) in Hx.
      injection Hx as <- <-. rewrite append_nil_r. cbn [map concat].
      by rewrite !parse_part_word.
Qed.

(** C7, witness: two names of one word, joined by "and" and by ["&"]. *)
Lemma split_artists_ampersand_witness :
  _split_artists "Tom AND Jerry" = ["Tom"; "Jerry"]
  ∧ _split_artists "Tom & Jerry" = ["Tom & Jerry"]
  ∧ Network._parse_artist_string "Tom & Jerry" = ["Tom"; "Jerry"]
  ∧ Network._parse_artist_string "Tom and Jerry" = ["Tom"; "Jerry"].
Proof.
  destruct split_artists_ampersand as (_ & _ & Hand & Hamp & Hgraph & _).
  split_and!.
  - apply (Hand "Tom" "Jerry" "A"%char "N"%char "D"%char); reflexivity.
  - apply (Hamp "Tom" "Jerry"); reflexivity.
  - apply (Hgraph "Tom" "Jerry"); reflexivity.
  - apply (Hgraph "Tom" "Jerry"); reflexivity.
Defined.

(** C7, counterexample: in [llm_parser], ["&"] does not split although the
    next word is not "the", and "and" does split although the next word is
    "the"; in the graph builder, ["&"] splits although the next word is
    "The". *)
Lemma split_artists_heuristic :
  _split_artists "Band A & Band B" = ["Band A & Band B"]
  ∧ _split_artists "Tom and the Band" = ["Tom"; "the Band"]
  ∧ Network._parse_artist_string "Lady Venus & The Vixens"
    = ["Lady Venus"; "The Vixens"].
Proof. split_and!; vm_compute; reflexivity. Qed.

End Tokenizer.

(** ** Colliding edges after a merge *)

Section Collisions.
Import NetworkEdits.

Implicit Types (e x : Edge) (es final : list Edge) (k : string * string).

Lemma combine_key e x : edge_key (combine e x) = edge_key e.
Proof. unfold combine. by destruct (shows x), (shows e). Qed.

Lemma merge_into_keys x final :
  map edge_key (merge_into x final) = map edge_key final.
Proof.
  induction final as [|e final IH]; [done|]. cbn [merge_into].
  case_bool_decide; cbn [map]; [by rewrite combine_key | by rewrite IH].
Qed.

(** With one edge per key, [merge_into] rewrites the edge of that key and
    nothing else. *)
Lemma merge_into_elem x final e' :
  NoDup (map edge_key final) →
  e' ∈ merge_into x final →
  (e' ∈ final ∧ edge_key e' ≠ edge_key x)
  ∨ (∃ e, e ∈ final ∧ edge_key e = edge_key x ∧ e' = combine e x).
Proof.
  induction final as [|e final IH]; cbn [merge_into map].
  { intros _ H. by apply elem_of_nil in H. }
  intros Hnd H. apply NoDup_cons in Hnd as [Hnotin Hnd].
  case_bool_decide as Hk.
  - apply elem_of_cons in H as [-> | H].
    + right. exists e. split; [left|done].
    + left. split; [by right|]. intros Heq. apply Hnotin.
      rewrite Hk, <- Heq. by apply (list_elem_of_fmap_2 edge_key).
  - apply elem_of_cons in H as [-> | H].
    + left. split; [left | done].
    + destruct (IH Hnd H) as [[? ?] | (e0 & ? & ? & ?)].
      * left. split; [by right | done].
      * right. exists e0. split; [by right | done].
Qed.

Lemma same_key_snoc k es x :
  same_key k (es ++ [x])
  = same_key k es ++ (if decide (edge_key x = k) then [x] else []).
Proof.
  unfold same_key. by rewrite filter_app.
Qed.

Lemma shows_for_snoc_ne k es x :
  edge_key x ≠ k → shows_for k (es ++ [x]) = shows_for k es.
Proof.
  intros Hne. unfold shows_for. rewrite same_key_snoc.
  rewrite decide_False by done. by rewrite app_nil_r.
Qed.

Lemma shows_for_snoc_eq es x :
  shows_for (edge_key x) (es ++ [x])
  = shows_for (edge_key x) es ++ default [] (shows x).
Proof.
  unfold shows_for. rewrite same_key_snoc.
  rewrite decide_True by done.
  rewrite map_app, concat_app. cbn [map concat]. by rewrite app_nil_r.
Qed.

Lemma same_key_none k es :
  (∀ e, e ∈ es → edge_key e ≠ k) → same_key k es = [].
Proof.
  intros H. unfold same_key. induction es as [|e es IH]; [done|].
  rewrite filter_cons_False by (apply H; left).
  apply IH. intros e' He'. apply H. by right.
Qed.


Lemma dedup_step_inv es st x :
  dedup_inv es st → is_Some (shows x) →
  dedup_inv (es ++ [x]) (dedup_step st x).
Proof.
  destruct st as [seen final].
  intros (Hseen & Hnd & Hin & Hfrom & Hsh) [l Hl].
  cbn [fst snd] in *. unfold dedup_step. case_bool_decide as Hk.
  - (* the key is known: the edge is merged into the one kept *)
    unfold dedup_inv. cbn [fst snd]. rewrite merge_into_keys.
    split_and!; [done | done | | |].
    + intros e [He | ->%list_elem_of_singleton]%elem_of_app; [by apply Hin|].
      by apply Hseen.
    + intros e' He'.
      destruct (merge_into_elem _ _ _ Hnd He')
        as [[He ?] | (e & He & Hke & ->)].
      * destruct (Hfrom _ He) as (e & ? & ?). exists e.
        split; [|done]. apply elem_of_app. by left.
      * exists x. split; [apply elem_of_app; right; by left|].
        by rewrite combine_key.
    + intros e' He'.
      destruct (merge_into_elem _ _ _ Hnd He')
        as [[He Hne] | (e & He & Hke & ->)].
      * rewrite shows_for_snoc_ne by done. rewrite same_key_snoc.
        rewrite decide_False by done. rewrite app_nil_r. by apply Hsh.
      * destruct (Hsh _ He) as [Hshe _].
        rewrite combine_key, Hke, shows_for_snoc_eq, Hl. cbn [default].
        rewrite <- Hke. unfold combine. rewrite Hl, Hshe. cbn [shows weight].
        done.
  - (* a new key: the edge is kept as it is *)
    assert (edge_key x ∉ map edge_key final) as Hfresh
        by (intros ?; by apply Hk, Hseen).
    assert (∀ e, e ∈ es → edge_key e ≠ edge_key x) as Hnone
        by (intros e He Heq; apply Hfresh; rewrite <- Heq; by apply Hin).
    unfold dedup_inv. cbn [fst snd]. rewrite map_app. cbn [map].
    split_and!.
    + intros k. rewrite elem_of_union, elem_of_singleton, elem_of_app,
        list_elem_of_singleton, Hseen. done.
    + apply NoDup_app. split_and!; [done | | apply NoDup_singleton].
      intros k Hkin ->%list_elem_of_singleton. done.
    + intros e [He | ->%list_elem_of_singleton]%elem_of_app;
        apply elem_of_app; [left; by apply Hin | right; by left].
    + intros e' [He' | ->%list_elem_of_singleton]%elem_of_app.
      * destruct (Hfrom _ He') as (e & ? & ?). exists e.
        split; [|done]. apply elem_of_app. by left.
      * exists x. split; [apply elem_of_app; right; by left | done].
    + intros e' [He' | ->%list_elem_of_singleton]%elem_of_app.
      * assert (edge_key x ≠ edge_key e') as Hne.
        { intros Heq. apply Hfresh. rewrite Heq.
          by apply (list_elem_of_fmap_2 edge_key). }
        rewrite shows_for_snoc_ne by done. rewrite same_key_snoc.
        rewrite decide_False by done. rewrite app_nil_r. by apply Hsh.
      * rewrite shows_for_snoc_eq, same_key_snoc, Hl.
        rewrite decide_True by done. unfold shows_for.
        rewrite (same_key_none _ _ Hnone). cbn. split; [done | lia].
Qed.

Lemma dedup_inv_all es :
  Forall (fun e => is_Some (shows e)) es →
  dedup_inv es (foldl dedup_step (∅, []) es).
Proof.
  induction es as [|x es IH] using rev_ind; intros Hall.
  - unfold dedup_inv. cbn. split_and!; try done.
    + intros k. split; [set_solver | intros H; by apply elem_of_nil in H].
    + apply NoDup_nil_2.
    + intros e H. by apply elem_of_nil in H.
    + intros e H. by apply elem_of_nil in H.
    + intros e H. by apply elem_of_nil in H.
  - apply Forall_app in Hall as [Hes Hx]. rewrite foldl_app. cbn [foldl].
    apply dedup_step_inv; [by apply IH|].
    by inversion Hx.
Qed.

Lemma two_colliding_edges (e1 e2 : Edge) :
  edge_key e1 = edge_key e2 →
  remove_duplicate_edges [e1; e2] = [combine e1 e2].
Proof.
  intros Hk. unfold remove_duplicate_edges. cbn [foldl dedup_step].
  rewrite bool_decide_eq_false_2 by set_solver. cbn [foldl dedup_step].
  rewrite bool_decide_eq_true_2 by set_solver.
  cbn [snd app merge_into]. by rewrite bool_decide_eq_true_2.
Qed.

(** C4, as amended. Among re-pointed edges that all carry a show list,
    [update_network_data] keeps exactly one edge for each unordered pair
    and drops none of the pairs; the edge kept carries the show lists of
    all edges of its pair, concatenated in edge order (a show attached to
    two of them appears twice), and once two edges have collided its
    weight is the length of that list. For two colliding edges whose
    weights are the lengths of their own lists this is the sum of the two
    weights. *)
Theorem colliding_edges_combined :
  (∀ es,
     Forall (fun e => is_Some (shows e)) es →
     let final_edges := remove_duplicate_edges es in
     NoDup (map edge_key final_edges)
     ∧ (∀ e, e ∈ es → ∃ e', e' ∈ final_edges ∧ edge_key e' = edge_key e)
     ∧ (∀ e', e' ∈ final_edges →
          shows e' = Some (shows_for (edge_key e') es)
          ∧ (2 ≤ length (same_key (edge_key e') es) →
             weight e' = Z.of_nat (length (shows_for (edge_key e') es)))))
  ∧
  (∀ e1 e2 l1 l2,
     edge_key e1 = edge_key e2 →
     shows e1 = Some l1 → shows e2 = Some l2 →
     weight e1 = Z.of_nat (length l1) → weight e2 = Z.of_nat (length l2) →
     ∃ e', remove_duplicate_edges [e1; e2] = [e']
           ∧ shows e' = Some (l1 ++ l2)
           ∧ weight e' = (weight e1 + weight e2)%Z).
Proof.
  split.
  - intros es Hall. unfold remove_duplicate_edges.
    destruct (dedup_inv_all es Hall) as (_ & Hnd & Hin & _ & Hsh).
    split_and!; [done | | done].
    intros e He. apply Hin in He.
    apply (list_elem_of_fmap_1 edge_key) in He as (e' & ? & ?). eauto.
  - intros e1 e2 l1 l2 Hk H1 H2 Hw1 Hw2. exists (combine e1 e2).
    split; [by apply two_colliding_edges|].
    unfold combine. rewrite H1, H2. cbn [shows weight].
    split; [done|]. rewrite length_app. lia.
Qed.

(** C4, witness: the network in which each weight counts the attached
    shows, after "neon tree" has been re-pointed to "neon trees". *)
Lemma colliding_edges_combined_witness :
  ∃ e', remove_duplicate_edges
          [Examples.edge "neon trees" 2
             (Some [Examples.show_a; Examples.show_b]);
           Examples.edge "neon trees" 1 (Some [Examples.show_c])]
        = [e']
        ∧ shows e'
          = Some ([Examples.show_a; Examples.show_b] ++ [Examples.show_c])
        ∧ weight e' = (2 + 1)%Z.
Proof.
  apply (proj2 colliding_edges_combined
           (Examples.edge "neon trees" 2
              (Some [Examples.show_a; Examples.show_b]))
           (Examples.edge "neon trees" 1 (Some [Examples.show_c])));
    reflexivity.
Defined.

(** The example of the specification, through the whole update. *)
Example merge_typo_counted :
  edges (update_network_data Examples.network_counted ∅ Examples.merge_typo)
  = [Examples.edge "neon trees" 3
       (Some [Examples.show_a; Examples.show_b; Examples.show_c])]
  ∧ map id (nodes (update_network_data Examples.network_counted ∅
                     Examples.merge_typo))
    = ["band x"; "neon trees"].
Proof. split; vm_compute; reflexivity. Qed.

(** C4, counterexample: two colliding edges of weights 2 and 1 that carry
    the same show. The edge kept has weight 2, not 3, and lists the show
    twice. *)
Lemma merge_typo_shared :
  ∃ e', edges (update_network_data Examples.network_shared ∅
                 Examples.merge_typo) = [e']
        ∧ weight e' = 2%Z ∧ weight e' ≠ (2 + 1)%Z
        ∧ shows e' = Some [Examples.show_a; Examples.show_a].
Proof.
  eexists. split; [vm_compute; reflexivity|]. cbn [weight shows].
  split_and!; done.
Qed.

(** [fix_w_artists.update_network_file] keeps the first edge of a pair. *)
Lemma fix_w_keeps_first (e1 e2 : Edge) :
  edge_key e1 = edge_key e2 → FixW.remove_duplicate_edges [e1; e2] = [e1].
Proof.
  intros Hk. unfold FixW.remove_duplicate_edges.
  cbn [foldl FixW.keep_first].
  rewrite bool_decide_eq_false_2 by set_solver. cbn [foldl FixW.keep_first].
  by rewrite bool_decide_eq_true_2 by set_solver.
Qed.

End Collisions.

(** ** The index along a guarded history *)

Section Index.
Import DataModel AdminServer Resolver.

Implicit Types (d arts ms : list Artist) (a b m : Artist) (i k : string).
Implicit Types (idx : gmap string string) (s : DataStore).

(** *** The dictionary of artists *)

Lemma artists_get_None d i : artists_get i d = None ↔ i ∉ map a_id d.
Proof.
  unfold artists_get. induction d as [|b d IH]; cbn [find map].
  - split; [intros _ H; by apply elem_of_nil in H | done].
  - destruct (String.eqb (a_id b) i) eqn:E.
    + apply String.eqb_eq in E. split; [done|]. intros H. destruct H.
      rewrite E. left.
    + apply String.eqb_neq in E. rewrite IH, not_elem_of_cons. naive_solver.
Qed.

Lemma artists_get_elem d a :
  NoDup (map a_id d) → a ∈ d → artists_get (a_id a) d = Some a.
Proof.
  unfold artists_get. induction d as [|b d IH]; cbn [find map].
  { intros _ H. by apply elem_of_nil in H. }
  intros [Hb Hnd]%NoDup_cons [-> | Ha]%elem_of_cons.
  - by rewrite String.eqb_refl.
  - destruct (String.eqb (a_id b) (a_id a)) eqn:E; [|by apply IH].
    apply String.eqb_eq in E. destruct Hb. rewrite E.
    by apply (list_elem_of_fmap_2 a_id).
Qed.

Lemma artists_set_new d a :
  artists_get (a_id a) d = None → artists_set a d = d ++ [a].
Proof.
  unfold artists_get. induction d as [|b d IH]; cbn [find artists_set app].
  - done.
  - destruct (String.eqb (a_id b) (a_id a)); [done|]. intros H.
    by rewrite IH.
Qed.

Lemma artists_set_ids d a :
  a_id a ∈ map a_id d → map a_id (artists_set a d) = map a_id d.
Proof.
  induction d as [|b d IH]; cbn [artists_set map].
  { intros H. by apply elem_of_nil in H. }
  destruct (String.eqb (a_id b) (a_id a)) eqn:E.
  - apply String.eqb_eq in E. intros _. cbn [map]. by rewrite E.
  - apply String.eqb_neq in E. intros [? | Hin]%elem_of_cons; [done|].
    cbn [map]. by rewrite IH.
Qed.

Lemma artists_set_NoDup d a :
  NoDup (map a_id d) → NoDup (map a_id (artists_set a d)).
Proof.
  intros Hnd. destruct (artists_get (a_id a) d) as [b|] eqn:E.
  - rewrite artists_set_ids; [done|].
    pose proof (artists_get_id _ _ _ E) as <-.
    apply (list_elem_of_fmap_2 a_id), list_elem_of_In.
    by apply artists_get_In in E.
  - rewrite (artists_set_new _ _ E), map_app. cbn [map].
    apply NoDup_app. split_and!; [done | | apply NoDup_singleton].
    intros i Hi ->%list_elem_of_singleton. by apply artists_get_None in E.
Qed.

(** After [d[a.id] = a] the dictionary holds [a] and the entries of [d]
    under other ids. *)
Lemma artists_set_elem d a b :
  NoDup (map a_id d) →
  b ∈ artists_set a d ↔ b = a ∨ (b ∈ d ∧ a_id b ≠ a_id a).
Proof.
  induction d as [|c d IH]; cbn [artists_set map].
  { intros _. rewrite list_elem_of_singleton. split; [by left|].
    intros [? | [H _]]; [done | by apply elem_of_nil in H]. }
  intros [Hc Hnd]%NoDup_cons.
  destruct (String.eqb (a_id c) (a_id a)) eqn:E.
  - apply String.eqb_eq in E. rewrite !elem_of_cons. split.
    + intros [? | Hb]; [by left|]. right. split; [by right|].
      intros Heq. apply Hc. rewrite E, <- Heq.
      by apply (list_elem_of_fmap_2 a_id).
    + intros [? | [[-> | Hb] Hne]]; [by left | done | by right].
  - apply String.eqb_neq in E. rewrite !elem_of_cons, (IH Hnd).
    naive_solver.
Qed.

Lemma artists_set_idem d a : artists_set a (artists_set a d) = artists_set a d.
Proof.
  induction d as [|c d IH]; cbn [artists_set].
  - by rewrite String.eqb_refl.
  - destruct (String.eqb (a_id c) (a_id a)) eqn:E; cbn [artists_set].
    + by rewrite String.eqb_refl.
    + by rewrite E, IH.
Qed.

(** *** The rebuilt index *)

Lemma rebuild_snoc arts a :
  rebuild (arts ++ [a]) = index_artist (rebuild arts) a.
Proof. unfold rebuild. by rewrite foldl_app. Qed.

Lemma keys_distinct_sub arts arts' :
  (∀ a, a ∈ arts' → a ∈ arts) → keys_distinct arts → keys_distinct arts'.
Proof. intros Hsub Hd a b k Ha Hb. apply Hd; by apply Hsub. Qed.

(** With distinct keys, the rebuilt index maps a key to the id of the
    entity that has it. *)
Lemma rebuild_lookup arts :
  keys_distinct arts →
  ∀ k i, rebuild arts !! k = Some i
         ↔ ∃ a, a ∈ arts ∧ k ∈ artist_keys a ∧ a_id a = i.
Proof.
  induction arts as [|a arts IH] using rev_ind; intros Hd k i.
  - unfold rebuild. cbn [foldl]. rewrite lookup_empty. split; [done|].
    intros (a & Ha & _). by apply elem_of_nil in Ha.
  - rewrite rebuild_snoc, index_artist_lookup.
    assert (keys_distinct arts) as Hd'.
    { apply (keys_distinct_sub _ _ (λ b Hb, proj2 (elem_of_app _ _ b)
                                              (or_introl Hb)) Hd). }
    case_decide as Hk.
    + split.
      * intros [= <-]. exists a. split; [|done]. apply elem_of_app.
        right. by left.
      * intros (b & Hb & Hkb & <-). f_equal.
        apply (Hd a b k); [apply elem_of_app; right; by left | done..].
    + rewrite (IH Hd'). split.
      * intros (b & Hb & ?). exists b. split; [|done].
        apply elem_of_app. by left.
      * intros (b & [Hb | ->%list_elem_of_singleton]%elem_of_app & Hkb & ?);
          [by exists b | done].
Qed.

Lemma rebuild_unique idx arts :
  keys_distinct arts →
  (∀ k i, idx !! k = Some i
          ↔ ∃ a, a ∈ arts ∧ k ∈ artist_keys a ∧ a_id a = i) →
  idx = rebuild arts.
Proof.
  intros Hd Hspec. apply map_eq. intros k. apply option_eq. intros i.
  by rewrite Hspec, (rebuild_lookup _ Hd).
Qed.

(** *** Lookups in a consistent store *)

Lemma find_None_unowned s name b :
  consistent s → find_artist_by_name s name = None →
  b ∈ _artists s → _normalize_name name ∉ artist_keys b.
Proof.
  intros (Hnd & Ht & Hd & Hidx) Hfind Hb Hk.
  unfold find_artist_by_name in Hfind. rewrite Hidx in Hfind.
  assert (rebuild (_artists s) !! _normalize_name name = Some (a_id b)) as E
      by (apply (rebuild_lookup _ Hd); eauto).
  rewrite E, (Ht _ Hb), (artists_get_elem _ _ Hnd Hb) in Hfind. done.
Qed.

Lemma first_alias_hit_None s aliases alias :
  first_alias_hit s aliases = None → alias ∈ aliases →
  find_artist_by_name s alias = None.
Proof.
  induction aliases as [|al als IH]; cbn [first_alias_hit].
  { intros _ H. by apply elem_of_nil in H. }
  destruct (find_artist_by_name s al) eqn:E; [done|].
  intros H [-> | Hin]%elem_of_cons; [done | by apply IH].
Qed.

(** *** Each guarded mutation keeps the store consistent *)

Lemma empty_consistent : consistent empty_store.
Proof.
  unfold consistent, empty_store. cbn. split_and!; try done.
  - apply NoDup_nil_2.
  - intros a H. by apply elem_of_nil in H.
  - intros a b k H. by apply elem_of_nil in H.
Qed.

Lemma add_consistent s a :
  consistent s →
  Py.truthy (a_id a) = true →
  get_artist s (a_id a) = None →
  ¬ owned_elsewhere s a →
  consistent (add_artist s a).
Proof.
  intros (Hnd & Ht & Hd & Hidx) Hta Hnew Hfree.
  unfold get_artist in Hnew.
  unfold consistent, add_artist. cbn [_artists _artist_index].
  rewrite (artists_set_new _ _ Hnew), Hidx, rebuild_snoc, map_app.
  apply artists_get_None in Hnew. split_and!; [| | |done].
  - apply NoDup_app. split_and!; [done | | apply NoDup_singleton].
    intros i Hi ->%list_elem_of_singleton. done.
  - intros b [Hb | ->%list_elem_of_singleton]%elem_of_app; auto.
  - assert (∀ b k, b ∈ _artists s → k ∈ artist_keys a →
                   k ∈ artist_keys b → False) as Hno.
    { intros b k Hb Hka Hkb. apply Hfree. exists b, k.
      split_and!; try done. intros Heq. apply Hnew. rewrite <- Heq.
      by apply (list_elem_of_fmap_2 a_id). }
    intros b c k [Hb | ->%list_elem_of_singleton]%elem_of_app
                 [Hc | ->%list_elem_of_singleton]%elem_of_app Hkb Hkc.
    + by apply (Hd b c k).
    + destruct (Hno b k Hb Hkc Hkb).
    + destruct (Hno c k Hc Hkb Hkc).
    + done.
Qed.

Lemma update_consistent s a :
  consistent s →
  Py.truthy (a_id a) = true →
  ¬ owned_elsewhere s a →
  consistent (update_artist s a).
Proof.
  intros (Hnd & Ht & Hd & Hidx) Hta Hfree.
  unfold consistent, update_artist. cbn [_artists _artist_index].
  split_and!; [by apply artists_set_NoDup | | | done].
  - intros b [-> | [Hb _]]%(artists_set_elem _ _ _ Hnd); auto.
  - intros b c k [-> | [Hb Hbne]]%(artists_set_elem _ _ _ Hnd)
                 [-> | [Hc Hcne]]%(artists_set_elem _ _ _ Hnd) Hkb Hkc.
    + done.
    + destruct Hfree. by exists c, k.
    + destruct Hfree. by exists b, k.
    + by apply (Hd b c k).
Qed.

(** The alias branch of [get_or_create_artist]: [name] becomes one more
    alias of a live entity, and one more entry of the index. *)
Lemma alias_consistent s a name :
  consistent s →
  a ∈ _artists s →
  (∀ b, b ∈ _artists s → _normalize_name name ∉ artist_keys b) →
  let a' := {| a_id := a_id a; a_name := a_name a;
               a_aliases := a_aliases a ++ [name] |} in
  consistent {| _artists := artists_set a' (_artists s);
                _shows := _shows s;
                _artist_index :=
                  <[_normalize_name name := a_id a]> (_artist_index s) |}.
Proof.
  intros (Hnd & Ht & Hd & Hidx) Ha Hfree a'.
  assert (∀ k, k ∈ artist_keys a' ↔
               k ∈ artist_keys a ∨ k = _normalize_name name) as Hkeys.
  { intros k. unfold artist_keys, a'. cbn [a_name a_aliases].
    rewrite map_app. cbn [map]. rewrite !elem_of_cons, elem_of_app,
      list_elem_of_singleton. tauto. }
  assert (keys_distinct (artists_set a' (_artists s))) as Hd'.
  { intros b c k [-> | [Hb Hbne]]%(artists_set_elem _ _ _ Hnd)
                 [-> | [Hc Hcne]]%(artists_set_elem _ _ _ Hnd) Hkb Hkc.
    - done.
    - apply Hkeys in Hkb as [Hkb | ->].
      + by apply (Hd a c k).
      + by destruct (Hfree c Hc).
    - apply Hkeys in Hkc as [Hkc | ->].
      + by apply (Hd b a k).
      + by destruct (Hfree b Hb).
    - by apply (Hd b c k). }
  unfold consistent. cbn [_artists _artist_index].
  split_and!; [by apply artists_set_NoDup | | done |].
  - intros b [-> | [Hb _]]%(artists_set_elem _ _ _ Hnd); [|by auto].
    exact (Ht a Ha).
  - apply (rebuild_unique _ _ Hd'). intros k i.
    destruct (decide (k = _normalize_name name)) as [-> | Hne].
    + rewrite lookup_insert_eq. split.
      * intros [= <-]. exists a'. split_and!; [|by apply Hkeys; right|done].
        apply (artists_set_elem _ _ _ Hnd). by left.
      * intros (b & [-> | [Hb _]]%(artists_set_elem _ _ _ Hnd) & Hk & <-);
          [done | by destruct (Hfree b Hb)].
    + rewrite lookup_insert_ne by done. rewrite Hidx, (rebuild_lookup _ Hd).
      split.
      * intros (b & Hb & Hk & <-).
        destruct (decide (a_id b = a_id a)) as [Heq | Hbne].
        -- exists a'. split_and!; [| |done].
           ++ apply (artists_set_elem _ _ _ Hnd). by left.
           ++ apply Hkeys. left.
              assert (b = a) as <-; [|done].
              pose proof (artists_get_elem _ _ Hnd Hb) as E1.
              pose proof (artists_get_elem _ _ Hnd Ha) as E2.
              rewrite Heq in E1. congruence.
        -- exists b. split_and!; [|done..].
           apply (artists_set_elem _ _ _ Hnd). by right.
      * intros (b & [-> | [Hb _]]%(artists_set_elem _ _ _ Hnd) & Hk & <-).
        -- exists a. apply Hkeys in Hk as [Hk | ?]; done.
        -- by exists b.
Qed.

Lemma get_or_create_consistent s name aliases fresh :
  consistent s →
  Py.truthy fresh = true →
  get_artist s fresh = None →
  consistent (snd (get_or_create_artist s name aliases fresh)).
Proof.
  intros Hs Hfresh Hnew. unfold get_or_create_artist.
  destruct (find_artist_by_name s name) as [a|] eqn:Hfind; [done|].
  pose proof (λ b, find_None_unowned s name b Hs Hfind) as Hname.
  destruct (first_alias_hit s (default [] aliases)) as [a|] eqn:Hhit.
  - destruct (negb _ && negb _); [|done]. cbn [snd].
    apply first_alias_hit_Some in Hhit as (alias & _ & Ha).
    apply find_artist_by_name_Some in Ha as (_ & _ & Ha).
    apply artists_get_In, list_elem_of_In in Ha.
    by apply alias_consistent.
  - cbn [snd]. apply add_consistent; [done..|].
    intros (b & k & Hb & _ & Hk & Hkb).
    unfold artist_keys in Hk. cbn [a_name a_aliases] in Hk.
    apply elem_of_cons in Hk as [-> | Hk]; [by destruct (Hname b Hb)|].
    apply (list_elem_of_fmap_1 _normalize_name) in Hk as (alias & -> & Hal).
    pose proof (first_alias_hit_None _ _ _ Hhit Hal) as Hnone.
    by destruct (find_None_unowned s alias b Hs Hnone Hb).
Qed.

(** *** The merge *)

Lemma repoint_shows_artists s primary_id ids :
  _artists (fst (repoint_shows s primary_id ids)) = _artists s.
Proof.
  unfold repoint_shows.
  match goal with |- context [foldl ?f _ _] => set (visit := f) end.
  assert (∀ l st n, _artists (fst (foldl visit (st, n) l)) = _artists st)
    as Hfold; [|apply Hfold].
  induction l as [|show l IH]; intros st n; [done|].
  cbn [foldl]. unfold visit at 2.
  destruct (show_touched ids show); by rewrite IH.
Qed.

Lemma lookup_all_inr s ids ms :
  lookup_all s ids = inr ms →
  map a_id ms = ids ∧ ∀ m, m ∈ ms → m ∈ _artists s.
Proof.
  revert ms. induction ids as [|i ids IH]; intros ms; cbn [lookup_all].
  { intros [= <-]. split; [done|]. intros m H. by apply elem_of_nil in H. }
  destruct (get_artist s i) as [a|] eqn:Ha; [|done].
  destruct (lookup_all s ids) as [?|found]; [done|]. intros [= <-].
  destruct (IH found eq_refl) as [Hids Hin]. cbn [map]. split.
  - f_equal; [|done]. by apply artists_get_id in Ha.
  - intros m [-> | Hm]%elem_of_cons; [|by apply Hin].
    by apply artists_get_In, list_elem_of_In in Ha.
Qed.

Lemma filter_ids_NoDup (P : Artist → bool) d :
  NoDup (map a_id d) → NoDup (map a_id (List.filter P d)).
Proof.
  induction d as [|b d IH]; cbn [List.filter map]; [done|].
  intros [Hb Hnd]%NoDup_cons. destruct (P b); [|by apply IH].
  cbn [map]. apply NoDup_cons. split; [|by apply IH].
  intros (c & Hc & Hin)%(list_elem_of_fmap_1 a_id). apply Hb.
  rewrite Hc. apply (list_elem_of_fmap_2 a_id).
  apply list_elem_of_In in Hin. apply filter_In in Hin as [Hin _].
  by apply list_elem_of_In.
Qed.

(** When no [KeyError] is raised, the deletion loop leaves the entries
    whose id is not one of the merged ids. *)
Lemma delete_all_None d ms d' :
  NoDup (map a_id d) →
  delete_all d ms = (d', None) →
  NoDup (map a_id d')
  ∧ ∀ b, b ∈ d' → b ∈ d ∧ a_id b ∉ map a_id ms.
Proof.
  revert d. induction ms as [|m ms IH]; intros d Hnd; cbn [delete_all].
  { intros [= <-]. split; [done|]. intros b Hb. split; [done|].
    intros H. by apply elem_of_nil in H. }
  unfold artists_del. destruct (artists_get (a_id m) d); [|done].
  intros Hrest.
  destruct (IH _ (filter_ids_NoDup _ _ Hnd) Hrest) as [Hnd' Hin].
  split; [done|]. intros b Hb. destruct (Hin b Hb) as [Hbd Hbm].
  apply list_elem_of_In, filter_In in Hbd as [Hbd Hne].
  split; [by apply list_elem_of_In|]. cbn [map].
  apply not_elem_of_cons. split; [|done].
  apply negb_true_iff, String.eqb_neq in Hne. done.
Qed.

Lemma collect_aliases_elem primary ms x :
  x ∈ collect_aliases primary ms →
  x ∈ a_aliases primary
  ∨ ∃ m, m ∈ ms ∧ (x = a_name m ∨ x ∈ a_aliases m).
Proof.
  unfold collect_aliases. rewrite elem_of_difference. intros [H _].
  assert (∀ (acc : gset string),
            x ∈ foldl (fun acc artist =>
                         (acc ∪ {[a_name artist]})
                         ∪ list_to_set (a_aliases artist)) acc ms →
            x ∈ acc ∨ ∃ m, m ∈ ms ∧ (x = a_name m ∨ x ∈ a_aliases m))
    as Hfold.
  { clear H. induction ms as [|m ms IH]; intros acc; cbn [foldl]; [by left|].
    intros [Hacc | (m' & ? & ?)]%IH.
    - apply elem_of_union in Hacc as [Hacc | Hal].
      + apply elem_of_union in Hacc as [? | ->%elem_of_singleton];
          [by left|]. right. exists m. split; [left | by left].
      + right. exists m. split; [left|]. right.
        by apply elem_of_list_to_set in Hal.
    - right. exists m'. split; [by right | done]. }
  destruct (Hfold _ H) as [Hacc | ?]; [|by right].
  left. by apply elem_of_list_to_set in Hacc.
Qed.

Lemma sorted_set_elem (set : gset string) x : x ∈ sorted_set set ↔ x ∈ set.
Proof.
  unfold sorted_set. rewrite merge_sort_Permutation. apply elem_of_elements.
Qed.

(** The keys of the merged primary come from the primary or from a merged
    entity. *)
Lemma merged_keys primary ms k :
  k ∈ artist_keys
        {| a_id := a_id primary; a_name := a_name primary;
           a_aliases := sorted_set (collect_aliases primary ms) |} →
  k ∈ artist_keys primary ∨ ∃ m, m ∈ ms ∧ k ∈ artist_keys m.
Proof.
  unfold artist_keys. cbn [a_name a_aliases].
  intros [-> | Hk]%elem_of_cons; [left; left|].
  apply (list_elem_of_fmap_1 _normalize_name) in Hk as (x & -> & Hx).
  apply sorted_set_elem, collect_aliases_elem in Hx
    as [Hx | (m & Hm & [-> | Hx])].
  - left. right. by apply (list_elem_of_fmap_2 _normalize_name).
  - right. exists m. split; [done | left].
  - right. exists m. split; [done|]. right.
    by apply (list_elem_of_fmap_2 _normalize_name).
Qed.

Lemma merge_consistent s primary_id ids response s' :
  consistent s →
  merge_artists s primary_id ids = (response, s') →
  (∀ i, response ≠ KeyError i) →
  consistent s'.
Proof.
  intros Hs Hm Hok. pose proof Hs as (Hnd & Ht & Hd & Hidx).
  unfold merge_artists in Hm.
  destruct primary_id as [primary_id|]; [|by injection Hm as <- <-].
  destruct ids as [|i0 ids]; [by injection Hm as <- <-|].
  destruct (negb (Py.truthy primary_id)); [by injection Hm as <- <-|].
  destruct (get_artist s primary_id) as [primary|] eqn:Hp;
    [|by injection Hm as <- <-].
  destruct (lookup_all s (i0 :: ids)) as [?|ms] eqn:Hms;
    [by injection Hm as <- <-|].
  set (primary' := {| a_id := a_id primary; a_name := a_name primary;
                      a_aliases := sorted_set (collect_aliases primary ms) |})
    in *.
  destruct (repoint_shows _ primary_id (i0 :: ids)) as [st2 n] eqn:Hst2.
  pose proof (repoint_shows_artists
                {| _artists := artists_set primary' (_artists s);
                   _shows := _shows s; _artist_index := _artist_index s |}
                primary_id (i0 :: ids)) as Harts.
  rewrite Hst2 in Harts. cbn [fst _artists] in Harts.
  unfold update_artist in Hm. cbn [_artists _shows _artist_index] in Hm.
  rewrite Harts, artists_set_idem in Hm.
  destruct (delete_all (artists_set primary' (_artists s)) ms)
    as [arts'' [gone|]] eqn:Hdel.
  { injection Hm as <- <-. by destruct (Hok gone). }
  injection Hm as <- <-.
  destruct (lookup_all_inr _ _ _ Hms) as [Hids Hlive].
  destruct (delete_all_None _ _ _ (artists_set_NoDup _ primary' Hnd) Hdel)
    as [Hnd'' Hin''].
  unfold get_artist in Hp.
  pose proof (artists_get_In _ _ _ Hp) as Hpin.
  apply list_elem_of_In in Hpin.
  unfold consistent, _rebuild_index. cbn [_artists _artist_index].
  split_and!; [done | | | done].
  - intros b [Hb _]%Hin''.
    apply (artists_set_elem _ _ _ Hnd) in Hb as [-> | [Hb _]]; [|by auto].
    exact (Ht primary Hpin).
  - assert (∀ b c k, b ∈ arts'' → c ∈ _artists s → a_id c ≠ a_id primary' →
                     a_id c ∉ map a_id ms →
                     b = primary' → k ∈ artist_keys b → k ∈ artist_keys c →
                     a_id b = a_id c) as Hmixed.
    { intros b c k _ Hc Hcne Hcm -> Hkb Hkc.
      apply merged_keys in Hkb as [Hkb | (m & Hm & Hkm)].
      - exact (Hd primary c k Hpin Hc Hkb Hkc).
      - destruct Hcm. rewrite <- (Hd m c k (Hlive m Hm) Hc Hkm Hkc).
        by apply (list_elem_of_fmap_2 a_id). }
    intros b c k Hb Hc Hkb Hkc.
    destruct (Hin'' b Hb) as [Hb' Hbm]. destruct (Hin'' c Hc) as [Hc' Hcm].
    apply (artists_set_elem _ _ _ Hnd) in Hb' as [Hb' | [Hb' Hbne]];
      apply (artists_set_elem _ _ _ Hnd) in Hc' as [Hc' | [Hc' Hcne]].
    + by subst.
    + by apply (Hmixed b c k).
    + symmetry. by apply (Hmixed c b k).
    + by apply (Hd b c k).
Qed.

End Index.

(** ** The invariant of the resolver *)

Section Invariant.
Import DataModel AdminServer Resolver.

Lemma step_consistent s s' : consistent s → step s s' → consistent s'.
Proof.
  intros Hs Hstep. destruct Hstep.
  - by apply add_consistent.
  - by apply get_or_create_consistent.
  - by apply update_consistent.
  - by eapply merge_consistent.
Qed.

Lemma reachable_consistent s : reachable s → consistent s.
Proof.
  induction 1 as [|s s' _ IH Hstep]; [apply empty_consistent|].
  by apply (step_consistent s).
Qed.

(** C1, as amended. Along every history of [get_or_create_artist] calls
    that draw a new non-empty id, of merges that return, and of
    [add_artist] and [update_artist] calls given an artist with a non-empty
    id none of whose keys belongs to another live entity ([add_artist]
    under a new id), starting from the empty store: no two live entities
    share a normalization key, and rebuilding the index from the entity
    set gives exactly the current index. *)
Theorem guarded_history_invariant s :
  reachable s →
  keys_distinct (_artists s) ∧ _artist_index s = rebuild (_artists s).
Proof.
  intros Hr. by destruct (reachable_consistent s Hr) as (_ & _ & ? & ?).
Qed.

(** C1, witness: two creations, then the merge of the second entity into
    the first. *)
Lemma guarded_history_invariant_witness :
  keys_distinct (_artists Examples.after_merge)
  ∧ _artist_index Examples.after_merge
    = rebuild (_artists Examples.after_merge).
Proof.
  apply (guarded_history_invariant Examples.after_merge).
  eapply reachable_step.
  - eapply reachable_step.
    + eapply reachable_step; [apply reachable_empty|].
      apply (step_get_or_create empty_store "Neon Trees" None "uuid-1");
        reflexivity.
    + apply (step_get_or_create _ "Neon Tree" (Some ["neon tree"]) "uuid-2");
        reflexivity.
  - eapply (step_merge Examples.after_two_creations (Some "uuid-1")
              ["uuid-2"]).
    + unfold Examples.after_merge. apply surjective_pairing.
    + intros i H. vm_compute in H. discriminate H.
Defined.

(** C1, counterexample. [add_artist] checks nothing: after two entities
    whose names differ in case only, two live entities share the key
    ["neon trees"]; and after a second artist under an id already used,
    the index still holds the old name, which a rebuild drops. *)
Lemma add_artist_unchecked :
  ¬ keys_distinct
      (_artists (add_artist (add_artist empty_store Examples.trees_upper)
                   Examples.trees_lower))
  ∧ (let s := add_artist (add_artist empty_store Examples.trees_upper)
                Examples.trees_renamed in
     _artist_index s ≠ rebuild (_artists s)).
Proof.
  split.
  - intros H.
    specialize (H Examples.trees_upper Examples.trees_lower "neon trees").
    assert ("id-1" = "id-2") as E; [|discriminate E].
    apply H.
    + vm_compute. left.
    + vm_compute. right. left.
    + vm_compute. left.
    + vm_compute. left.
  - intros s H. apply (f_equal (fun m => m !! "neon trees")) in H.
    vm_compute in H. discriminate H.
Qed.

End Invariant.

(** ** Lookups after the resolver's operations *)

Section Lookups.
Import DataModel AdminServer Resolver.

(** Whatever [get_or_create_artist] returns is live under its id. *)
Lemma get_or_create_live s name aliases fresh :
  let r := get_or_create_artist s name aliases fresh in
  get_artist (snd r) (a_id (fst r)) = Some (fst r).
Proof.
  unfold get_or_create_artist, get_artist.
  destruct (find_artist_by_name s name) as [a|] eqn:Hf.
  { by apply find_artist_by_name_Some in Hf as (_ & _ & ?). }
  destruct (first_alias_hit s (default [] aliases)) as [a|] eqn:Ha.
  - apply first_alias_hit_Some in Ha as (alias & _ & Hal).
    apply find_artist_by_name_Some in Hal as (_ & _ & Hget).
    destruct (negb (Py.in_list name (a_aliases a))
              && negb (String.eqb name (a_name a))); [|done].
    cbn [fst snd _artists].
    exact (artists_get_set_eq (_artists s)
             {| a_id := a_id a; a_name := a_name a;
                a_aliases := a_aliases a ++ [name] |}).
  - cbn [fst snd add_artist _artists]. apply artists_get_set_eq.
Qed.

(** It leaves every other id as it was, and creates no id but [fresh]. *)
Lemma get_or_create_other s name aliases fresh j :
  let r := get_or_create_artist s name aliases fresh in
  j ≠ a_id (fst r) → get_artist (snd r) j = get_artist s j.
Proof.
  unfold get_or_create_artist, get_artist.
  destruct (find_artist_by_name s name) as [a|]; [done|].
  destruct (first_alias_hit s (default [] aliases)) as [a|].
  - destruct (negb (Py.in_list name (a_aliases a))
              && negb (String.eqb name (a_name a))); [|done].
    cbn [fst snd _artists a_id]. intros Hj.
    by rewrite artists_get_set_ne.
  - cbn [fst snd add_artist _artists a_id]. intros Hj.
    by rewrite artists_get_set_ne.
Qed.

Lemma get_or_create_shows s name aliases fresh :
  _shows (snd (get_or_create_artist s name aliases fresh)) = _shows s.
Proof.
  unfold get_or_create_artist.
  destruct (find_artist_by_name s name) as [a|]; [done|].
  destruct (first_alias_hit s (default [] aliases)) as [a|]; [|done].
  by destruct (negb (Py.in_list name (a_aliases a))
               && negb (String.eqb name (a_name a))).
Qed.

Lemma get_or_create_keeps s name aliases fresh j :
  is_Some (get_artist s j) →
  is_Some (get_artist (snd (get_or_create_artist s name aliases fresh)) j).
Proof.
  intros Hj.
  destruct (decide (j = a_id (fst (get_or_create_artist s name aliases
                                     fresh)))) as [->|Hne].
  - rewrite get_or_create_live. by eexists.
  - by rewrite get_or_create_other.
Qed.

Lemma get_or_create_new_id s name aliases fresh j :
  get_artist s j = None → j ≠ fresh →
  get_artist (snd (get_or_create_artist s name aliases fresh)) j = None.
Proof.
  intros Hj Hne.
  destruct (decide (j = a_id (fst (get_or_create_artist s name aliases
                                     fresh)))) as [Heq|Hne'];
    [|by rewrite get_or_create_other].
  exfalso. revert Heq. unfold get_or_create_artist.
  destruct (find_artist_by_name s name) as [a|] eqn:Hf.
  { apply find_artist_by_name_Some in Hf as (_ & _ & Hget).
    cbn [fst]. intros ->. unfold get_artist in Hj. congruence. }
  destruct (first_alias_hit s (default [] aliases)) as [a|] eqn:Ha.
  - apply first_alias_hit_Some in Ha as (alias & _ & Hal).
    apply find_artist_by_name_Some in Hal as (_ & _ & Hget).
    unfold get_artist in Hj.
    destruct (negb (Py.in_list name (a_aliases a))
              && negb (String.eqb name (a_name a)));
      cbn [fst a_id]; intros ->; congruence.
  - cbn [fst a_id]. done.
Qed.

(** X1. After [add_artist] of an artist with a non-empty id,
    [find_artist_by_name] returns that artist for its canonical name and
    for each of its aliases, whatever the store held before. *)
Theorem add_then_find s a key :
  Py.truthy (a_id a) = true →
  In key (a_name a :: a_aliases a) →
  find_artist_by_name (add_artist s a) key = Some a.
Proof.
  intros Ht Hk. unfold find_artist_by_name, add_artist.
  cbn [_artist_index _artists]. rewrite index_artist_lookup.
  rewrite decide_True.
  - rewrite Ht. apply artists_get_set_eq.
  - unfold artist_keys.
    change (_normalize_name key
            ∈ map _normalize_name (a_name a :: a_aliases a)).
    apply list_elem_of_In, in_map, Hk.
Qed.

(** X1, witness: an alias of the artist added to the empty store. *)
Lemma add_then_find_witness :
  find_artist_by_name (add_artist empty_store Examples.neon_trees)
    "The Neon Trees" = Some Examples.neon_trees.
Proof.
  apply (add_then_find empty_store Examples.neon_trees "The Neon Trees").
  - reflexivity.
  - simpl. right. left. reflexivity.
Defined.

(** X2. In a consistent store, the artist that [get_or_create_artist]
    returns is the one a later [find_artist_by_name] of the same name
    returns. *)
Theorem get_or_create_then_find s name aliases fresh :
  consistent s →
  Py.truthy fresh = true →
  let r := get_or_create_artist s name aliases fresh in
  find_artist_by_name (snd r) name = Some (fst r).
Proof.
  intros Hs Ht. unfold get_or_create_artist.
  destruct (find_artist_by_name s name) as [a|] eqn:Hf; [done|].
  destruct (first_alias_hit s (default [] aliases)) as [a|] eqn:Ha.
  - apply first_alias_hit_Some in Ha as (alias & _ & Hal).
    apply find_artist_by_name_Some in Hal as (_ & Hta & Hget).
    destruct (negb (Py.in_list name (a_aliases a))
              && negb (String.eqb name (a_name a))) eqn:Hc.
    + cbn [fst snd]. unfold find_artist_by_name.
      cbn [_artist_index _artists]. rewrite lookup_insert_eq, Hta.
      exact (artists_get_set_eq (_artists s)
               {| a_id := a_id a; a_name := a_name a;
                  a_aliases := a_aliases a ++ [name] |}).
    + exfalso.
      apply artists_get_In, list_elem_of_In in Hget.
      apply (find_None_unowned s name a Hs Hf Hget).
      apply andb_false_iff in Hc as [Hc | Hc].
      * apply negb_false_iff, in_list_In in Hc. right.
        apply list_elem_of_In, in_map, Hc.
      * apply negb_false_iff, String.eqb_eq in Hc. subst. left.
  - cbn [fst snd]. by apply find_after_add.
Qed.

(** X2, witness: a creation in the empty store. *)
Lemma get_or_create_then_find_witness :
  let r := get_or_create_artist empty_store "Neon Trees" None "uuid-1" in
  find_artist_by_name (snd r) "Neon Trees" = Some (fst r).
Proof.
  apply (get_or_create_then_find empty_store "Neon Trees" None "uuid-1").
  - apply empty_consistent.
  - reflexivity.
Defined.

(** X3. [get_or_create_artist] touches the entity it returns and nothing
    else: the returned artist is live under its id, every other id
    resolves as before, and the shows are unchanged. *)
Theorem get_or_create_frame s name aliases fresh :
  let r := get_or_create_artist s name aliases fresh in
  get_artist (snd r) (a_id (fst r)) = Some (fst r)
  ∧ (∀ j, j ≠ a_id (fst r) → get_artist (snd r) j = get_artist s j)
  ∧ _shows (snd r) = _shows s.
Proof.
  split_and!.
  - apply get_or_create_live.
  - intros j. apply get_or_create_other.
  - apply get_or_create_shows.
Qed.

End Lookups.

(** ** Artist connections of the store *)

Section Connections.
Import DataModel.

Lemma count_others_self i ids conn : count_others i conn ids !! i = conn !! i.
Proof.
  revert conn. induction ids as [|x ids IH]; intros conn; [done|].
  unfold count_others in *. cbn [foldl]. rewrite IH.
  destruct (String.eqb x i) eqn:E; cbn [negb]; [done|].
  apply String.eqb_neq in E. by rewrite lookup_insert_ne.
Qed.

(** The entry of another id [b] grows by the number of links of [b]. *)
Lemma count_others_lookup i ids conn b :
  b ≠ i →
  count_others i conn ids !! b
  = match length (filter (fun x => x = b) ids) with
    | O => conn !! b
    | S n => Some (default 0 (conn !! b) + Z.of_nat (S n))%Z
    end.
Proof.
  intros Hb. revert conn. induction ids as [|x ids IH]; intros conn; [done|].
  unfold count_others in *. cbn [foldl]. rewrite IH. clear IH.
  rewrite filter_cons. destruct (decide (x = b)) as [->|Hx].
  - destruct (String.eqb b i) eqn:E; [by apply String.eqb_eq in E|].
    cbn [negb length]. rewrite lookup_insert_eq. cbn [default].
    destruct (length (filter (fun x => x = b) ids));
      apply (f_equal Some); unfold id; lia.
  - destruct (negb (String.eqb x i)); [|done].
    by rewrite lookup_insert_ne.
Qed.

Lemma filter_eq_length (b : string) (ids : list string) :
  length (filter (fun x => x = b) ids) = 0 ↔ b ∉ ids.
Proof.
  induction ids as [|x ids IH].
  { split; [intros _; apply not_elem_of_nil | done]. }
  rewrite filter_cons, not_elem_of_cons.
  destruct (decide (x = b)) as [->|Hx]; cbn [length].
  - split; [done | by intros [? _]].
  - rewrite IH. naive_solver.
Qed.

Lemma connections_fold i shows conn0 :
  let conn :=
    foldl (fun connections show =>
             if Py.in_list i (artist_ids show)
             then count_others i connections (artist_ids show)
             else connections) conn0 shows in
  conn !! i = conn0 !! i
  ∧ (∀ b, b ≠ i →
       is_Some (conn !! b) ↔
       is_Some (conn0 !! b)
       ∨ ∃ show, show ∈ shows ∧ i ∈ artist_ids show
                 ∧ b ∈ artist_ids show)
  ∧ ((∀ b n, conn0 !! b = Some n → (1 ≤ n)%Z) →
     ∀ b n, conn !! b = Some n → (1 ≤ n)%Z).
Proof.
  revert conn0. induction shows as [|show shows IH]; intros conn0.
  { cbn [foldl]. split_and!; [done | | done]. intros b _. split; [by left|].
    intros [? | (show & H & _)]; [done|]. by apply elem_of_nil in H. }
  cbn [foldl]. cbn zeta in IH.
  destruct (Py.in_list i (artist_ids show)) eqn:Hin.
  - destruct (IH (count_others i conn0 (artist_ids show))) as (H1 & H2 & H3).
    apply in_list_In, list_elem_of_In in Hin.
    split_and!.
    + by rewrite H1, count_others_self.
    + intros b Hb. rewrite (H2 b Hb), (count_others_lookup _ _ _ _ Hb).
      pose proof (filter_eq_length b (artist_ids show)) as Hlen.
      destruct (length (filter (fun x => x = b) (artist_ids show))).
      * assert (b ∉ artist_ids show) as Hnot by by apply Hlen.
        split.
        -- intros [? | (sh & ? & ? & ?)]; [by left|].
           right. exists sh. split_and!; [by right | done | done].
        -- intros [? | (sh & [-> | ?]%elem_of_cons & ? & ?)];
             [by left | done |].
           right. by exists sh.
      * assert (b ∈ artist_ids show) as Hyes.
        { destruct (decide (b ∈ artist_ids show)) as [|Hn]; [done|].
          by apply Hlen in Hn. }
        split; [|by left]. intros _. right. exists show.
        split_and!; [left | done | done].
    + intros Hpos. apply H3. intros b n.
      destruct (decide (b = i)) as [->|Hb].
      * rewrite count_others_self. apply Hpos.
      * rewrite (count_others_lookup _ _ _ _ Hb).
        destruct (length (filter (fun x => x = b) (artist_ids show)));
          [apply Hpos|].
        intros [= <-]. destruct (conn0 !! b) as [m|] eqn:Hm;
          cbn [default from_option]; unfold id.
        -- specialize (Hpos b m Hm). lia.
        -- lia.
  - destruct (IH conn0) as (H1 & H2 & H3). split_and!; [done | | done].
    intros b Hb. rewrite (H2 b Hb). split.
    + intros [? | (sh & ? & ? & ?)]; [by left|].
      right. exists sh. split_and!; [by right | done | done].
    + intros [? | (sh & [-> | ?]%elem_of_cons & Hi & ?)]; [by left | |].
      * apply list_elem_of_In, in_list_In in Hi. congruence.
      * right. by exists sh.
Qed.

(** X4. [get_artist_connections] never lists the artist itself; it lists
    another id exactly when some show links both; every count is at least
    one; and being listed is symmetric. *)
Theorem get_artist_connections_spec s i :
  get_artist_connections s i !! i = None
  ∧ (∀ b, is_Some (get_artist_connections s i !! b) ↔
          b ≠ i ∧ ∃ show, In show (_shows s) ∧ In i (artist_ids show)
                          ∧ In b (artist_ids show))
  ∧ (∀ b n, get_artist_connections s i !! b = Some n → (1 ≤ n)%Z)
  ∧ (∀ b, is_Some (get_artist_connections s i !! b) ↔
          is_Some (get_artist_connections s b !! i)).
Proof.
  assert (∀ i b, is_Some (get_artist_connections s i !! b) ↔
                 b ≠ i
                 ∧ ∃ show, In show (_shows s) ∧ In i (artist_ids show)
                           ∧ In b (artist_ids show)) as Hiff.
  { clear i. intros i b. unfold get_artist_connections.
    destruct (connections_fold i (_shows s) ∅) as (H1 & H2 & _).
    destruct (decide (b = i)) as [->|Hb].
    - rewrite H1, lookup_empty. split; [by intros [? ?] | by intros [? _]].
    - rewrite (H2 b Hb), lookup_empty. split.
      + intros [[? ?] | (sh & ? & ? & ?)]; [done|]. split; [done|].
        exists sh. by rewrite <- !list_elem_of_In.
      + intros (_ & sh & ? & ? & ?). right. exists sh.
        by rewrite !list_elem_of_In. }
  split_and!.
  - unfold get_artist_connections.
    destruct (connections_fold i (_shows s) ∅) as (H1 & _ & _).
    by rewrite H1.
  - apply Hiff.
  - unfold get_artist_connections.
    destruct (connections_fold i (_shows s) ∅) as (_ & _ & H3).
    apply H3. intros b n. by rewrite lookup_empty.
  - intros b. rewrite !Hiff. split.
    + intros (Hne & sh & ? & ? & ?). split; [done|]. by exists sh.
    + intros (Hne & sh & ? & ? & ?). split; [done|]. by exists sh.
Qed.

End Connections.

(** ** What a merge does to entities, links and names *)

Section MergeEffects.
Import DataModel AdminServer Resolver.

Lemma in_list_cons (x y : string) (l : list string) :
  Py.in_list x (y :: l) = String.eqb x y || Py.in_list x l.
Proof. done. Qed.

(** The deletion loop, when it raises nothing, filters out the merged
    ids. *)
Lemma delete_all_filter d ms d' :
  delete_all d ms = (d', None) →
  d' = List.filter (fun b => negb (Py.in_list (a_id b) (map a_id ms))) d.
Proof.
  revert d. induction ms as [|m ms IH]; intros d; cbn [delete_all].
  { intros [= <-]. induction d as [|b d IHd]; [done|].
    cbn in IHd |- *. by rewrite <- IHd. }
  unfold artists_del. destruct (artists_get (a_id m) d); [|done].
  intros ->%IH. clear IH.
  induction d as [|b d IHd]; [done|].
  cbn [List.filter map]. rewrite in_list_cons.
  destruct (String.eqb (a_id b) (a_id m)); cbn [negb orb List.filter];
    [done|].
  destruct (negb (Py.in_list (a_id b) (map a_id ms))); by rewrite IHd.
Qed.

Lemma artists_get_filter j ids d :
  artists_get j
    (List.filter (fun b => negb (Py.in_list (a_id b) ids)) d)
  = if Py.in_list j ids then None else artists_get j d.
Proof.
  unfold artists_get.
  induction d as [|b d IH]; cbn [List.filter find]; [by destruct Py.in_list|].
  destruct (Py.in_list (a_id b) ids) eqn:E; cbn [negb find].
  - rewrite IH. destruct (String.eqb (a_id b) j) eqn:E2; [|done].
    apply String.eqb_eq in E2 as <-. by rewrite E.
  - destruct (String.eqb (a_id b) j) eqn:E2; [|done].
    apply String.eqb_eq in E2 as <-. by rewrite E.
Qed.

(** The shape of the store after a merge that answers success. *)
Lemma merge_success s p ids n k pr :
  let r := merge_artists s (Some p) ids in
  fst r = Success n k pr →
  ∃ primary ms,
    Py.truthy p = true
    ∧ get_artist s p = Some primary
    ∧ lookup_all s ids = inr ms
    ∧ pr = {| a_id := a_id primary; a_name := a_name primary;
              a_aliases := sorted_set (collect_aliases primary ms) |}
    ∧ k = length ms
    ∧ (let st := {| _artists := artists_set pr (_artists s);
                    _shows := _shows s;
                    _artist_index := _artist_index s |} in
       n = snd (repoint_shows st p ids)
       ∧ _shows (snd r) = _shows (fst (repoint_shows st p ids)))
    ∧ _artists (snd r)
      = List.filter (fun b => negb (Py.in_list (a_id b) ids))
          (artists_set pr (_artists s))
    ∧ _artist_index (snd r) = rebuild (_artists (snd r)).
Proof.
  cbn zeta. unfold merge_artists.
  destruct ids as [|i0 ids]; [done|].
  destruct (Py.truthy p) eqn:Ht; cbn [negb]; [|done].
  destruct (get_artist s p) as [primary|] eqn:Hp; [|done].
  destruct (lookup_all s (i0 :: ids)) as [?|ms] eqn:Hms; [done|].
  set (primary' := {| a_id := a_id primary; a_name := a_name primary;
                      a_aliases := sorted_set (collect_aliases primary ms) |}).
  set (st := {| _artists := artists_set primary' (_artists s);
                _shows := _shows s; _artist_index := _artist_index s |}).
  pose proof (repoint_shows_artists st p (i0 :: ids)) as Harts.
  destruct (repoint_shows st p (i0 :: ids)) as [st2 n2] eqn:Hst2.
  cbn [fst] in Harts. subst st. cbn [_artists] in Harts.
  unfold update_artist. cbn [_artists _shows _artist_index].
  rewrite Harts, artists_set_idem.
  destruct (delete_all (artists_set primary' (_artists s)) ms)
    as [arts'' [gone|]] eqn:Hdel; [done|].
  cbn [fst snd]. intros [= <- <- <-].
  exists primary, ms. split_and!; try done.
  - by rewrite Hst2.
  - by rewrite Hst2.
  - unfold _rebuild_index. cbn [_artists].
    apply delete_all_filter in Hdel as ->.
    by destruct (lookup_all_inr _ _ _ Hms) as [-> _].
Qed.

Lemma merge_removes_merged_aux s p ids n k pr :
  let r := merge_artists s (Some p) ids in
  fst r = Success n k pr →
  (¬ In p ids → get_artist (snd r) p = Some pr) ∧ a_id pr = p.
Proof.
  intros r Hr.
  destruct (merge_success s p ids n k pr Hr)
    as (primary & ms & _ & Hp & _ & Hpr & _ & _ & Harts & _).
  fold r in Harts. unfold get_artist in *. rewrite Harts.
  assert (a_id pr = p) as Hid.
  { rewrite Hpr. cbn [a_id]. by apply artists_get_id in Hp. }
  split; [|done]. intros Hnot. rewrite artists_get_filter.
  destruct (Py.in_list p ids) eqn:E; [by apply in_list_In in E|].
  rewrite <- Hid. apply artists_get_set_eq.
Qed.

Lemma two_artists_consistent : consistent Examples.two_artists.
Proof.
  assert (consistent (add_artist empty_store Examples.neon_trees)) as H1.
  { apply add_consistent; [apply empty_consistent | done | done |].
    intros (b & k & Hb & _). by apply elem_of_nil in Hb. }
  assert (consistent (add_artist (add_artist empty_store Examples.neon_trees)
                        Examples.band_x)) as H2.
  { apply add_consistent; [done | done | done |].
    intros (b & k & Hb & Hne & Hk & Hkb). vm_compute in Hb.
    apply list_elem_of_singleton in Hb as ->.
    vm_compute in Hk. apply list_elem_of_singleton in Hk as ->.
    vm_compute in Hkb.
    apply elem_of_cons in Hkb as [Hkb | Hkb]; [discriminate Hkb|].
    apply list_elem_of_singleton in Hkb. discriminate Hkb. }
  destruct H2 as (? & ? & ? & ?). by split_and!.
Qed.

(** X5. After a merge that answers success, no merged id resolves any
    more; if the primary is not among the merged ids it resolves to the
    answered primary, which keeps its id and name; every other id resolves
    as before. *)
Theorem merge_removes_merged s p ids n k pr :
  let r := merge_artists s (Some p) ids in
  fst r = Success n k pr →
  (∀ i, In i ids → get_artist (snd r) i = None)
  ∧ (¬ In p ids →
     get_artist (snd r) p = Some pr ∧ a_id pr = p
     ∧ ∃ primary, get_artist s p = Some primary
                  ∧ a_name pr = a_name primary)
  ∧ (∀ j, j ≠ p → ¬ In j ids →
          get_artist (snd r) j = get_artist s j).
Proof.
  intros r Hr.
  destruct (merge_success s p ids n k pr Hr)
    as (primary & ms & _ & Hp & _ & Hpr & _ & _ & Harts & _).
  fold r in Harts. unfold get_artist in *. rewrite Harts.
  assert (a_id pr = p) as Hid.
  { rewrite Hpr. cbn [a_id]. by apply artists_get_id in Hp. }
  split_and!.
  - intros i Hi. rewrite artists_get_filter.
    apply in_list_In in Hi. by rewrite Hi.
  - intros Hnot. split_and!; [|done|].
    + rewrite artists_get_filter.
      destruct (Py.in_list p ids) eqn:E; [by apply in_list_In in E|].
      rewrite <- Hid. apply artists_get_set_eq.
    + exists primary. by rewrite Hpr.
  - intros j Hj Hnot. rewrite artists_get_filter.
    destruct (Py.in_list j ids) eqn:E; [by apply in_list_In in E|].
    apply artists_get_set_ne. by rewrite Hid.
Qed.

(** X5, witness: Band X merged into Neon Trees. *)
Lemma merge_removes_merged_witness :
  let r := merge_artists Examples.two_artists (Some "id-neon-trees")
             ["id-band-x"] in
  (∀ i, In i ["id-band-x"] → get_artist (snd r) i = None)
  ∧ (¬ In "id-neon-trees" ["id-band-x"] →
     get_artist (snd r) "id-neon-trees"
     = Some {| a_id := "id-neon-trees"; a_name := "Neon Trees";
               a_aliases := ["Band X"; "The Neon Trees"] |}
     ∧ "id-neon-trees" = "id-neon-trees"
     ∧ ∃ primary, get_artist Examples.two_artists "id-neon-trees"
                  = Some primary
                  ∧ "Neon Trees" = a_name primary)
  ∧ (∀ j, j ≠ "id-neon-trees" → ¬ In j ["id-band-x"] →
          get_artist (snd r) j = get_artist Examples.two_artists j).
Proof.
  apply (merge_removes_merged Examples.two_artists "id-neon-trees"
           ["id-band-x"] 1 1
           {| a_id := "id-neon-trees"; a_name := "Neon Trees";
              a_aliases := ["Band X"; "The Neon Trees"] |}).
  vm_compute. reflexivity.
Defined.

(** *** The links of the shows *)

Lemma shows_set_mid sh before x l :
  (∀ b, b ∈ before → s_id b ≠ s_id sh) →
  s_id x = s_id sh →
  shows_set sh (before ++ x :: l) = before ++ sh :: l.
Proof.
  intros Hb Hx. induction before as [|b before IH]; cbn [shows_set app].
  - by rewrite Hx, String.eqb_refl.
  - destruct (String.eqb (s_id b) (s_id sh)) eqn:E.
    + apply String.eqb_eq in E. destruct (Hb b); [left | done].
    + rewrite IH; [done|]. intros c Hc. apply Hb. by right.
Qed.

Lemma repoint_show_untouched p ids show :
  show_touched ids show = false → repoint_show p ids show = show.
Proof.
  destruct show as [i d t links]. unfold show_touched, repoint_show.
  cbn [s_id s_date s_title s_artists]. intros H. f_equal.
  induction links as [|sa links IH]; [done|].
  cbn [existsb map] in *. apply orb_false_iff in H as [Hsa Hrest].
  rewrite IH by done. unfold repoint. by rewrite Hsa.
Qed.

(** With one entry per show id, the loop over the shows rewrites each
    show in place and counts the shows that link a merged id. *)
Lemma repoint_shows_spec st p ids :
  NoDup (map s_id (_shows st)) →
  _shows (fst (repoint_shows st p ids))
  = map (repoint_show p ids) (_shows st)
  ∧ snd (repoint_shows st p ids)
    = length (List.filter (show_touched ids) (_shows st)).
Proof.
  unfold repoint_shows.
  match goal with |- context [foldl ?f _ _] => set (visit := f) end.
  assert (∀ l before st n,
            _shows st = map (repoint_show p ids) before ++ l →
            NoDup (map s_id (before ++ l)) →
            _shows (fst (foldl visit (st, n) l))
            = map (repoint_show p ids) (before ++ l)
            ∧ snd (foldl visit (st, n) l)
              = n + length (List.filter (show_touched ids) l)) as Hfold.
  { induction l as [|show l IH]; intros before st' n Hst Hnd.
    { cbn [foldl fst snd List.filter length]. rewrite Hst, !app_nil_r.
      split; [done | lia]. }
    cbn [foldl List.filter]. unfold visit at 2 4.
    assert (before ++ show :: l = (before ++ [show]) ++ l) as Hassoc
      by by rewrite <- app_assoc.
    destruct (show_touched ids show) eqn:Ht.
    - destruct (IH (before ++ [show])
                  (update_show st' (repoint_show p ids show)) (S n))
        as [H1 H2].
      + unfold update_show. cbn [_shows]. rewrite Hst.
        rewrite shows_set_mid; [by rewrite map_app, <- app_assoc | | done].
        intros b (b0 & -> & Hb0)%(list_elem_of_fmap_1 (repoint_show p ids)).
        cbn [repoint_show s_id]. intros Heq.
        rewrite map_app in Hnd. apply NoDup_app in Hnd as (_ & Hnd & _).
        apply (Hnd (s_id b0)).
        * by apply (list_elem_of_fmap_2 s_id).
        * rewrite Heq. cbn [map]. left.
      + by rewrite <- Hassoc.
      + rewrite H1, H2, Hassoc. cbn [length]. split; [done | lia].
    - destruct (IH (before ++ [show]) st' n) as [H1 H2].
      + rewrite Hst, map_app, <- app_assoc. cbn [map app].
        by rewrite repoint_show_untouched.
      + by rewrite <- Hassoc.
      + by rewrite H1, H2, Hassoc. }
  intros Hnd. destruct (Hfold (_shows st) [] st 0) as [H1 H2]; done.
Qed.

Lemma repoint_show_plays p ids i show :
  Py.in_list i ids = true → p ≠ i →
  plays i (repoint_show p ids show) = false.
Proof.
  intros Hi Hp. unfold plays, repoint_show. cbn [s_artists].
  induction (s_artists show) as [|sa links IH]; [done|].
  cbn [map existsb]. rewrite IH, orb_false_r. unfold repoint.
  destruct (Py.in_list (artist_id sa) ids) eqn:E; cbn [artist_id].
  - by apply String.eqb_neq.
  - apply String.eqb_neq. intros Heq. congruence.
Qed.

(** X6. With one entry per show id, a merge that answers success rewrites
    every show in place, re-pointing each link of a merged id to the
    primary id; the answered count is the number of shows that linked a
    merged id; and when the primary is not among the merged ids, no show
    links a merged id afterwards. *)
Theorem merge_repoints_links s p ids n k pr :
  NoDup (map s_id (_shows s)) →
  let r := merge_artists s (Some p) ids in
  fst r = Success n k pr →
  _shows (snd r) = map (repoint_show p ids) (_shows s)
  ∧ n = length (List.filter (show_touched ids) (_shows s))
  ∧ (¬ In p ids → ∀ i, In i ids → get_artist_show_count (snd r) i = 0).
Proof.
  intros Hnd r Hr.
  destruct (merge_success s p ids n k pr Hr)
    as (primary & ms & _ & _ & _ & _ & _ & [Hn Hsh] & _ & _).
  fold r in Hsh.
  destruct (repoint_shows_spec
              {| _artists := artists_set pr (_artists s);
                 _shows := _shows s; _artist_index := _artist_index s |}
              p ids Hnd) as [H1 H2].
  cbn [_shows] in H1, H2. rewrite H1 in Hsh. rewrite H2 in Hn.
  split_and!; [done | done |].
  intros Hp i Hi. unfold get_artist_show_count. rewrite Hsh.
  assert (p ≠ i) as Hne by (by intros ->).
  apply in_list_In in Hi. clear -Hi Hne.
  induction (_shows s) as [|show l IH]; [done|].
  cbn [map List.filter]. by rewrite repoint_show_plays.
Qed.

(** X6, witness: the one show of the store links the merged id. *)
Lemma merge_repoints_links_witness :
  let r := merge_artists Examples.two_artists (Some "id-neon-trees")
             ["id-band-x"] in
  _shows (snd r)
  = map (repoint_show "id-neon-trees" ["id-band-x"])
      (_shows Examples.two_artists)
  ∧ 1 = length (List.filter (show_touched ["id-band-x"])
                  (_shows Examples.two_artists))
  ∧ (¬ In "id-neon-trees" ["id-band-x"] →
     ∀ i, In i ["id-band-x"] → get_artist_show_count (snd r) i = 0).
Proof.
  apply (merge_repoints_links Examples.two_artists "id-neon-trees"
           ["id-band-x"] 1 1
           {| a_id := "id-neon-trees"; a_name := "Neon Trees";
              a_aliases := ["Band X"; "The Neon Trees"] |}).
  - vm_compute. apply NoDup_singleton.
  - vm_compute. reflexivity.
Defined.

(** *** The names of the merged entities *)

Lemma collect_aliases_intro primary ms m x :
  m ∈ ms → x = a_name m ∨ x ∈ a_aliases m → x ≠ a_name primary →
  x ∈ collect_aliases primary ms.
Proof.
  intros Hm Hx Hne. unfold collect_aliases.
  apply elem_of_difference. split; [|by rewrite elem_of_singleton].
  generalize (list_to_set (a_aliases primary) : gset string). intros acc.
  assert (∀ acc : gset string,
            (x ∈ acc ∨ m ∈ ms) →
            x ∈ foldl (fun acc artist =>
                         (acc ∪ {[a_name artist]})
                         ∪ list_to_set (a_aliases artist)) acc ms) as Hfold.
  { clear Hm acc. induction ms as [|m' ms IH]; intros acc; cbn [foldl].
    { intros [? | H]; [done|]. by apply elem_of_nil in H. }
    intros [Hacc | [-> | Hin]%elem_of_cons]; apply IH.
    - left. set_solver.
    - left. destruct Hx as [-> | Hx]; [set_solver|].
      apply elem_of_union_r. by apply elem_of_list_to_set.
    - by right. }
  apply Hfold. by right.
Qed.

Lemma lookup_all_elem s ids ms i m :
  lookup_all s ids = inr ms → In i ids → get_artist s i = Some m →
  m ∈ ms.
Proof.
  revert ms. induction ids as [|i' ids IH]; intros ms; [done|].
  cbn [lookup_all]. destruct (get_artist s i') as [a|] eqn:Ha; [|done].
  destruct (lookup_all s ids) as [?|found]; [done|].
  intros [= <-] [-> | Hi] Hm.
  - rewrite Ha in Hm. injection Hm as ->. left.
  - right. by apply IH.
Qed.

(** X7. In a consistent store, after a merge that answers success and
    whose primary is not among the merged ids, the canonical name and
    every alias of a merged entity resolve to the answered primary. *)
Theorem merged_names_resolve s p ids n k pr i m key :
  consistent s →
  let r := merge_artists s (Some p) ids in
  fst r = Success n k pr →
  ¬ In p ids →
  In i ids → get_artist s i = Some m →
  In key (a_name m :: a_aliases m) →
  find_artist_by_name (snd r) key = Some pr.
Proof.
  intros Hs r Hr Hp Hi Hm Hkey.
  assert (consistent (snd r)) as (Hnd' & Ht' & Hd' & Hidx').
  { apply (merge_consistent s (Some p) ids (fst r) (snd r) Hs).
    - apply surjective_pairing.
    - intros g. by rewrite Hr. }
  destruct (merge_removes_merged_aux s p ids n k pr Hr) as (Hget & Hid).
  specialize (Hget Hp).
  destruct (merge_success s p ids n k pr Hr)
    as (primary & ms & _ & _ & Hms & Hpr & _ & _ & _ & _).
  pose proof (lookup_all_elem _ _ _ _ _ Hms Hi Hm) as Hin.
  assert (pr ∈ _artists (snd r)) as Hlive.
  { unfold get_artist in Hget.
    by apply artists_get_In, list_elem_of_In in Hget. }
  assert (_normalize_name key ∈ artist_keys pr) as Hk.
  { destruct (decide (key = a_name primary)) as [->|Hne].
    - rewrite Hpr. unfold artist_keys. cbn [a_name]. left.
    - rewrite Hpr. unfold artist_keys. cbn [a_name a_aliases]. right.
      apply (list_elem_of_fmap_2 _normalize_name), sorted_set_elem.
      apply (collect_aliases_intro primary ms m); [done | | done].
      destruct Hkey as [<- | Hal]; [by left|]. right.
      by apply list_elem_of_In. }
  unfold find_artist_by_name. rewrite Hidx'.
  assert (rebuild (_artists (snd r)) !! _normalize_name key
          = Some (a_id pr)) as ->.
  { apply rebuild_lookup; [done|]. by exists pr. }
  rewrite (Ht' pr Hlive). by apply artists_get_elem.
Qed.

(** X7, witness: after the merge, "Band X" resolves to Neon Trees. *)
Lemma merged_names_resolve_witness :
  find_artist_by_name
    (snd (merge_artists Examples.two_artists (Some "id-neon-trees")
            ["id-band-x"]))
    "Band X"
  = Some {| a_id := "id-neon-trees"; a_name := "Neon Trees";
            a_aliases := ["Band X"; "The Neon Trees"] |}.
Proof.
  apply (merged_names_resolve Examples.two_artists "id-neon-trees"
           ["id-band-x"] 1 1 _ "id-band-x" Examples.band_x "Band X").
  - apply two_artists_consistent.
  - vm_compute. reflexivity.
  - simpl. intros [H | []]. discriminate H.
  - simpl. left. reflexivity.
  - vm_compute. reflexivity.
  - simpl. left. reflexivity.
Defined.

(** *** A merged id listed twice *)

Lemma lookup_all_known s ids :
  (∀ i, In i ids → is_Some (get_artist s i)) →
  ∃ ms, lookup_all s ids = inr ms.
Proof.
  induction ids as [|i ids IH]; intros Hk; cbn [lookup_all]; [by eexists|].
  destruct (Hk i) as [a ->]; [by left|].
  destruct IH as [ms ->]; [|by eexists].
  intros j Hj. apply Hk. by right.
Qed.

(** Deleting an id that is no longer there raises. *)
Lemma delete_all_missing ms d m :
  In m ms → ¬ In (a_id m) (map a_id d) →
  ∃ d' gone, delete_all d ms = (d', Some gone) ∧ In gone (map a_id ms).
Proof.
  revert d. induction ms as [|m0 ms IH]; intros d; [done|].
  intros Hm Hd. cbn [delete_all]. unfold artists_del.
  destruct (artists_get (a_id m0) d) as [a|] eqn:Hget.
  - destruct Hm as [-> | Hm].
    { apply artists_get_In in Hget as Hin. apply artists_get_id in Hget.
      destruct Hd. rewrite <- Hget. by apply in_map. }
    destruct (IH (List.filter (fun b => negb (String.eqb (a_id b) (a_id m0)))
                    d) Hm) as (d' & gone & -> & Hg).
    + intros (b & Hb & Hin)%in_map_iff. apply filter_In in Hin as [Hin _].
      apply Hd. rewrite <- Hb. by apply in_map.
    + exists d', gone. split; [done | by right].
  - exists d, (a_id m0). split; [done | by left].
Qed.

Lemma delete_all_duplicate ms d :
  ¬ NoDup (map a_id ms) →
  ∃ d' gone, delete_all d ms = (d', Some gone) ∧ In gone (map a_id ms).
Proof.
  revert d. induction ms as [|m0 ms IH]; intros d Hdup.
  { destruct Hdup. constructor. }
  cbn [delete_all]. unfold artists_del.
  destruct (artists_get (a_id m0) d) as [a|] eqn:Hget;
    [|exists d, (a_id m0); split; [done | by left]].
  set (d1 := List.filter (fun b => negb (String.eqb (a_id b) (a_id m0))) d).
  destruct (decide (a_id m0 ∈ map a_id ms)) as [Hin | Hnot].
  - apply (list_elem_of_fmap_1 a_id) in Hin as (m & Heq & Hm).
    apply list_elem_of_In in Hm.
    destruct (delete_all_missing ms d1 m Hm) as (d' & gone & -> & Hg).
    + rewrite <- Heq. intros (b & Hb & Hin)%in_map_iff.
      apply filter_In in Hin as [_ Hne].
      apply negb_true_iff, String.eqb_neq in Hne. done.
    + exists d', gone. split; [done | by right].
  - destruct (IH d1) as (d' & gone & -> & Hg).
    + intros Hnd. apply Hdup. cbn [map]. by apply NoDup_cons.
    + exists d', gone. split; [done | by right].
Qed.

(** X8. A merge request whose ids are all known but which lists a merged
    id twice is not rejected and does not answer success: the deletion
    loop raises [KeyError] for one of the listed ids, which it meets a
    second time. *)
Theorem merge_duplicate_ids_raise s p ids :
  Py.truthy p = true →
  is_Some (get_artist s p) →
  (∀ i, In i ids → is_Some (get_artist s i)) →
  ¬ NoDup ids →
  ∃ gone, fst (merge_artists s (Some p) ids) = KeyError gone ∧ In gone ids.
Proof.
  intros Ht [primary Hp] Hk Hdup.
  destruct (lookup_all_known s ids Hk) as [ms Hms].
  destruct (lookup_all_inr _ _ _ Hms) as [Hids _].
  unfold merge_artists.
  destruct ids as [|i0 ids]; [destruct Hdup; constructor|].
  rewrite Ht, Hp, Hms. cbn [negb].
  destruct (repoint_shows _ p (i0 :: ids)) as [st2 n2].
  rewrite <- Hids in Hdup.
  destruct (delete_all_duplicate ms
              (_artists
                 (update_artist st2
                    {| a_id := a_id primary; a_name := a_name primary;
                       a_aliases :=
                         sorted_set (collect_aliases primary ms) |}))
              Hdup) as (d' & gone & -> & Hg).
  exists gone. split; [done|]. by rewrite <- Hids.
Qed.

(** X8, witness: the id of Band X listed twice. *)
Lemma merge_duplicate_ids_raise_witness :
  ∃ gone,
    fst (merge_artists Examples.two_artists (Some "id-neon-trees")
           ["id-band-x"; "id-band-x"]) = KeyError gone
    ∧ In gone ["id-band-x"; "id-band-x"].
Proof.
  apply (merge_duplicate_ids_raise Examples.two_artists "id-neon-trees"
           ["id-band-x"; "id-band-x"]).
  - reflexivity.
  - vm_compute. eexists. reflexivity.
  - intros i [<- | [<- | []]]; vm_compute; eexists; reflexivity.
  - intros H. apply NoDup_cons in H as [H _]. apply H. left.
Defined.

End MergeEffects.

(** ** The show editor, the artist form and the migration *)

Section Endpoints.
Import DataModel Resolver.

Lemma shows_get_set sh d :
  List.find (fun b => String.eqb (s_id b) (s_id sh)) (shows_set sh d)
  = Some sh.
Proof.
  induction d as [|b d IH]; cbn [shows_set find].
  - by rewrite String.eqb_refl.
  - destruct (String.eqb (s_id b) (s_id sh)) eqn:E; cbn [find].
    + by rewrite String.eqb_refl.
    + by rewrite E.
Qed.

Lemma get_show_id s i show : get_show s i = Some show → s_id show = i.
Proof.
  unfold get_show. intros H. apply find_some in H as [_ H].
  by apply String.eqb_eq.
Qed.

Lemma link_artists_spec fresh data :
  ∀ i store,
    let r := AdminApi.link_artists store fresh i data in
    (∀ sa, In sa (fst r) → is_Some (get_artist (snd r) (artist_id sa)))
    ∧ (∀ j, is_Some (get_artist store j) → is_Some (get_artist (snd r) j))
    ∧ _shows (snd r) = _shows store
    ∧ length (fst r)
      = length (List.filter
                  (fun d => Py.truthy
                              (Py.strip (default EmptyString
                                           (AdminApi.ad_name d))))
                  data).
Proof.
  induction data as [|d data IH]; intros i store; cbn [AdminApi.link_artists].
  { cbn [fst snd]. split_and!; done. }
  cbn [List.filter].
  destruct (Py.truthy (Py.strip (default EmptyString (AdminApi.ad_name d))))
    eqn:Hn; cbn [negb]; [|apply IH].
  pose proof (get_or_create_live store
                (Py.strip (default EmptyString (AdminApi.ad_name d))) None
                (fresh i)) as Hlive.
  pose proof (get_or_create_keeps store
                (Py.strip (default EmptyString (AdminApi.ad_name d))) None
                (fresh i)) as Hkeep.
  pose proof (get_or_create_shows store
                (Py.strip (default EmptyString (AdminApi.ad_name d))) None
                (fresh i)) as Hshows.
  cbn zeta in Hlive.
  destruct (get_or_create_artist store _ None (fresh i)) as [artist store1].
  cbn [fst snd] in Hlive, Hkeep, Hshows.
  specialize (IH (S i) store1). cbn zeta in IH.
  destruct (AdminApi.link_artists store1 fresh (S i) data)
    as [new_artists store2].
  cbn [fst snd] in IH |- *. destruct IH as (H1 & H2 & H3 & H4).
  split_and!.
  - intros sa [<- | Hsa]; [|by apply H1].
    cbn [artist_id]. apply H2. rewrite Hlive. by eexists.
  - intros j Hj. by apply H2, Hkeep.
  - by rewrite H3.
  - cbn [length]. by rewrite H4.
Qed.

(** X9. [PUT /api/shows/<id>] with an ['artists'] list: an unknown show id
    is answered 404 with the store unchanged; otherwise the show keeps its
    date and title, gets one link for each entry whose name is not blank,
    and every one of these links refers to a live artist of the resulting
    store. *)
Theorem update_show_links_live store fresh show_id data :
  let r := AdminApi.update_show store fresh show_id (Some data) in
  match get_show store show_id with
  | None => r = (AdminApi.ShowNotFound, store)
  | Some old =>
      fst r = AdminApi.ShowUpdated
      ∧ ∃ show,
          get_show (snd r) show_id = Some show
          ∧ s_date show = s_date old ∧ s_title show = s_title old
          ∧ length (s_artists show)
            = length (List.filter
                        (fun d => Py.truthy
                                    (Py.strip (default EmptyString
                                                 (AdminApi.ad_name d))))
                        data)
          ∧ ∀ sa, In sa (s_artists show) →
                  is_Some (get_artist (snd r) (artist_id sa))
  end.
Proof.
  unfold AdminApi.update_show.
  destruct (get_show store show_id) as [old|] eqn:Hold; [|done].
  pose proof (link_artists_spec fresh data 0 store) as Hspec.
  cbn zeta in Hspec.
  destruct (AdminApi.link_artists store fresh 0 data) as [links store1].
  cbn [fst snd] in Hspec |- *. destruct Hspec as (H1 & _ & _ & H4).
  split; [done|]. eexists. split_and!.
  - unfold get_show, update_show. cbn [_shows].
    rewrite <- (get_show_id _ _ _ Hold).
    exact (shows_get_set
             {| s_id := s_id old; s_date := s_date old;
                s_title := s_title old; s_artists := links |}
             (_shows store1)).
  - done.
  - done.
  - done.
  - exact H1.
Qed.

Lemma uuid_inj i j : Examples.uuid i = Examples.uuid j → i = j.
Proof.
  revert j. induction i as [|i IH]; intros [|j]; cbn; try done.
  intros [= H]. f_equal. by apply IH.
Qed.

Lemma uuid_truthy i : Py.truthy (Examples.uuid i) = true.
Proof. by destruct i. Qed.

Lemma link_artists_consistent fresh data :
  (∀ i, Py.truthy (fresh i) = true) →
  (∀ i j, fresh i = fresh j → i = j) →
  ∀ i store,
    consistent store →
    (∀ j, i ≤ j → get_artist store (fresh j) = None) →
    consistent (snd (AdminApi.link_artists store fresh i data)).
Proof.
  intros Ht Hinj.
  induction data as [|d data IH]; intros i store Hs Hnew;
    cbn [AdminApi.link_artists]; [done|].
  destruct (negb (Py.truthy (Py.strip (default EmptyString
                                         (AdminApi.ad_name d))))).
  { apply IH; [done|]. intros j Hj. apply Hnew. lia. }
  pose proof (get_or_create_consistent store
                (Py.strip (default EmptyString (AdminApi.ad_name d))) None
                (fresh i) Hs (Ht i) (Hnew i (le_n i))) as Hs1.
  assert (∀ j, S i ≤ j →
               get_artist
                 (snd (get_or_create_artist store
                         (Py.strip (default EmptyString (AdminApi.ad_name d)))
                         None (fresh i))) (fresh j) = None) as Hnew1.
  { intros j Hj. apply get_or_create_new_id; [apply Hnew; lia|].
    intros Heq. apply Hinj in Heq. lia. }
  destruct (get_or_create_artist store _ None (fresh i)) as [artist store1].
  cbn [snd] in Hs1, Hnew1. specialize (IH (S i) store1 Hs1 Hnew1).
  by destruct (AdminApi.link_artists store1 fresh (S i) data).
Qed.

(** X10. The show editor keeps the resolver invariant: when the ids it
    may draw are non-empty, pairwise distinct and not yet in the store,
    [PUT /api/shows/<id>] maps a consistent store to a consistent store. *)
Theorem update_show_consistent store fresh show_id artists :
  consistent store →
  (∀ i, Py.truthy (fresh i) = true) →
  (∀ i j, fresh i = fresh j → i = j) →
  (∀ i, get_artist store (fresh i) = None) →
  consistent (snd (AdminApi.update_show store fresh show_id artists)).
Proof.
  intros Hs Ht Hinj Hnew. unfold AdminApi.update_show.
  destruct (get_show store show_id) as [old|]; [|done].
  destruct artists as [data|].
  - pose proof (link_artists_consistent fresh data Ht Hinj 0 store Hs
                  (fun j _ => Hnew j)) as Hs1.
    destruct (AdminApi.link_artists store fresh 0 data) as [links store1].
    cbn [snd] in Hs1 |- *. destruct Hs1 as (? & ? & ? & ?).
    by split_and!.
  - cbn [snd]. destruct Hs as (? & ? & ? & ?). by split_and!.
Qed.

Lemma one_show_consistent : consistent Examples.one_show.
Proof. destruct empty_consistent as (? & ? & ? & ?). by split_and!. Qed.

(** X10, witness: a bill of two names and a blank entry posted for the
    show of a store without artists. *)
Lemma update_show_consistent_witness :
  consistent
    (snd (AdminApi.update_show Examples.one_show Examples.uuid "show-1"
            (Some Examples.posted_bill))).
Proof.
  apply (update_show_consistent Examples.one_show Examples.uuid "show-1"
           (Some Examples.posted_bill)).
  - apply one_show_consistent.
  - apply uuid_truthy.
  - apply uuid_inj.
  - reflexivity.
Defined.

(** X11. [POST /api/artists] without aliases keeps the resolver
    invariant when the id it draws is non-empty and new. A name that is
    empty after trimming is answered "name required" and a trimmed name
    that already resolves is answered "already exists", both with the
    store unchanged. Any other name is answered "created" with the drawn
    id: the trimmed name then resolves to the created artist, which is
    live under that id, every other id resolves as before, and the shows
    are unchanged. *)
Theorem create_artist_consistent s name fresh :
  consistent s →
  Py.truthy fresh = true →
  get_artist s fresh = None →
  let name' := Py.strip (default EmptyString name) in
  let created :=
    {| a_id := fresh; a_name := name'; a_aliases := [] |} in
  let r := AdminApi.create_artist s name None fresh in
  consistent (snd r)
  ∧ (if Py.truthy name'
     then
       match find_artist_by_name s name' with
       | Some _ => r = (AdminApi.AlreadyExists name', s)
       | None =>
           fst r = AdminApi.Created fresh
           ∧ find_artist_by_name (snd r) name' = Some created
           ∧ get_artist (snd r) fresh = Some created
           ∧ (∀ j, j ≠ fresh → get_artist (snd r) j = get_artist s j)
           ∧ _shows (snd r) = _shows s
       end
     else r = (AdminApi.NameRequired, s)).
Proof.
  intros Hs Ht Hnew. cbn zeta. unfold AdminApi.create_artist.
  set (name' := Py.strip (default EmptyString name)).
  destruct (Py.truthy name'); cbn [negb]; [|done].
  destruct (find_artist_by_name s name') as [a|] eqn:Hf; [done|].
  cbn [fst snd default a_id]. split_and!; try done.
  - apply add_consistent; [done | done | done |].
    intros (b & k & Hb & _ & Hk & Hkb).
    unfold artist_keys in Hk. cbn [a_name a_aliases map] in Hk.
    apply list_elem_of_singleton in Hk as ->.
    by apply (find_None_unowned s name' b Hs Hf Hb).
  - by apply (find_after_add s
                {| a_id := fresh; a_name := name'; a_aliases := [] |}).
  - unfold get_artist, add_artist. cbn [_artists].
    exact (artists_get_set_eq (_artists s)
             {| a_id := fresh; a_name := name'; a_aliases := [] |}).
  - intros j Hj. unfold get_artist, add_artist. cbn [_artists].
    apply artists_get_set_ne. cbn [a_id]. congruence.
Qed.

(** X11, witness: a name with surrounding white space posted to the empty
    store is created under its trimmed form. *)
Lemma create_artist_consistent_witness :
  let created :=
    {| a_id := "uuid-1"; a_name := "Neon Trees"; a_aliases := [] |} in
  let r := AdminApi.create_artist empty_store (Some " Neon Trees ") None
             "uuid-1" in
  consistent (snd r)
  ∧ fst r = AdminApi.Created "uuid-1"
  ∧ find_artist_by_name (snd r) "Neon Trees" = Some created
  ∧ get_artist (snd r) "uuid-1" = Some created
  ∧ (∀ j, j ≠ "uuid-1" → get_artist (snd r) j = get_artist empty_store j)
  ∧ _shows (snd r) = _shows empty_store.
Proof.
  apply (create_artist_consistent empty_store (Some " Neon Trees ")
           "uuid-1").
  - apply empty_consistent.
  - reflexivity.
  - reflexivity.
Defined.

(** The other two answers: an empty name and a name that resolves. *)
Example create_artist_rejections :
  AdminApi.create_artist Examples.two_artists (Some "  ") None "uuid-1"
  = (AdminApi.NameRequired, Examples.two_artists)
  ∧ AdminApi.create_artist Examples.two_artists (Some "the neon trees")
      None "uuid-1"
    = (AdminApi.AlreadyExists "the neon trees", Examples.two_artists).
Proof. split; vm_compute; reflexivity. Qed.

(** *** [migrate_data.process_show] *)

Lemma link_step_spec fresh store parsed :
  let st := foldl (Migrate.link_step fresh) ([], store, 0) parsed in
  length (st.1.1) = length parsed
  ∧ (∀ sa, In sa (st.1.1) → is_Some (get_artist (st.1.2) (artist_id sa)))
  ∧ (∀ k sa, st.1.1 !! k = Some sa →
             billing_order sa
             = if is_headliner sa then 0%Z else (Z.of_nat k + 1)%Z)
  ∧ map is_headliner (st.1.1) = map LlmParser.is_headliner parsed
  ∧ _shows (st.1.2) = _shows store.
Proof.
  induction parsed as [|x parsed IH] using rev_ind.
  { cbn. split_and!; done. }
  rewrite foldl_app. cbn [foldl]. cbn zeta in IH.
  destruct (foldl (Migrate.link_step fresh) ([], store, 0) parsed)
    as [[linked st1] n].
  cbn [fst snd] in IH. destruct IH as (H1 & H2 & H3 & H4 & H5).
  unfold Migrate.link_step.
  pose proof (get_or_create_live st1 (LlmParser.name x) None (fresh n))
    as Hlive.
  pose proof (get_or_create_keeps st1 (LlmParser.name x) None (fresh n))
    as Hkeep.
  pose proof (get_or_create_shows st1 (LlmParser.name x) None (fresh n))
    as Hshows.
  cbn zeta in Hlive.
  destruct (get_or_create_artist st1 (LlmParser.name x) None (fresh n))
    as [artist st2].
  cbn [fst snd] in Hlive, Hkeep, Hshows |- *.
  split_and!.
  - rewrite !length_app. cbn [length]. lia.
  - intros sa [Hsa | [<- | []]]%in_app_or.
    + by apply Hkeep, H2.
    + cbn [artist_id]. rewrite Hlive. by eexists.
  - intros k sa Hk. apply lookup_app_Some in Hk as [Hk | [Hge Hk]].
    + by apply H3.
    + apply list_lookup_singleton_Some in Hk as [Hk <-].
      cbn [billing_order is_headliner].
      replace k with (length linked) by lia. done.
  - rewrite !map_app, H4. done.
  - by rewrite Hshows.
Qed.

(** X12. The show built by [migrate_data.process_show] has one link for
    each parsed artist, in order and with its headliner flag, and every
    link refers to a live artist of the resulting store. The link at
    position [k] (from 0) has billing order 0 when it is a headliner and
    [k + 1] otherwise, so an opener that follows a headliner gets 2, not
    1. *)
Theorem process_show_links raw parser store show_id fresh :
  let r := Migrate.process_show raw parser store show_id fresh in
  let parsed :=
    LlmParser.artists
      (LlmParser.parse parser (Migrate.r_title raw)
         (Migrate.r_description raw) (Migrate.r_date raw)) in
  map is_headliner (s_artists (fst r)) = map LlmParser.is_headliner parsed
  ∧ (∀ sa, In sa (s_artists (fst r)) →
           is_Some (get_artist (snd r) (artist_id sa)))
  ∧ (∀ k sa, s_artists (fst r) !! k = Some sa →
             billing_order sa
             = if is_headliner sa then 0%Z else (Z.of_nat k + 1)%Z).
Proof.
  unfold Migrate.process_show, Migrate.link_artists.
  pose proof (link_step_spec fresh store
                (LlmParser.artists
                   (LlmParser.parse parser (Migrate.r_title raw)
                      (Migrate.r_description raw) (Migrate.r_date raw))))
    as Hspec.
  cbn zeta in Hspec.
  destruct (foldl (Migrate.link_step fresh) ([], store, 0) _)
    as [[linked st1] n].
  cbn [fst snd s_artists] in Hspec |- *.
  destruct Hspec as (_ & H2 & H3 & H4 & _). done.
Qed.

(** The bill "Neon Trees w/ Band X" migrates to the billing orders 0 and
    2. *)
Example migrated_billing_orders :
  map billing_order
    (s_artists
       (fst (Migrate.process_show
               {| Migrate.r_title := "Neon Trees w/ Band X";
                  Migrate.r_description := EmptyString;
                  Migrate.r_date := "2006-02-11" |}
               LlmParser.rule_based empty_store "show-1" Examples.uuid)))
  = [0%Z; 2%Z].
Proof. vm_compute. reflexivity. Qed.

End Endpoints.

(** ** The candidates of the rule-based parser *)

Section Candidates.
Import Re LlmParser.

Lemma rstrip_with_cons p c s :
  Py.rstrip_with p (String c s)
  = match Py.rstrip_with p s with
    | EmptyString => if p c then EmptyString else String c EmptyString
    | r => String c r
    end.
Proof. done. Qed.

Lemma rstrip_with_idem p s :
  Py.rstrip_with p (Py.rstrip_with p s) = Py.rstrip_with p s.
Proof.
  induction s as [|c s IH]; [done|]. rewrite rstrip_with_cons.
  destruct (Py.rstrip_with p s) as [|d r] eqn:E.
  - destruct (p c) eqn:Hc; [done|]. rewrite rstrip_with_cons.
    cbn [Py.rstrip_with]. by rewrite Hc.
  - by rewrite (rstrip_with_cons p c (String d r)), IH.
Qed.

Lemma lstrip_with_head p s :
  Py.lstrip_with p s = EmptyString
  ∨ ∃ c r, Py.lstrip_with p s = String c r ∧ p c = false.
Proof.
  induction s as [|c s IH]; cbn [Py.lstrip_with]; [by left|].
  destruct (p c) eqn:E; [done|]. right. by exists c, s.
Qed.

Lemma rstrip_with_head p c r :
  p c = false → ∃ r', Py.rstrip_with p (String c r) = String c r'.
Proof.
  intros Hc. rewrite rstrip_with_cons.
  destruct (Py.rstrip_with p r); [rewrite Hc|]; by eexists.
Qed.

(** [strip] is idempotent. *)
Lemma strip_with_idem p s :
  Py.strip_with p (Py.strip_with p s) = Py.strip_with p s.
Proof.
  unfold Py.strip_with.
  destruct (lstrip_with_head p s) as [-> | (c & r & -> & Hc)]; [done|].
  destruct (rstrip_with_head p c r Hc) as [r' E]. rewrite E.
  cbn [Py.lstrip_with]. rewrite Hc, <- E. apply rstrip_with_idem.
Qed.

(** X13. Every string that [_split_artists] returns is non-empty and has
    no white space at either end, whatever the text. *)
Theorem split_artists_stripped text :
  Forall (fun a => Py.truthy a = true ∧ Py.strip a = a)
         (_split_artists text).
Proof.
  unfold _split_artists.
  generalize (concat
                (map (fun part =>
                        concat (map split_subpart (re_split comma_re part)))
                   (re_split with_re text))).
  intros all. induction all as [|a all IH]; cbn [List.filter map];
    [constructor|].
  destruct (Py.truthy (Py.strip a)) eqn:E; [|done].
  cbn [map]. constructor; [|done]. split; [done|].
  apply strip_with_idem.
Qed.

Lemma candidates_not_headliner i raws :
  0 < i → Forall (fun a => is_headliner a = false) (candidates i raws).
Proof.
  revert i. induction raws as [|raw raws IH]; intros i Hi;
    cbn [candidates]; [constructor|].
  unfold candidate.
  destruct (Py.truthy (_clean_artist_name raw)
            && (1 <? String.length (_clean_artist_name raw))
            && negb (_is_noise (_clean_artist_name raw)));
    [|apply IH; lia].
  constructor; [|apply IH; lia]. cbn [is_headliner].
  apply Nat.eqb_neq. lia.
Qed.

Lemma candidates_names i raws :
  Forall (fun a => 2 ≤ String.length (name a)
                   ∧ _is_noise (name a) = false
                   ∧ Py.strip (name a) = name a
                   ∧ artist_confidence a = conf_0_7)
         (candidates i raws).
Proof.
  revert i. induction raws as [|raw raws IH]; intros i;
    cbn [candidates]; [constructor|].
  unfold candidate.
  destruct (Py.truthy (_clean_artist_name raw)
            && (1 <? String.length (_clean_artist_name raw))
            && negb (_is_noise (_clean_artist_name raw))) eqn:E;
    [|apply IH].
  constructor; [|apply IH]. cbn [name artist_confidence].
  apply andb_true_iff in E as [E Hn]. apply andb_true_iff in E as [_ Hl].
  apply Nat.ltb_lt in Hl. apply negb_true_iff in Hn.
  split_and!; [lia | done | | done].
  unfold _clean_artist_name. apply strip_with_idem.
Qed.

Lemma rules_based_confidence title description :
  confidence (_parse_rules_based title description) = conf_0_7.
Proof.
  unfold _parse_rules_based. cbn zeta.
  destruct (existsb _ _); by destruct (_ && _).
Qed.

(** X14. In every result of the rule-based path: each candidate name has
    at least two characters, is not noise and has no white space at either
    end; each candidate and the result carry confidence 0.7; only the
    first candidate can be the headliner, and none is when the first of
    the tokens (the list [candidates] walks) was rejected; and the result
    is flagged for review exactly when it carries a reason. *)
Theorem rules_based_candidates title description :
  let r := _parse_rules_based title description in
  Forall (fun a => 2 ≤ String.length (name a)
                   ∧ _is_noise (name a) = false
                   ∧ Py.strip (name a) = name a
                   ∧ artist_confidence a = conf_0_7)
         (artists r)
  ∧ Forall (fun a => is_headliner a = false) (tail (artists r))
  ∧ (∀ raw rest,
       candidate 0 raw = None →
       Forall (fun a => is_headliner a = false) (candidates 0 (raw :: rest)))
  ∧ confidence r = conf_0_7
  ∧ event_type r = "concert"
  ∧ (needs_review r = true ↔ is_Some (review_reason r)).
Proof.
  unfold _parse_rules_based.
  set (text := if Py.truthy description && negb (String.eqb description title)
               then title +:+ " " +:+ description else title).
  set (raws := _split_artists (_clean_text text)).
  cbn zeta.
  destruct (existsb (fun a => Py.contains "&" (name a)) (candidates 0 raws));
    destruct ((length (candidates 0 raws) =? 0)
              && negb (_is_closed_event (Py.lower text)));
    cbn [artists confidence event_type needs_review review_reason].
  all: split_and!; try done; try apply candidates_names.
  all: try (split; [by eexists | done]).
  all: try (split; [done | by intros [? ?]]).
  all: try (intros raw rest Hnone; cbn [candidates];
            rewrite Hnone; apply candidates_not_headliner; lia).
  all: destruct raws as [|raw rest]; [constructor|]; cbn [candidates];
    (destruct (candidate 0 raw);
     [cbn [tail]; apply candidates_not_headliner; lia|]);
    pose proof (candidates_not_headliner 1 rest (le_n 1)) as H;
    destruct (candidates 1 rest); [constructor|];
    cbn [tail]; by apply Forall_inv_tail in H.
Qed.

(** X15. When the client of the delegated strategy raises on a listing
    that is not short-circuited, [parse] returns the rule-based result
    with the same candidates and confidence 0.7, flagged for review with
    the reason "LLM parsing failed: " followed by the message. *)
Theorem parse_llm_failure client title description date msg :
  _is_closed_event (text_lower title description) = false →
  _is_open_mic (text_lower title description) = false →
  _is_improv (text_lower title description) = false →
  client title description date = Raised msg →
  let r := parse {| use_llm := true; _client := Some client |}
             title description date in
  artists r = artists (_parse_rules_based title description)
  ∧ confidence r = conf_0_7
  ∧ needs_review r = true
  ∧ review_reason r = Some ("LLM parsing failed: " +:+ msg).
Proof.
  intros Hc Ho Hi Hraise. unfold parse. rewrite Hc, Ho, Hi.
  cbn [use_llm _client]. unfold _parse_with_llm. rewrite Hraise.
  cbn [artists confidence needs_review review_reason].
  split_and!; try done. apply rules_based_confidence.
Qed.

(** X15, witness: a client that always raises. *)
Lemma parse_llm_failure_witness :
  let r := parse {| use_llm := true;
                    _client := Some (fun _ _ _ => Raised "timeout") |}
             "Neon Trees w/ Band X" EmptyString EmptyString in
  artists r
  = artists (_parse_rules_based "Neon Trees w/ Band X" EmptyString)
  ∧ confidence r = conf_0_7
  ∧ needs_review r = true
  ∧ review_reason r = Some ("LLM parsing failed: " +:+ "timeout").
Proof.
  apply (parse_llm_failure (fun _ _ _ => Raised "timeout")
           "Neon Trees w/ Band X" EmptyString EmptyString "timeout");
    reflexivity.
Defined.

Lemma startswith_prefix a b s :
  Py.startswith (a +:+ b) s = true → Py.startswith a s = true.
Proof.
  revert s. induction a as [|x a IH]; intros s; [done|].
  rewrite append_cons. destruct s as [|y s]; cbn [Py.startswith]; [done|].
  intros [-> H]%andb_true_iff. by rewrite (IH _ H).
Qed.

Lemma contains_prefix a b s :
  Py.contains (a +:+ b) s = true → Py.contains a s = true.
Proof.
  induction s as [|y s IH]; cbn [Py.contains].
  - rewrite !orb_false_r. apply startswith_prefix.
  - intros [H | H]%orb_true_iff.
    + by rewrite (startswith_prefix _ _ _ H).
    + rewrite (IH H). apply orb_true_r.
Qed.

(** X16. The two classifiers agree in one direction: a listing that
    [parse] short-circuits as closed is a non-music event for
    [classify_event_type], and a listing that [parse] short-circuits at all
    is never a concert for [classify_event_type]. *)
Theorem parse_short_circuit_classified title description :
  let text := text_lower title description in
  (_is_closed_event text = true →
   fst (DataModel.classify_event_type title description) = false)
  ∧ (_is_closed_event text || _is_open_mic text || _is_improv text = true →
     snd (DataModel.classify_event_type title description) ≠ "concert").
Proof.
  cbn zeta. unfold text_lower.
  set (text := Py.lower (title +:+ " " +:+ description)).
  assert (_is_closed_event text = true →
          DataModel.any_keyword DataModel.NON_MUSIC_KEYWORDS text = true)
    as Hclosed.
  { unfold _is_closed_event, closed_keywords, DataModel.any_keyword,
      DataModel.NON_MUSIC_KEYWORDS.
    cbn [existsb]. intros [H | H]%orb_true_iff; [|by rewrite H, orb_true_r].
    by rewrite (contains_prefix "closed" " for" text H). }
  split.
  - intros H%Hclosed. unfold DataModel.classify_event_type. fold text.
    by rewrite H.
  - intros H.
    assert (∃ kw, In kw (DataModel.NON_MUSIC_KEYWORDS
                         ++ DataModel.OPEN_MIC_KEYWORDS
                         ++ DataModel.IMPROV_KEYWORDS)
                  ∧ Py.contains kw text = true) as (kw & Hin & Hkw).
    { apply orb_true_iff in H as [H | H];
        [apply orb_true_iff in H as [H | H]|].
      - apply Hclosed, existsb_exists in H as (kw & Hin & Hkw).
        exists kw. split; [|done]. apply in_or_app. by left.
      - unfold _is_open_mic in H. apply orb_true_iff in H as [H | H].
        + exists "open-mic". split; [|done]. cbn. tauto.
        + exists "open mic". split; [|done]. cbn. tauto.
      - unfold _is_improv in H. apply orb_true_iff in H as [H | H].
        + exists "thrillionaires". split; [|done]. cbn. tauto.
        + exists "improv theater". split; [|done]. cbn. tauto. }
    by apply (classify_event_type_keyword title description kw).
Qed.

End Candidates.

(** ** The cache of [BatchParser] *)

Section Cache.
Import LlmParser Batch.

Lemma dict_round_trip r : _dict_to_result (_result_to_dict r) = r.
Proof.
  destruct r as [arts m t g tp so c nr rr].
  unfold _dict_to_result, _result_to_dict.
  cbn [d_artists d_is_music_event d_event_type d_genre d_ticket_price
       d_sold_out d_result_confidence d_needs_review d_review_reason
       artists is_music_event event_type genre ticket_price sold_out
       confidence needs_review review_reason default from_option id].
  f_equal. induction arts as [|a arts IH]; [done|].
  cbn [map]. rewrite IH. by destruct a.
Qed.

(** X17. With the cache on, a second [parse_show] of the same show id,
    title and description returns the result of the first call and leaves
    the cache as it is, whatever the date passed and whatever the parser
    would answer for it; the first call writes the entry of that show only. *)
Theorem parse_show_cached self show_id title description date date' :
  let r1 := parse_show self show_id title description date true in
  parse_show (snd r1) show_id title description date' true = r1
  ∧ is_Some (_cache (snd r1) !! cache_key show_id title description)
  ∧ (∀ k, k ≠ cache_key show_id title description →
          _cache (snd r1) !! k = _cache self !! k).
Proof.
  unfold parse_show.
  destruct (_cache self !! cache_key show_id title description)
    as [data|] eqn:Hc.
  - cbn [fst snd]. rewrite Hc. split_and!; [done | by eexists | done].
  - cbn [fst snd _cache parser]. rewrite lookup_insert_eq.
    rewrite dict_round_trip. split_and!; [done | by eexists |].
    intros k Hk. by rewrite lookup_insert_ne.
Qed.

End Cache.

(** ** Invariants of the graph builder *)

Section BuilderInvariants.
Import Network.

Variable set_order : list string → list string.

Lemma normalize_artist_name_spec st name :
  let r := normalize_artist_name st name in
  fst r = normalize name
  ∧ unique_artists (snd r) = unique_artists st
  ∧ artist_shows (snd r) = artist_shows st
  ∧ artist_connections (snd r) = artist_connections st
  ∧ is_Some (normalized_artists (snd r) !! normalize name)
  ∧ (∀ m, is_Some (normalized_artists st !! m) →
          is_Some (normalized_artists (snd r) !! m))
  ∧ ((∀ n display, normalized_artists st !! n = Some display →
                   normalize display = n) →
     ∀ n display, normalized_artists (snd r) !! n = Some display →
                  normalize display = n).
Proof.
  unfold normalize_artist_name. cbn [fst snd].
  destruct (normalized_artists st !! normalize name) as [d|] eqn:E.
  - split_and!; done.
  - cbn [unique_artists artist_shows artist_connections normalized_artists].
    split_and!; try done.
    + rewrite lookup_insert_eq. by eexists.
    + intros m Hm. destruct (decide (m = normalize name)) as [->|Hne].
      * rewrite lookup_insert_eq. by eexists.
      * by rewrite lookup_insert_ne.
    + intros Hn n display.
      destruct (decide (n = normalize name)) as [->|Hne].
      * rewrite lookup_insert_eq. by intros [= <-].
      * rewrite lookup_insert_ne by done. apply Hn.
Qed.

Lemma track_well_formed show st a :
  well_formed st →
  well_formed (track show st a)
  ∧ normalize a ∈ unique_artists (track show st a)
  ∧ unique_artists st ⊆ unique_artists (track show st a).
Proof.
  intros (Ha & Hb & Hc & Hd). unfold track.
  pose proof (normalize_artist_name_spec st a) as Hspec. cbn zeta in Hspec.
  destruct (normalize_artist_name st a) as [n st1].
  cbn [fst snd] in Hspec.
  destruct Hspec as (-> & Hu & Hs & Hcn & Hsome & Hmono & Hkeep).
  unfold well_formed.
  cbn [unique_artists artist_shows artist_connections normalized_artists].
  rewrite Hu, Hs, Hcn. split_and!.
  - intros k Hk. destruct (Ha k Hk). set_solver.
  - done.
  - by apply Hkeep.
  - intros m [Hm | ->%elem_of_singleton]%elem_of_union.
    + destruct (Hd m Hm) as [Hdisp (shows & Hshows & Hne)].
      split; [by apply Hmono|].
      destruct (decide (m = normalize a)) as [->|Hneq].
      * rewrite lookup_insert_eq. eexists. split; [done|].
        intros H. by apply app_eq_nil in H as [_ H].
      * rewrite lookup_insert_ne by done. by exists shows.
    + split; [done|]. rewrite lookup_insert_eq. eexists. split; [done|].
      intros H. by apply app_eq_nil in H as [_ H].
  - set_solver.
  - set_solver.
Qed.

Lemma connect_well_formed st p :
  well_formed st →
  normalize (fst p) ∈ unique_artists st →
  normalize (snd p) ∈ unique_artists st →
  well_formed (connect st p)
  ∧ unique_artists (connect st p) = unique_artists st.
Proof.
  intros (Ha & Hb & Hc & Hd) H1 H2. unfold connect.
  pose proof (normalize_artist_name_spec st (fst p)) as Hs1.
  cbn zeta in Hs1.
  destruct (normalize_artist_name st (fst p)) as [n1 st1].
  cbn [fst snd] in Hs1.
  destruct Hs1 as (-> & Hu1 & Hsh1 & Hcn1 & _ & Hmono1 & Hkeep1).
  pose proof (normalize_artist_name_spec st1 (snd p)) as Hs2.
  cbn zeta in Hs2.
  destruct (normalize_artist_name st1 (snd p)) as [n2 st2].
  cbn [fst snd] in Hs2.
  destruct Hs2 as (-> & Hu2 & Hsh2 & Hcn2 & _ & Hmono2 & Hkeep2).
  unfold well_formed.
  cbn [unique_artists artist_shows artist_connections normalized_artists].
  rewrite Hu2, Hu1, Hsh2, Hsh1, Hcn2, Hcn1. split; [|done]. split_and!.
  - intros k.
    destruct (decide (k = sorted_pair (normalize (fst p))
                            (normalize (snd p)))) as [->|Hne].
    + intros _. unfold sorted_pair. by destruct (String.ltb _ _).
    + rewrite lookup_insert_ne by done. apply Ha.
  - intros k n.
    destruct (decide (k = sorted_pair (normalize (fst p))
                            (normalize (snd p)))) as [->|Hne].
    + rewrite lookup_insert_eq. intros [= <-].
      destruct (artist_connections st !! _) as [m|] eqn:Hm;
        cbn [default from_option]; unfold id; [|lia].
      specialize (Hb _ _ Hm). lia.
    + rewrite lookup_insert_ne by done. apply Hb.
  - by apply Hkeep2, Hkeep1.
  - intros m Hm. destruct (Hd m Hm) as [Hdisp Hshows].
    split; [by apply Hmono2, Hmono1 | done].
Qed.

Lemma later_pairs_elem (l : list string) a b :
  (a, b) ∈ later_pairs l → a ∈ l ∧ b ∈ l.
Proof.
  induction l as [|x l IH]; cbn [later_pairs].
  { intros H. by apply elem_of_nil in H. }
  intros [H | H]%elem_of_app.
  - apply (list_elem_of_fmap_1 (pair x)) in H as (y & [= -> ->] & Hy).
    split; [left | by right].
  - destruct (IH H). split; by right.
Qed.

Lemma process_show_well_formed st show :
  well_formed st → well_formed (process_show set_order st show).
Proof.
  intros Hst. unfold process_show.
  generalize (extract_artists_from_show set_order show). intros l.
  destruct l as [|a0 l0]; [done|].
  set (l := a0 :: l0).
  assert (∀ l st, well_formed st →
            well_formed (foldl (track show) st l)
            ∧ (∀ a, a ∈ l →
                    normalize a ∈ unique_artists (foldl (track show) st l))
            ∧ unique_artists st ⊆ unique_artists (foldl (track show) st l))
    as Htrack.
  { clear. induction l as [|a l IH]; intros st Hst; cbn [foldl].
    { split_and!; [done | | done]. intros a H. by apply elem_of_nil in H. }
    destruct (track_well_formed show st a Hst) as (Hwf & Hin & Hsub).
    destruct (IH _ Hwf) as (Hwf' & Hin' & Hsub').
    split_and!; [done | | set_solver].
    intros b [-> | Hb]%elem_of_cons; [set_solver | by apply Hin']. }
  destruct (Htrack l st Hst) as (Hwf & Hin & _).
  destruct (1 <? length l); [|done].
  assert (∀ ps st, well_formed st →
            (∀ p, p ∈ ps → normalize (fst p) ∈ unique_artists st
                           ∧ normalize (snd p) ∈ unique_artists st) →
            well_formed (foldl connect st ps)) as Hconnect.
  { clear. induction ps as [|p ps IH]; intros st Hst Hps; cbn [foldl];
      [done|].
    destruct (Hps p) as [H1 H2]; [left|].
    destruct (connect_well_formed st p Hst H1 H2) as [Hwf Hu].
    apply IH; [done|]. intros q Hq. rewrite Hu. apply Hps. by right. }
  apply Hconnect; [done|]. intros [a b] Hp.
  apply later_pairs_elem in Hp as [Ha Hb]. cbn [fst snd]. auto.
Qed.

Lemma process_all_shows_well_formed all_shows :
  well_formed (process_all_shows set_order all_shows).
Proof.
  unfold process_all_shows.
  assert (well_formed initial) as Hinit.
  { unfold well_formed, initial.
    cbn [unique_artists artist_shows artist_connections normalized_artists].
    split_and!.
    - intros k. rewrite lookup_empty. by intros [? ?].
    - intros k n. by rewrite lookup_empty.
    - intros n d. by rewrite lookup_empty.
    - intros n Hn. by apply not_elem_of_empty in Hn. }
  revert Hinit. generalize initial.
  induction all_shows as [|show l IH]; intros st Hst; [done|].
  cbn [foldl]. by apply IH, process_show_well_formed.
Qed.

(** X18. In the graph built by [process_all_shows], whatever the shows:
    every edge joins two artists of [unique_artists], with a weight of at
    least 1 that is also its [shows_together]; and every artist of
    [unique_artists] has a display name whose normalization is the artist
    key, and a non-empty list of shows (so its node size is at least 1). *)
Theorem graph_well_formed all_shows :
  let st := process_all_shows set_order all_shows in
  Forall (fun e => source e ∈ unique_artists st
                   ∧ target e ∈ unique_artists st
                   ∧ (1 ≤ weight e)%Z
                   ∧ shows_together e = weight e)
         (edges_of st)
  ∧ (∀ n, n ∈ unique_artists st →
          (∃ display, normalized_artists st !! n = Some display
                      ∧ normalize display = n)
          ∧ ∃ shows, artist_shows st !! n = Some shows
                     ∧ 1 ≤ length shows).
Proof.
  intros st.
  destruct (process_all_shows_well_formed all_shows)
    as (Ha & Hb & Hc & Hd).
  fold st in Ha, Hb, Hc, Hd. split.
  - apply Forall_forall. intros e He. unfold edges_of in He.
    apply list_elem_of_fmap_1 in He as ([[a1 a2] n] & -> & Hin).
    apply elem_of_map_to_list in Hin.
    cbn [source target weight shows_together].
    destruct (Ha (a1, a2)) as [H1 H2]; [by eexists|].
    split_and!; [done | done | by apply (Hb (a1, a2)) | done].
  - intros n Hn. destruct (Hd n Hn) as [[display Hdisp] (shows & Hs & Hne)].
    split.
    + exists display. split; [done | by apply Hc].
    + exists shows. split; [done|]. destruct shows; [done | cbn; lia].
Qed.

(** X19. A show without a date or without a title, and a show whose
    lower-cased title contains "open-mic", "open mic", "prom", "dance" or
    "festival" anywhere, adds nothing to the graph: [process_show] returns
    the state unchanged. *)
Theorem process_show_skipped st show :
  Py.truthy (get (date show)) = false
  ∨ Py.truthy (get (title show)) = false
  ∨ any_in ["open-mic"; "open mic"; "prom"; "dance"; "festival"]
      (Py.lower (get (title show))) = true →
  process_show set_order st show = st.
Proof.
  intros H. unfold process_show, extract_artists_from_show.
  destruct H as [-> | [-> | H]]; [done | by rewrite orb_true_r |].
  rewrite H. by destruct (negb _ || negb _).
Qed.

End BuilderInvariants.

Section BuilderExamples.
Import Network.

(** X19, witness: "prom" is found inside "The Promise Ring". *)
Lemma process_show_skipped_witness :
  process_show remove_dups initial
    {| date := Some "2006-03-04";
       title := Some "The Promise Ring w/ Band X";
       artists := None; description := None |}
  = initial.
Proof.
  apply (process_show_skipped remove_dups initial
           {| date := Some "2006-03-04";
              title := Some "The Promise Ring w/ Band X";
              artists := None; description := None |}).
  right. right. vm_compute. reflexivity.
Defined.

End BuilderExamples.

(** ** The network after edits and merges *)

Section Repointing.
Import NetworkEdits.

Lemma update_nodes_spec m am ns :
  fst (update_nodes m am ns)
  = map (update_node am)
      (List.filter (fun n => bool_decide (m !! id n = None)) ns)
  ∧ ∀ i, i ∈ snd (update_nodes m am ns) ↔
         ∃ n, n ∈ ns ∧ id n = i ∧ is_Some (m !! i).
Proof.
  unfold update_nodes.
  induction ns as [|n ns IH] using rev_ind.
  { cbn. split; [done|]. intros i. split.
    - intros H. by apply not_elem_of_empty in H.
    - intros (n & H & _). by apply elem_of_nil in H. }
  rewrite foldl_app. cbn [foldl].
  destruct (foldl _ ([], ∅) ns) as [updated rm]. cbn [fst snd] in IH.
  destruct IH as [IH1 IH2]. rewrite List.filter_app, map_app.
  cbn [List.filter]. destruct (m !! id n) as [t|] eqn:E.
  - rewrite bool_decide_eq_false_2 by done. cbn [fst snd map].
    rewrite app_nil_r. split; [done|]. intros i.
    rewrite elem_of_union, elem_of_singleton, IH2. split.
    + intros [(n' & ? & ? & ?) | ->].
      * exists n'. split; [apply elem_of_app; by left | done].
      * exists n. split_and!; [apply elem_of_app; right; left | done |
                               by rewrite E].
    + intros (n' & [Hn' | ->%list_elem_of_singleton]%elem_of_app & Hid & Hs).
      * left. by exists n'.
      * by right.
  - rewrite bool_decide_eq_true_2 by done. cbn [fst snd map].
    rewrite IH1. split; [done|]. intros i. rewrite IH2. split.
    + intros (n' & ? & ? & ?).
      exists n'. split; [apply elem_of_app; by left | done].
    + intros (n' & [Hn' | ->%list_elem_of_singleton]%elem_of_app & Hid & Hs).
      * by exists n'.
      * rewrite <- Hid, E in Hs. by destruct Hs.
Qed.

Lemma update_edges_elem m (rm : gset string) es e' :
  e' ∈ update_edges m rm es →
  ∃ e, e ∈ es
       ∧ e' = set_ends e (rename m (source e)) (rename m (target e))
       ∧ source e' ≠ target e'
       ∧ (source e' ∉ rm) ∧ (target e' ∉ rm).
Proof.
  unfold update_edges. induction es as [|x es IH] using rev_ind.
  { intros H. by apply elem_of_nil in H. }
  rewrite foldl_app. cbn [foldl].
  assert (e' ∈ foldl
            (fun updated_edges edge =>
               if String.eqb (rename m (source edge))
                    (rename m (target edge))
               then updated_edges
               else if bool_decide (rename m (source edge) ∈ rm)
                       || bool_decide (rename m (target edge) ∈ rm)
               then updated_edges
               else updated_edges ++
                    [set_ends edge (rename m (source edge))
                       (rename m (target edge))]) [] es →
          ∃ e, e ∈ es ++ [x]
               ∧ e' = set_ends e (rename m (source e))
                        (rename m (target e))
               ∧ source e' ≠ target e'
               ∧ (source e' ∉ rm) ∧ (target e' ∉ rm))
    as Hold.
  { intros (e & He & Hrest)%IH. exists e.
    split; [apply elem_of_app; by left | done]. }
  destruct (String.eqb (rename m (source x)) (rename m (target x))) eqn:Eq;
    [done|].
  destruct (bool_decide (rename m (source x) ∈ rm)) eqn:Es; [done|].
  destruct (bool_decide (rename m (target x) ∈ rm)) eqn:Et; [done|].
  cbn [orb].
  intros [H | ->%list_elem_of_singleton]%elem_of_app; [by apply Hold|].
  exists x. cbn [set_ends source target].
  apply String.eqb_neq in Eq. apply bool_decide_eq_false in Es, Et.
  split_and!; [apply elem_of_app; right; left | done..].
Qed.

Lemma combine_ends e x :
  source (combine e x) = source e ∧ target (combine e x) = target e.
Proof. unfold combine. by destruct (shows x), (shows e). Qed.

(** The duplicate loop on any edges: one edge per unordered pair, each
    with the ends of an edge it was given. *)
Lemma dedup_ends es :
  let st := foldl dedup_step (∅, []) es in
  (∀ k, k ∈ st.1 ↔ k ∈ map edge_key st.2)
  ∧ NoDup (map edge_key st.2)
  ∧ (∀ e', e' ∈ st.2 →
           ∃ e, e ∈ es ∧ source e' = source e ∧ target e' = target e).
Proof.
  induction es as [|x es IH] using rev_ind.
  { cbn. split_and!; [set_solver | constructor |].
    intros e' H. by apply elem_of_nil in H. }
  rewrite foldl_app. cbn [foldl]. cbn zeta in IH.
  destruct (foldl dedup_step (∅, []) es) as [seen final].
  cbn [fst snd] in IH. destruct IH as (Hseen & Hnd & Hends).
  unfold dedup_step. destruct (bool_decide (edge_key x ∈ seen)) eqn:E;
    cbn [fst snd].
  - rewrite merge_into_keys. split_and!; [done | done |].
    intros e' He'.
    apply (merge_into_elem _ _ _ Hnd) in He'
      as [[He' _] | (e & He & _ & ->)].
    + destruct (Hends e' He') as (e0 & ? & ? & ?). exists e0.
      split_and!; [apply elem_of_app; by left | done | done].
    + destruct (Hends e He) as (e0 & ? & ? & ?).
      destruct (combine_ends e x) as [-> ->]. exists e0.
      split_and!; [apply elem_of_app; by left | done | done].
  - apply bool_decide_eq_false in E. rewrite map_app. cbn [map].
    split_and!.
    + intros k. rewrite elem_of_union, elem_of_singleton, elem_of_app,
        list_elem_of_singleton, Hseen. done.
    + apply NoDup_app. split_and!; [done | | apply NoDup_singleton].
      intros k Hk ->%list_elem_of_singleton. by apply E, Hseen.
    + intros e' [He' | ->%list_elem_of_singleton]%elem_of_app.
      * destruct (Hends e' He') as (e0 & ? & ? & ?). exists e0.
        split_and!; [apply elem_of_app; by left | done | done].
      * exists x. split_and!; [apply elem_of_app; right; left | done | done].
Qed.

(** X20. In the network that [update_network_data] returns, whatever the
    input: no two edges join the same unordered pair; no edge is a
    self-loop; the ends of every edge are the re-pointed ends of an input
    edge; and no edge touches a node that the name mapping re-points. *)
Theorem updated_edges_well_formed nd am changes :
  let out := update_network_data nd am changes in
  let m := build_mapping changes in
  NoDup (map edge_key (edges out))
  ∧ Forall (fun e =>
              source e ≠ target e
              ∧ (∃ e0, e0 ∈ edges nd
                       ∧ source e = rename m (source e0)
                       ∧ target e = rename m (target e0))
              ∧ (∀ n, n ∈ nodes nd → is_Some (m !! id n) →
                      source e ≠ id n ∧ target e ≠ id n))
           (edges out).
Proof.
  cbn zeta. unfold update_network_data.
  pose proof (update_nodes_spec (build_mapping changes) am (nodes nd))
    as [_ Hrm].
  destruct (update_nodes (build_mapping changes) am (nodes nd))
    as [updated rm].
  cbn [snd] in Hrm. cbn [edges]. unfold remove_duplicate_edges.
  pose proof (dedup_ends
                (update_edges (build_mapping changes) rm (edges nd)))
    as (_ & Hnd & Hends).
  split; [done|]. apply Forall_forall. intros e' He'.
  destruct (Hends e' He') as (e & He & -> & ->).
  destruct (update_edges_elem _ _ _ _ He) as (e0 & He0 & Hee & Hne & Hs & Ht).
  split_and!; [done | exists e0; rewrite Hee; by split |].
  intros n Hn Hsome. split; intros Heq.
  - apply Hs, Hrm. exists n. by rewrite Heq.
  - apply Ht, Hrm. exists n. by rewrite Heq.
Qed.

Lemma update_node_id am n : id (update_node am n) = id n.
Proof. unfold update_node. by destruct (am !! id n). Qed.

(** X21. The nodes that [update_network_data] returns are the input nodes
    whose id the name mapping does not re-point, in their order and with
    their ids; a node whose id has a row in the edited artists takes the
    row's name as label and its show count as size, and any other node is
    returned as it was. *)
Theorem updated_nodes_kept nd am changes :
  let out := update_network_data nd am changes in
  let m := build_mapping changes in
  map id (nodes out)
  = List.filter (fun i => bool_decide (m !! i = None)) (map id (nodes nd))
  ∧ Forall (fun n =>
              m !! id n = None
              ∧ match am !! id n with
                | Some row =>
                    label n = artist_name row
                    ∧ size n = row_total_shows row
                    ∧ node_shows n = row_total_shows row
                | None => n ∈ nodes nd
                end)
           (nodes out).
Proof.
  cbn zeta. unfold update_network_data.
  pose proof (update_nodes_spec (build_mapping changes) am (nodes nd))
    as [Hfst _].
  destruct (update_nodes (build_mapping changes) am (nodes nd))
    as [updated rm].
  cbn [fst] in Hfst. cbn [nodes]. subst updated.
  generalize (nodes nd) as ns. intros ns.
  split.
  - induction ns as [|n ns IH]; [done|]. cbn [List.filter map].
    destruct (bool_decide (build_mapping changes !! id n = None));
      [|done].
    cbn [map]. by rewrite update_node_id, IH.
  - apply Forall_forall. intros n' Hn'.
    apply list_elem_of_fmap_1 in Hn' as (n & -> & Hn).
    apply list_elem_of_In, filter_In in Hn as [Hn Hkeep].
    apply bool_decide_eq_true in Hkeep. apply list_elem_of_In in Hn.
    rewrite update_node_id. split; [done|].
    unfold update_node. by destruct (am !! id n).
Qed.

Lemma set_ends_same e : set_ends e (source e) (target e) = e.
Proof. by destruct e. Qed.

Lemma dedup_distinct es :
  ∀ seen final,
    (∀ e, e ∈ es → edge_key e ∉ seen) →
    NoDup (map edge_key es) →
    snd (foldl dedup_step (seen, final) es) = final ++ es.
Proof.
  induction es as [|x es IH]; intros seen final Hseen Hnd; cbn [foldl].
  { by rewrite app_nil_r. }
  cbn [map] in Hnd. apply NoDup_cons in Hnd as [Hx Hnd].
  unfold dedup_step at 2.
  rewrite bool_decide_eq_false_2 by (apply Hseen; left).
  rewrite IH; [by rewrite <- app_assoc | | done].
  intros e He. rewrite elem_of_union, elem_of_singleton.
  intros [Hin | Heq].
  - apply (Hseen e); [by right | done].
  - apply Hx. rewrite <- Heq. by apply (list_elem_of_fmap_2 edge_key).
Qed.

(** X22. Without changes and without edited rows, [update_network_data]
    returns a network unchanged when none of its edges is a self-loop and
    no two of them join the same unordered pair. *)
Theorem update_without_changes nd :
  Forall (fun e => source e ≠ target e) (edges nd) →
  NoDup (map edge_key (edges nd)) →
  update_network_data nd ∅ [] = nd.
Proof.
  intros Hloop Hnd. unfold update_network_data.
  pose proof (update_nodes_spec (build_mapping []) ∅ (nodes nd))
    as [Hfst Hrm].
  destruct (update_nodes (build_mapping []) ∅ (nodes nd)) as [updated rm].
  cbn [fst snd] in Hfst, Hrm.
  assert (updated = nodes nd) as ->.
  { rewrite Hfst. clear. induction (nodes nd) as [|n ns IH]; [done|].
    cbn [List.filter]. unfold build_mapping at 1. cbn [foldl].
    rewrite bool_decide_eq_true_2 by apply lookup_empty. cbn [map].
    rewrite IH. unfold update_node. by rewrite lookup_empty. }
  assert (∀ i, i ∉ rm) as Hnone.
  { intros i (n & _ & _ & Hs)%Hrm. unfold build_mapping in Hs.
    cbn [foldl] in Hs. rewrite lookup_empty in Hs. by destruct Hs. }
  assert (update_edges (build_mapping []) rm (edges nd) = edges nd) as ->.
  { unfold update_edges, build_mapping, rename. cbn [foldl].
    clear Hnd Hfst Hrm. revert Hloop.
    induction (edges nd) as [|x es IH] using rev_ind; [done|].
    intros [Hes Hx]%Forall_app. apply Forall_inv in Hx.
    rewrite foldl_app. cbn [foldl]. rewrite (IH Hes).
    rewrite !lookup_empty. cbn [default from_option id].
    apply String.eqb_neq in Hx. rewrite Hx.
    rewrite !bool_decide_eq_false_2 by apply Hnone. cbn [orb].
    by rewrite set_ends_same. }
  unfold remove_duplicate_edges.
  rewrite dedup_distinct; [by destruct nd | | done].
  intros e _. apply not_elem_of_empty.
Qed.

(** X22, witness: the network of two edges around "band x". *)
Lemma update_without_changes_witness :
  update_network_data Examples.network_counted ∅ []
  = Examples.network_counted.
Proof.
  apply (update_without_changes Examples.network_counted).
  - repeat constructor; discriminate.
  - vm_compute. apply NoDup_cons. split; [|apply NoDup_singleton].
    intros H%list_elem_of_singleton. discriminate H.
Defined.

End Repointing.

(** ** Splitting names with the marker, and the edges of the fixed
       network *)

Section Splitting.
Import Re.

Lemma marker_needs_slash {A} (r : regex) prev (s : string)
    (k : option ascii → string → option A) :
  Py.mem_char "/" s = false →
  run (Seq (ichr "w") (Seq (chr "/") r)) prev s k = None
  ∧ run (Seq (ichr "w") (chr "/")) prev s k = None.
Proof.
  intros Hs. destruct s as [|x [|y s]]; cbn [run ichr chr]; [done| |].
  - by destruct (Ascii.eqb _ _).
  - destruct (Ascii.eqb (Py.lower_char x) _); [|done].
    cbn [Py.mem_char] in Hs. apply orb_false_iff in Hs as [_ Hs].
    apply orb_false_iff in Hs as [Hy _]. by rewrite Hy.
Qed.

(** Each alternative of the marker pattern needs a slash. *)
Lemma fix_w_with_re_needs_slash prev (s : string) :
  Py.mem_char "/" s = false → match_end FixW.with_re prev s = None.
Proof.
  intros Hs. unfold match_end, FixW.with_re. cbn [alts seqs].
  set (k := fun (_ : option ascii) (s' : string) =>
              Some (String.length s - String.length s')).
  assert (∀ r, run (Seq (plus ws) (Seq (ichr "w") (Seq (chr "/") r)))
                 prev s k = None) as H1.
  { intros r. cbn [run]. apply (run_None (plus ws)). intros p' s' Hsuf.
    pose proof (mem_char_suffix _ _ _ Hsuf Hs) as Hs'.
    by destruct (marker_needs_slash r p' s' k Hs') as [H _]. }
  assert (run (Seq (plus ws) (Seq (ichr "w") (chr "/"))) prev s k = None)
    as H2.
  { cbn [run]. apply (run_None (plus ws)). intros p' s' Hsuf.
    pose proof (mem_char_suffix _ _ _ Hsuf Hs) as Hs'.
    by destruct (marker_needs_slash Eps p' s' k Hs') as [_ H]. }
  destruct (marker_needs_slash (plus ws) prev s k Hs) as [H3 H4].
  change (match run (Seq (plus ws)
                       (Seq (ichr "w") (Seq (chr "/") (plus ws))))
                  prev s k with
          | Some x => Some x
          | None =>
              match run (Seq (plus ws) (Seq (ichr "w") (chr "/")))
                      prev s k with
              | Some x => Some x
              | None =>
                  match run (Seq (ichr "w") (Seq (chr "/") (plus ws)))
                          prev s k with
                  | Some x => Some x
                  | None => run (Seq (ichr "w") (chr "/")) prev s k
                  end
              end
          end = None).
  by rewrite H1, H2, H3, H4.
Qed.

(** Without a slash the marker pattern splits nothing off. *)
Lemma fix_w_split_no_slash name :
  Py.mem_char "/" name = false → re_split FixW.with_re name = [name].
Proof.
  intros Hs. unfold re_split.
  exact (split_from_no_match FixW.with_re "/" name
           fix_w_with_re_needs_slash None Hs).
Qed.

(** X23. [split_artist_name] never splits a name that contains no
    slash. *)
Theorem split_artist_name_needs_slash name :
  Py.mem_char "/" name = false → FixW.split_artist_name name = None.
Proof.
  intros Hs. unfold FixW.split_artist_name.
  destruct (matches FixW.leading_with_re name); [done|].
  by rewrite (fix_w_split_no_slash name Hs).
Qed.

(** X23, witness: the word "with" is no marker. *)
Lemma split_artist_name_needs_slash_witness :
  FixW.split_artist_name "Simon & Garfunkel with Band X" = None.
Proof.
  apply (split_artist_name_needs_slash "Simon & Garfunkel with Band X").
  reflexivity.
Defined.

(** A non-empty string without a letter or digit matches the pattern of
    the last test of the loop. *)
Lemma no_alnum_matches (part : string) :
  Py.truthy part = true →
  Py.all_chars (fun c => negb (Py.is_ascii_lower c || Py.is_ascii_upper c
                               || Py.is_digit c)) part = true →
  matches FixW.no_alnum_re part = true.
Proof.
  destruct part as [|c rest]; [done|]. intros _ Hall.
  cbn [Py.all_chars] in Hall. apply andb_true_iff in Hall as [Hc Hrest].
  unfold matches, re_match, match_end.
  set (k0 := fun (_ : option ascii) (s' : string) =>
               Some (String.length (String c rest) - String.length s')).
  assert (is_Some (run FixW.no_alnum_re None (String c rest) k0))
    as [n ->]; [|done].
  unfold FixW.no_alnum_re. cbn [seqs]. cbn [run]. unfold plus.
  cbn [run]. rewrite Hc.
  assert (∀ p' : option ascii,
            is_Some ((fun (p' : option ascii) (s' : string) =>
                        if at_end s' then k0 p' s' else None)
                       p' EmptyString)) as Hk.
  { intros p'. by eexists. }
  pose proof (star_loop_skip _ rest (String.length rest) (Some c)
                EmptyString _ Hrest (le_n _) Hk) as H.
  rewrite append_nil_r in H. exact H.
Qed.

Lemma clean_part_Some part cleaned :
  FixW.clean_part part = Some cleaned →
  2 ≤ String.length cleaned
  ∧ Py.strip cleaned = cleaned
  ∧ Py.all_chars (fun c => negb (Py.is_ascii_lower c || Py.is_ascii_upper c
                                 || Py.is_digit c)) cleaned = false.
Proof.
  unfold FixW.clean_part.
  match goal with
  | |- context [Py.strip (re_sub (plus ws) " " ?x)] =>
      generalize (re_sub (plus ws) " " x)
  end.
  intros raw.
  destruct (Py.truthy (Py.strip raw) && (1 <? String.length (Py.strip raw))
            && negb (matches FixW.no_alnum_re (Py.strip raw))) eqn:E;
    [|done].
  intros [= <-].
  apply andb_true_iff in E as [E Hm]. apply andb_true_iff in E as [Ht Hl].
  apply Nat.ltb_lt in Hl. apply negb_true_iff in Hm.
  split_and!; [lia | apply strip_with_idem |].
  destruct (Py.all_chars _ (Py.strip raw)) eqn:Hall; [|done].
  by rewrite (no_alnum_matches _ Ht Hall) in Hm.
Qed.

(** X24. When [split_artist_name] splits a name, the name contains a
    slash and does not begin with the marker, and there are at least two
    parts; each part has at least two characters, no white space at either
    end, and at least one ASCII letter or digit. *)
Theorem split_artist_name_parts name parts :
  FixW.split_artist_name name = Some parts →
  Py.mem_char "/" name = true
  ∧ matches FixW.leading_with_re name = false
  ∧ 2 ≤ length parts
  ∧ Forall (fun part =>
              2 ≤ String.length part
              ∧ Py.strip part = part
              ∧ Py.all_chars
                  (fun c => negb (Py.is_ascii_lower c || Py.is_ascii_upper c
                                  || Py.is_digit c)) part = false)
           parts.
Proof.
  intros H.
  assert (Py.mem_char "/" name = true) as Hslash.
  { destruct (Py.mem_char "/" name) eqn:E; [done|].
    unfold FixW.split_artist_name in H.
    rewrite (fix_w_split_no_slash name E) in H.
    by destruct (matches FixW.leading_with_re name). }
  unfold FixW.split_artist_name in H.
  destruct (matches FixW.leading_with_re name); [done|].
  destruct (1 <? length (re_split FixW.with_re name)); [|done].
  destruct (1 <? length (omap FixW.clean_part (re_split FixW.with_re name)))
    eqn:Hl; [|done].
  injection H as <-. apply Nat.ltb_lt in Hl.
  split_and!; [done | done | lia |].
  apply Forall_forall. intros part Hp.
  apply list_elem_of_omap in Hp as (raw & _ & Hraw).
  by apply clean_part_Some in Hraw.
Qed.

(** X24, witness: a headliner and one opener. *)
Lemma split_artist_name_parts_witness :
  Py.mem_char "/" "Neon Trees w/ Band X" = true
  ∧ matches FixW.leading_with_re "Neon Trees w/ Band X" = false
  ∧ 2 ≤ length ["Neon Trees"; "Band X"]
  ∧ Forall (fun part =>
              2 ≤ String.length part
              ∧ Py.strip part = part
              ∧ Py.all_chars
                  (fun c => negb (Py.is_ascii_lower c || Py.is_ascii_upper c
                                  || Py.is_digit c)) part = false)
           ["Neon Trees"; "Band X"].
Proof.
  apply (split_artist_name_parts "Neon Trees w/ Band X"
           ["Neon Trees"; "Band X"]).
  vm_compute. reflexivity.
Defined.

End Splitting.

Section FixedEdges.
Import NetworkEdits.

Lemma keep_first_inv es :
  let st := foldl FixW.keep_first (∅, []) es in
  (∀ k, k ∈ st.1 ↔ k ∈ map edge_key st.2)
  ∧ NoDup (map edge_key st.2)
  ∧ (∀ e, e ∈ es → edge_key e ∈ map edge_key st.2)
  ∧ (∀ e', e' ∈ st.2 → head (same_key (edge_key e') es) = Some e').
Proof.
  induction es as [|x es IH] using rev_ind.
  { cbn. split_and!; [set_solver | constructor | |].
    - intros e H. by apply elem_of_nil in H.
    - intros e H. by apply elem_of_nil in H. }
  rewrite foldl_app. cbn [foldl]. cbn zeta in IH.
  destruct (foldl FixW.keep_first (∅, []) es) as [seen final].
  cbn [fst snd] in IH. destruct IH as (Hseen & Hnd & Hall & Hfirst).
  unfold FixW.keep_first.
  destruct (bool_decide (edge_key x ∈ seen)) eqn:E; cbn [fst snd].
  - apply bool_decide_eq_true in E. split_and!; [done | done | |].
    + intros e [He | ->%list_elem_of_singleton]%elem_of_app;
        [by apply Hall | by apply Hseen].
    + intros e' He'. rewrite same_key_snoc.
      specialize (Hfirst e' He').
      destruct (same_key (edge_key e') es); [done|]. done.
  - apply bool_decide_eq_false in E. rewrite map_app. cbn [map].
    split_and!.
    + intros k. rewrite elem_of_union, elem_of_singleton, elem_of_app,
        list_elem_of_singleton, Hseen. done.
    + apply NoDup_app. split_and!; [done | | apply NoDup_singleton].
      intros k Hk ->%list_elem_of_singleton. by apply E, Hseen.
    + intros e [He | ->%list_elem_of_singleton]%elem_of_app.
      * apply elem_of_app. left. by apply Hall.
      * apply elem_of_app. right. left.
    + intros e' [He' | ->%list_elem_of_singleton]%elem_of_app.
      * rewrite same_key_snoc. specialize (Hfirst e' He').
        destruct (same_key (edge_key e') es); [done|]. done.
      * rewrite same_key_snoc, decide_True by done.
        rewrite same_key_none; [done|].
        intros e He Heq. apply E, Hseen. rewrite <- Heq. by apply Hall.
Qed.

(** The edge loop is a filter followed by a map. *)
Lemma repoint_edges_spec m (rm : gset string) es :
  FixW.repoint_edges m rm es
  = map (fun e => set_ends e (rename m (source e)) (rename m (target e)))
      (List.filter
         (fun e => negb (bool_decide (source e ∈ rm)
                         || bool_decide (target e ∈ rm)))
         es).
Proof.
  unfold FixW.repoint_edges. induction es as [|x es IH] using rev_ind;
    [done|].
  rewrite foldl_app, List.filter_app, map_app. cbn [foldl List.filter].
  rewrite IH.
  destruct (bool_decide (source x ∈ rm) || bool_decide (target x ∈ rm));
    cbn [negb map]; by rewrite ?app_nil_r.
Qed.

(** X25. The edges that [fix_w_artists.update_network_file] writes. The
    removed nodes are the nodes whose id the mapping renames. The input
    edges that touch no removed node, and only they, are re-pointed, in
    order. Of the re-pointed edges that join one unordered pair exactly
    the first is written, as it is (nothing is combined); so no two edges
    written join the same unordered pair and every re-pointed pair is
    still joined. *)
Theorem fix_w_edges m nd :
  let removed := FixW.removed_nodes m (nodes nd) in
  let es :=
    map (fun e => set_ends e (rename m (source e)) (rename m (target e)))
      (List.filter
         (fun e => negb (bool_decide (source e ∈ removed)
                         || bool_decide (target e ∈ removed)))
         (edges nd)) in
  let out := FixW.update_network_edges m nd in
  (∀ i, i ∈ removed ↔ ∃ n, n ∈ nodes nd ∧ id n = i ∧ is_Some (m !! i))
  ∧ FixW.repoint_edges m removed (edges nd) = es
  ∧ NoDup (map edge_key out)
  ∧ Forall (fun e' => head (same_key (edge_key e') es) = Some e') out
  ∧ Forall (fun e => edge_key e ∈ map edge_key out) es.
Proof.
  cbn zeta. unfold FixW.update_network_edges, FixW.remove_duplicate_edges.
  rewrite repoint_edges_spec.
  match goal with
  | |- context [foldl FixW.keep_first _ ?l] =>
      pose proof (keep_first_inv l) as (_ & Hnd & Hall & Hfirst)
  end.
  split_and!; [| done | done | by apply Forall_forall
               | by apply Forall_forall].
  intros i. unfold FixW.removed_nodes. rewrite elem_of_list_to_set.
  rewrite list_elem_of_In, filter_In, in_map_iff. split.
  - intros [(n & <- & Hn) Hsome]. apply bool_decide_eq_true in Hsome.
    exists n. by rewrite list_elem_of_In.
  - intros (n & Hn & <- & Hsome). split.
    + exists n. by rewrite <- list_elem_of_In.
    + by apply bool_decide_eq_true.
Qed.

(** X25, witness: two edges that the renaming makes parallel. *)
Lemma fix_w_edges_witness :
  let m := Examples.typo_mapping in
  let nd := Examples.network_dangling in
  let removed := FixW.removed_nodes m (nodes nd) in
  let es :=
    map (fun e => set_ends e (rename m (source e)) (rename m (target e)))
      (List.filter
         (fun e => negb (bool_decide (source e ∈ removed)
                         || bool_decide (target e ∈ removed)))
         (edges nd)) in
  let out := FixW.update_network_edges m nd in
  (∀ i, i ∈ removed ↔ ∃ n, n ∈ nodes nd ∧ id n = i ∧ is_Some (m !! i))
  ∧ FixW.repoint_edges m removed (edges nd) = es
  ∧ NoDup (map edge_key out)
  ∧ Forall (fun e' => head (same_key (edge_key e') es) = Some e') out
  ∧ Forall (fun e => edge_key e ∈ map edge_key out) es.
Proof.
  apply (fix_w_edges Examples.typo_mapping Examples.network_dangling).
Defined.

(** On that network the first of the two parallel edges is written, with
    its own weight and shows. *)
Example fix_w_edges_dangling :
  FixW.update_network_edges Examples.typo_mapping Examples.network_dangling
  = [Examples.edge "neon trees" 2
       (Some [Examples.show_a; Examples.show_b])].
Proof. vm_compute. reflexivity. Qed.

End FixedEdges.

(** ** The artist strings of the graph builder *)

Section ArtistStrings.
Import Re Network.

Lemma parse_part_names part :
  Forall (fun a => Py.truthy a = true ∧ Py.strip a = a) (parse_part part).
Proof.
  unfold parse_part. destruct (Py.truthy (Py.strip part)) eqn:Ht;
    [|constructor].
  destruct (Py.contains " & " (Py.strip part)
            && negb (Py.contains "," (Py.strip part))).
  - induction (Py.split_str " & " (Py.strip part)) as [|x l IH];
      cbn [map List.filter]; [constructor|].
    destruct (Py.truthy (Py.strip x)) eqn:Hx; [|done].
    constructor; [|done]. split; [done | apply strip_with_idem].
  - constructor; [|constructor]. split; [done | apply strip_with_idem].
Qed.

(** X26. Every name that [_parse_artist_string] returns is non-empty and
    has no white space at either end; the empty string and the strings
    "none" and "null", in any case, give no name. *)
Theorem parse_artist_string_names artist_string :
  Forall (fun a => Py.truthy a = true ∧ Py.strip a = a)
         (_parse_artist_string artist_string)
  ∧ (In (Py.lower artist_string) ["none"; "null"; EmptyString] →
     _parse_artist_string artist_string = []).
Proof.
  unfold _parse_artist_string. split.
  - destruct (negb (Py.truthy artist_string)
              || Py.in_list (Py.lower artist_string)
                   ["none"; "null"; EmptyString]); [constructor|].
    apply Forall_concat, Forall_forall.
    intros l (part & -> & _)%(list_elem_of_fmap_1 parse_part).
    apply parse_part_names.
  - intros H%in_list_In. by rewrite H, orb_true_r.
Qed.

End ArtistStrings.

(** ** The validation of a merge request *)

Section Validation.
Import DataModel AdminServer.

Lemma lookup_all_inl s ids missing :
  lookup_all s ids = inl missing →
  In missing ids ∧ get_artist s missing = None.
Proof.
  induction ids as [|i ids IH]; cbn [lookup_all]; [done|].
  destruct (get_artist s i) as [a|] eqn:Ha.
  - destruct (lookup_all s ids) as [m|found]; [|done].
    intros [= <-]. destruct (IH eq_refl). split; [by right | done].
  - intros [= <-]. split; [by left | done].
Qed.

(** X27. The merge endpoint rejects a request exactly when the primary id
    is missing or empty, the list of merged ids is empty, the primary id
    is unknown, or some merged id is unknown; and a rejected request
    leaves the store unchanged. *)
Theorem merge_rejected_iff s primary_id ids :
  let r := merge_artists s primary_id ids in
  (rejected (fst r) ↔
   primary_id = None ∨ ids = []
   ∨ ∃ p, primary_id = Some p
          ∧ (Py.truthy p = false ∨ get_artist s p = None
             ∨ ∃ i, In i ids ∧ get_artist s i = None))
  ∧ (rejected (fst r) → snd r = s).
Proof.
  cbn zeta. unfold merge_artists.
  destruct primary_id as [p|]; [|split; [split; [by left | done] | done]].
  destruct ids as [|i0 ids];
    [split; [split; [by right; left | done] | done]|].
  destruct (Py.truthy p) eqn:Ht; cbn [negb].
  2:{ split; [|done]. split; [|done]. intros _. right. right. exists p.
      split; [done | by left]. }
  destruct (get_artist s p) as [primary|] eqn:Hp.
  2:{ split; [|done]. split; [|done]. intros _. right. right. exists p.
      split; [done | right; by left]. }
  destruct (lookup_all s (i0 :: ids)) as [missing|ms] eqn:Hms.
  { split; [|done]. split; [|done]. intros _. right. right. exists p.
    split; [done|]. right. right. exists missing.
    by apply lookup_all_inl. }
  destruct (repoint_shows _ p (i0 :: ids)) as [st2 n2].
  assert (∀ i, In i (i0 :: ids) → get_artist s i ≠ None) as Hknown.
  { intros i Hi Hnone.
    destruct (lookup_all_unknown s (i0 :: ids) i Hi Hnone) as [m Hm].
    congruence. }
  destruct (delete_all _ ms) as [arts'' [gone|]]; cbn [fst snd rejected].
  - split; [|done]. split; [done|].
    intros [? | [? | (p' & [= <-] & [? | [? | (i & Hi & Hnone)]])]];
      try congruence. by destruct (Hknown i Hi).
  - split; [|done]. split; [done|].
    intros [? | [? | (p' & [= <-] & [? | [? | (i & Hi & Hnone)]])]];
      try congruence. by destruct (Hknown i Hi).
Qed.

End Validation.

Section EdgePairs.
Import Network.

(** X28. The edges that [create_network_data] builds from
    [process_all_shows] join pairwise different unordered pairs, whatever
    the shows and the order in which the names of a bill are visited. *)
Theorem graph_one_edge_per_pair set_order all_shows :
  NoDup (map (fun e => sorted_pair (source e) (target e))
           (edges_of (process_all_shows set_order all_shows))).
Proof.
  pose proof (process_all_shows_keys_sorted set_order all_shows) as Hsorted.
  unfold edges_of. rewrite map_map.
  rewrite (map_ext_in _ fst).
  - apply NoDup_fst_map_to_list.
  - intros [[a1 a2] n] Hin. cbn [source target fst].
    apply list_elem_of_In, elem_of_map_to_list in Hin.
    specialize (Hsorted (a1, a2) (ex_intro _ n Hin)). cbn [fst snd] in Hsorted.
    unfold sorted_pair. by rewrite Hsorted.
Qed.

End EdgePairs.

(** ** The names extracted from one show *)

Section Extraction.
Import Network.

Lemma clean_artist_name_kept name :
  Py.truthy (_clean_artist_name name) = true →
  2 ≤ String.length (_clean_artist_name name)
  ∧ Py.in_list (Py.lower (_clean_artist_name name)) metadata_names = false
  ∧ any_in generic_terms (Py.lower (_clean_artist_name name)) = false.
Proof.
  unfold _clean_artist_name.
  destruct (negb (Py.truthy name)); [done|].
  destruct (String.length (tidy_artist_name name) <? 2) eqn:Hl; [done|].
  destruct (Py.in_list (Py.lower (tidy_artist_name name)) metadata_names)
    eqn:Hm; [done|].
  destruct (any_in generic_terms (Py.lower (tidy_artist_name name)))
    eqn:Hg; [done|].
  intros _. apply Nat.ltb_ge in Hl. done.
Qed.

(** X29. When [list(set(...))] lists each distinct name once, the names
    that [extract_artists_from_show] returns for a show are pairwise
    different as strings, have at least two characters, are not one of
    the metadata words and contain none of the generic terms. *)
Theorem extracted_names set_order show :
  (∀ l, set_order l ≡ₚ remove_dups l) →
  NoDup (extract_artists_from_show set_order show)
  ∧ Forall (fun a =>
              2 ≤ String.length a
              ∧ Py.in_list (Py.lower a) metadata_names = false
              ∧ any_in generic_terms (Py.lower a) = false)
           (extract_artists_from_show set_order show).
Proof.
  intros Hset. unfold extract_artists_from_show.
  destruct (negb (Py.truthy (get (date show)))
            || negb (Py.truthy (get (title show))));
    [split; constructor|].
  destruct (any_in _ (Py.lower (get (title show)))); [split; constructor|].
  match goal with
  | |- context [List.filter ?f (map _clean_artist_name ?l)] =>
      generalize l
  end.
  intros l. split.
  - rewrite Hset. apply NoDup_remove_dups.
  - apply Forall_forall. intros a Ha. rewrite Hset in Ha.
    apply elem_of_remove_dups, list_elem_of_In, filter_In in Ha
      as [Ha Hkeep].
    apply in_map_iff in Ha as (x & <- & _).
    apply andb_true_iff in Hkeep as [Ht _].
    by apply clean_artist_name_kept.
Qed.

(** X29, witness: the order of first occurrence. *)
Lemma extracted_names_witness :
  NoDup (extract_artists_from_show remove_dups Examples.two_spellings)
  ∧ Forall (fun a =>
              2 ≤ String.length a
              ∧ Py.in_list (Py.lower a) metadata_names = false
              ∧ any_in generic_terms (Py.lower a) = false)
           (extract_artists_from_show remove_dups Examples.two_spellings).
Proof.
  apply (extracted_names remove_dups Examples.two_spellings).
  intros l. reflexivity.
Defined.

End Extraction.

(** ** Lookup by name in a consistent store *)

Section NameLookup.
Import DataModel Resolver.

(** X30. In a consistent store, [find_artist_by_name] returns an artist
    for a name exactly when that artist is live and the normalized name is
    the normalization of its canonical name or of one of its aliases. *)
Theorem find_artist_by_name_iff s name b :
  consistent s →
  find_artist_by_name s name = Some b ↔
  b ∈ _artists s ∧ _normalize_name name ∈ artist_keys b.
Proof.
  intros (Hnd & Ht & Hd & Hidx). split.
  - intros (Hi & _ & Hget)%find_artist_by_name_Some.
    pose proof (artists_get_In _ _ _ Hget) as Hb.
    apply list_elem_of_In in Hb. split; [done|].
    rewrite Hidx in Hi.
    apply (rebuild_lookup _ Hd) in Hi as (a & Ha & Hk & Hid).
    pose proof (artists_get_elem _ _ Hnd Ha) as Hget'.
    rewrite Hid, Hget in Hget'. by injection Hget' as ->.
  - intros [Hb Hk]. unfold find_artist_by_name. rewrite Hidx.
    assert (rebuild (_artists s) !! _normalize_name name = Some (a_id b))
      as ->.
    { apply rebuild_lookup; [done|]. by exists b. }
    rewrite (Ht b Hb). by apply artists_get_elem.
Qed.

(** X30, witness: the alias of Neon Trees in the store of two artists. *)
Lemma find_artist_by_name_iff_witness :
  find_artist_by_name Examples.two_artists "the neon TREES "
  = Some Examples.neon_trees ↔
  Examples.neon_trees ∈ _artists Examples.two_artists
  ∧ _normalize_name "the neon TREES " ∈ artist_keys Examples.neon_trees.
Proof.
  apply (find_artist_by_name_iff Examples.two_artists "the neon TREES "
           Examples.neon_trees).
  apply two_artists_consistent.
Defined.

End NameLookup.
